(** * Heightmap normalisation of [image_processor.py]

    A shallow embedding of [convert_tiff_to_heightmap]
    (src/data-processing/image_processor.py): no-data masking, NaN-skipping
    statistics, the degenerate-range test and the linear rescaling to 8-bit
    intensities.

    Numbers are IEEE-754 binary32 values, as the source casts the band with
    [astype(np.float32)]; they are represented by [spec_float] and computed
    with the reference operations of [SpecFloat] at precision 24 and maximal
    exponent 128.  Python floats (the no-data value returned by rasterio, the
    tolerances of [np.isclose], the intermediate quotient of
    [_divide_by_count]) are binary64 values, precision 53 and maximal exponent
    1024.  Python scalars are weak in mixed operations (numpy 2): the
    no-data value and the tolerances are narrowed to binary32 where they
    meet the array.  File decoding and PNG encoding are outside the embedding: the
    function below starts from the decoded band and the no-data value and
    stops at the 8-bit grid handed to [Image.fromarray].  The cast of the
    stored samples ([convert_raster]) and the script around the computation
    ([convert_file], [main]: the files it touches, the lines it prints, its
    exit status) are modelled after it, over an explicit description of
    what the file system holds. *)

From Stdlib Require Import String Ascii ZArith QArith Qround List Bool Lia.
From Stdlib Require Import Floats.SpecFloat.
Import ListNotations.
Local Open Scope Z_scope.

(** ** Floating-point formats *)

Module F64.
Definition prec : Z := 53.
Definition emax : Z := 1024.
Definition of_Z (z : Z) : spec_float := binary_normalize prec emax z 0 false.
Definition div : spec_float -> spec_float -> spec_float := SFdiv prec emax.
(** Widening a binary32 value is exact; the mantissa is re-aligned to the
  binary64 exponent. *)
Definition of_f32 (x : spec_float) : spec_float :=
match x with
| S754_finite s m e => binary_round prec emax s m e
| _ => x
end.
End F64.

Module F32.
Abbreviation prec := 24 (only parsing).
Abbreviation emax := 128 (only parsing).
Definition float32 : Type := spec_float.

Definition valid (x : float32) : bool := valid_binary prec emax x.

Definition nan : float32 := S754_nan.
Definition zero : float32 := S754_zero false.
Definition of_Z (z : Z) : float32 := binary_normalize prec emax z 0 false.
Definition one : float32 := Eval cbv in of_Z 1.

Definition add : float32 -> float32 -> float32 := SFadd prec emax.
Definition sub : float32 -> float32 -> float32 := SFsub prec emax.
Definition mul : float32 -> float32 -> float32 := SFmul prec emax.
Definition div : float32 -> float32 -> float32 := SFdiv prec emax.
Definition sqrt : float32 -> float32 := SFsqrt prec emax.
Definition abs : float32 -> float32 := SFabs.
Definition eqb : float32 -> float32 -> bool := SFeqb.
Definition ltb : float32 -> float32 -> bool := SFltb.
Definition leb : float32 -> float32 -> bool := SFleb.

Definition is_nan (x : float32) : bool :=
match x with S754_nan => true | _ => false end.
Definition is_number (x : float32) : bool := negb (is_nan x).
Definition is_finite (x : float32) : bool :=
match x with S754_zero _ | S754_finite _ _ _ => true | _ => false end.

(** Narrowing a Python float (binary64) to binary32 rounds to nearest
  even and overflows to an infinity. *)
Definition of_f64 (x : spec_float) : float32 :=
match x with
| S754_finite s m e => binary_round prec emax s m e
| _ => x
end.
End F32.

Import F32.

(** A Python float literal [n / d] with [n] and [d] exactly representable:
    the correctly rounded binary64 quotient. *)
Definition py_float (n d : Z) : spec_float := F64.div (F64.of_Z n) (F64.of_Z d).

(** ** The numpy operations used by the source *)

Inductive exn := ValueError_zero_size.

Inductive outcome (A : Type) :=
| Ok (a : A)
| Raised (e : exn).
Arguments Ok {A} a.
Arguments Raised {A} e.

Definition bind {A B} (m : outcome A) (k : A -> outcome B) : outcome B :=
  match m with
  | Ok a => k a
  | Raised e => Raised e
  end.

Notation "x <- m ;; k" := (bind m (fun x => k))
  (at level 61, m at next level, right associativity).

Definition grid (A : Type) : Type := list (list A).

Definition grid_map {A B} (f : A -> B) (g : grid A) : grid B := map (map f) g.

(** [a.ravel()]: the cells in row-major order. *)
Definition ravel {A} (g : grid A) : list A := concat g.

(** [np.where(data == nodata_val, np.nan, data)]; the Python float
    [nodata_val] is a weak scalar, converted to the array's binary32. *)
Definition mask_nodata (nodata_val : spec_float) (data : grid float32) : grid float32 :=
  grid_map (fun x => if eqb x (of_f64 nodata_val) then nan else x) data.

(** [np.fmin] and [np.fmax], the loops behind [nanmin] and [nanmax]:
    [(in1 <= in2 || isnan(in2)) ? in1 : in2]. *)
Definition fmin (a b : float32) : float32 := if leb a b || is_nan b then a else b.
Definition fmax (a b : float32) : float32 := if leb b a || is_nan b then a else b.

(** [ufunc.reduce] of an operation without identity: the first cell seeds
    the accumulator; a zero-size array raises [ValueError]. *)
Definition reduce (f : float32 -> float32 -> float32) (l : list float32) : outcome float32 :=
  match l with
  | [] => Raised ValueError_zero_size
  | x :: t => Ok (fold_left f t x)
  end.

Definition nanmin (l : list float32) : outcome float32 := reduce fmin l.
Definition nanmax (l : list float32) : outcome float32 := reduce fmax l.

(** [_replace_nan(a, 0)] and the count of the cells it kept. *)
Definition replace_nan (l : list float32) : list float32 :=
  map (fun x => if is_nan x then zero else x) l.
Definition count_valid (l : list float32) : Z :=
  Z.of_nat (length (filter is_number l)).

(** [np.sum] on a binary32 array: [add.reduce] starts from the identity 0
    and adds the result of [FLOAT_pairwise_sum] (numpy's
    [loops_utils.h.src]).  The array summed here is C-contiguous and
    reduced over all its axes, so the loop receives its cells as one run
    of [n], in row-major order:

    - [n < 8]: the cells are added one after the other, from [-0.0];
    - [n <= PW_BLOCKSIZE]: eight partial sums [r[0..7]] take the first
      eight cells, each following group of eight is added to them lane by
      lane, they are combined as
      [((r0 + r1) + (r2 + r3)) + ((r4 + r5) + (r6 + r7))], and the
      [n % 8] cells left are added one after the other;
    - otherwise the run is cut at [n2 = n / 2 - (n / 2) % 8] and the sums
      of the two parts are added. *)
Inductive lanes :=
| Lanes (r0 r1 r2 r3 r4 r5 r6 r7 : float32).

Fixpoint unrolled_loop (r : lanes) (l : list float32) {struct l} : lanes * list float32 :=
  match r, l with
  | Lanes r0 r1 r2 r3 r4 r5 r6 r7, a0 :: a1 :: a2 :: a3 :: a4 :: a5 :: a6 :: a7 :: t =>
      unrolled_loop
        (Lanes (add r0 a0) (add r1 a1) (add r2 a2) (add r3 a3)
               (add r4 a4) (add r5 a5) (add r6 a6) (add r7 a7)) t
  | _, _ => (r, l)
  end.

Definition pairwise_block (l : list float32) : float32 :=
  match l with
  | a0 :: a1 :: a2 :: a3 :: a4 :: a5 :: a6 :: a7 :: t =>
      match unrolled_loop (Lanes a0 a1 a2 a3 a4 a5 a6 a7) t with
      | (Lanes r0 r1 r2 r3 r4 r5 r6 r7, rest) =>
          fold_left add rest
            (add (add (add r0 r1) (add r2 r3)) (add (add r4 r5) (add r6 r7)))
      end
  | _ => fold_left add l (S754_zero true)
  end.

Definition PW_BLOCKSIZE : nat := 128.

(** The recursion of [FLOAT_pairwise_sum] halves the run; [depth] bounds
    the number of nested calls, and [length l] is always enough
    ([pairwise_sum_unfold]). *)
Fixpoint pairwise_sum_upto (depth : nat) (l : list float32) : float32 :=
  match depth with
  | O => pairwise_block l
  | S d =>
      let n := length l in
      if (n <=? PW_BLOCKSIZE)%nat then pairwise_block l
      else
        let n2 := (n / 2 - (n / 2) mod 8)%nat in
        add (pairwise_sum_upto d (firstn n2 l)) (pairwise_sum_upto d (skipn n2 l))
  end.

Definition pairwise_sum (l : list float32) : float32 :=
  pairwise_sum_upto (length l) l.

Definition np_sum (l : list float32) : float32 := add zero (pairwise_sum l).

(** [_divide_by_count]: a binary32 total divided by an [intp] count is
    computed in binary64 and cast back to binary32. *)
Definition divide_by_count (a : float32) (cnt : Z) : float32 :=
  of_f64 (F64.div (F64.of_f32 a) (F64.of_Z cnt)).

Definition nanmean (l : list float32) : float32 :=
  divide_by_count (np_sum (replace_nan l)) (count_valid l).

(** [np.nanvar] with [ddof = 0]: the deviations of the invalid cells are
    reset to zero before squaring, and the sum of squares is divided by
    the number of valid cells. *)
Definition nanvar (l : list float32) : float32 :=
  let cnt := count_valid l in
  let avg := divide_by_count (np_sum (replace_nan l)) cnt in
  let dev := map (fun x => if is_nan x then zero else sub x avg) l in
  let sqr := map (fun d => mul d d) dev in
  if cnt <=? 0 then nan else divide_by_count (np_sum sqr) cnt.

Definition nanstd (l : list float32) : float32 := sqrt (nanvar l).

(** [np.isclose(a, b)] with the default [rtol = 1e-5], [atol = 1e-8] and
    [equal_nan = False]. *)
Definition rtol : spec_float := py_float 1 100000.
Definition atol : spec_float := py_float 1 100000000.

Definition isclose (x y : float32) : bool :=
  (leb (abs (sub x y)) (add (of_f64 atol) (mul (of_f64 rtol) (abs y))) && is_finite y)
  || eqb x y.

(** [np.clip(x, 0.0, 1.0)]: NaN is propagated, otherwise
    [min(max(x, 0), 1)] with the C comparisons of the loop. *)
Definition clip01 (x : float32) : float32 :=
  if is_nan x then x
  else let t := if ltb zero x then x else zero in
       if ltb t one then t else one.

(** [np.nan_to_num(x, nan=0.0, posinf=1.0, neginf=0.0)]. *)
Definition nan_to_num (x : float32) : float32 :=
  match x with
  | S754_nan => zero
  | S754_infinity false => one
  | S754_infinity true => zero
  | _ => x
  end.

(** The integer part of a float, rounded toward zero. *)
Definition trunc (x : float32) : Z :=
  match x with
  | S754_finite s m e =>
      let a := match e with
               | Zneg p => Z.shiftr (Zpos m) (Zpos p)
               | _ => Z.shiftl (Zpos m) e
               end in
      if s then - a else a
  | _ => 0
  end.

(** [astype(np.uint8)]: the C conversion drops the fractional part; the
    byte keeps the low eight bits.  NaN and the infinities have no defined
    conversion and are taken to 0 here; the scaling branch never feeds
    them to the cast. *)
Definition astype_uint8 (x : float32) : Z := (trunc x) mod 256.

(** ** [convert_tiff_to_heightmap] *)

Record Statistics := {
  data_min : float32;
  data_max : float32;
  data_mean : float32;
  data_stddev : float32
}.

Record Heightmap := {
  stats : Statistics;
  elevation_range : float32;
  flat_warning : bool;
  scaled : grid Z
}.

Definition f255 : float32 := Eval cbv in of_Z 255.

(** One cell of the scaling branch: lines 50 to 56 bring it into [0, 1],
    line 59 multiplies by 255 and casts. *)
Definition clipped (lo hi x : float32) : float32 :=
  nan_to_num (clip01 (div (sub x lo) (sub hi lo))).

Definition scale_cell (lo hi x : float32) : Z :=
  astype_uint8 (mul (clipped lo hi x) f255).

Definition statistics (data : grid float32) : outcome Statistics :=
  lo <- nanmin (ravel data) ;;
  hi <- nanmax (ravel data) ;;
  Ok {| data_min := lo;
        data_max := hi;
        data_mean := nanmean (ravel data);
        data_stddev := nanstd (ravel data) |}.

Definition apply_nodata (nodata_val : option spec_float) (data : grid float32) : grid float32 :=
  match nodata_val with
  | Some v => mask_nodata v data
  | None => data
  end.

Definition convert_tiff_to_heightmap
    (band : grid float32) (nodata_val : option spec_float) : outcome Heightmap :=
  let data := apply_nodata nodata_val band in
  st <- statistics data ;;
  let lo := data_min st in
  let hi := data_max st in
  if isclose lo hi then
    Ok {| stats := st; elevation_range := sub hi lo; flat_warning := true;
          scaled := grid_map (fun _ => 128) data |}
  else
    Ok {| stats := st; elevation_range := sub hi lo; flat_warning := false;
          scaled := grid_map (scale_cell lo hi) data |}.

(** The rational value of a finite float; NaN and the infinities have
    none. *)
Definition to_Q (x : float32) : option Q :=
  match x with
  | S754_zero _ => Some 0%Q
  | S754_finite s m e =>
      let a := match e with
               | Zneg p => Qmake (Zpos m) (2 ^ p)
               | _ => inject_Z (Zpos m * 2 ^ e)
               end in
      Some (if s then Qopp a else a)
  | _ => None
  end.

(** ** The statistics as the specification words them

    "Over valid cells only, compute minimum, maximum, arithmetic mean, and
    population standard deviation (denominator = count of valid cells)";
    a cell is valid when it is a number different from the sentinel. *)

Definition is_valid_cell (nodata_val : option spec_float) (x : float32) : bool :=
  is_number x &&
  negb (match nodata_val with Some v => eqb x (of_f64 v) | None => false end).

Definition valid_cells (nodata_val : option spec_float) (band : grid float32) : list float32 :=
  filter (is_valid_cell nodata_val) (ravel band).

Definition least (a b : float32) : float32 := if leb a b then a else b.
Definition greatest (a b : float32) : float32 := if leb b a then a else b.

Definition spec_extremum (f : float32 -> float32 -> float32) (l : list float32) : float32 :=
  match l with
  | [] => nan
  | x :: t => fold_left f t x
  end.

(** What the statistics may read of a band: the value of a valid cell, at
    its place, and nothing of an invalid one. *)
Definition observed (nodata_val : option spec_float) (band : grid float32)
  : list (option float32) :=
  map (fun x => if is_valid_cell nodata_val x then Some x else None) (ravel band).

Definition present (cells : list (option float32)) : list float32 :=
  flat_map (fun c => match c with Some x => [x] | None => [] end) cells.

Definition spec_count (cells : list (option float32)) : Z :=
  Z.of_nat (length (present cells)).

(** The sum of the valid cells.  Addition in binary32 is not associative:
    the specification's sum is taken in the order in which the array
    reduction visits the cells (partial sums of eight interleaved lanes,
    halves of long runs), a partial sum holding the total of the valid
    cells it has met, or nothing as long as it has met none.  An invalid
    cell is passed over. *)
Definition spec_plus (a b : option float32) : option float32 :=
  match a, b with
  | Some x, Some y => Some (add x y)
  | Some x, None => Some x
  | None, _ => b
  end.

Inductive spec_lanes :=
| SpecLanes (s0 s1 s2 s3 s4 s5 s6 s7 : option float32).

Fixpoint spec_groups (s : spec_lanes) (cells : list (option float32)) {struct cells}
  : spec_lanes * list (option float32) :=
  match s, cells with
  | SpecLanes s0 s1 s2 s3 s4 s5 s6 s7,
    c0 :: c1 :: c2 :: c3 :: c4 :: c5 :: c6 :: c7 :: t =>
      spec_groups
        (SpecLanes (spec_plus s0 c0) (spec_plus s1 c1) (spec_plus s2 c2) (spec_plus s3 c3)
                   (spec_plus s4 c4) (spec_plus s5 c5) (spec_plus s6 c6) (spec_plus s7 c7)) t
  | _, _ => (s, cells)
  end.

Definition spec_run (cells : list (option float32)) : option float32 :=
  match cells with
  | c0 :: c1 :: c2 :: c3 :: c4 :: c5 :: c6 :: c7 :: t =>
      match spec_groups (SpecLanes c0 c1 c2 c3 c4 c5 c6 c7) t with
      | (SpecLanes s0 s1 s2 s3 s4 s5 s6 s7, rest) =>
          fold_left spec_plus rest
            (spec_plus (spec_plus (spec_plus s0 s1) (spec_plus s2 s3))
                       (spec_plus (spec_plus s4 s5) (spec_plus s6 s7)))
      end
  | _ => fold_left spec_plus cells None
  end.

Fixpoint spec_halves (depth : nat) (cells : list (option float32)) : option float32 :=
  match depth with
  | O => spec_run cells
  | S d =>
      let n := length cells in
      if (n <=? 128)%nat then spec_run cells
      else
        let n2 := (n / 2 - (n / 2) mod 8)%nat in
        spec_plus (spec_halves d (firstn n2 cells)) (spec_halves d (skipn n2 cells))
  end.

(** The sum of no cell is zero. *)
Definition spec_sum (cells : list (option float32)) : float32 :=
  match spec_halves (length cells) cells with
  | Some total => total
  | None => zero
  end.

(** The quotient of a binary32 total by a count: the binary64 quotient,
    rounded to binary32. *)
Definition spec_quotient (total : float32) (cnt : Z) : float32 :=
  of_f64 (SFdiv 53 1024 (F64.of_f32 total) (binary_normalize 53 1024 cnt 0 false)).

Definition spec_mean (cells : list (option float32)) : float32 :=
  spec_quotient (spec_sum cells) (spec_count cells).

(** The population standard deviation: the squared deviations of the valid
    cells from the mean are summed and divided by the number of valid
    cells, not by that number less one. *)
Definition spec_population_stddev (cells : list (option float32)) : float32 :=
  let avg := spec_mean cells in
  let squares := map (option_map (fun x => mul (sub x avg) (sub x avg))) cells in
  if spec_count cells =? 0 then nan
  else sqrt (spec_quotient (spec_sum squares) (spec_count cells)).

Definition spec_statistics (cells : list (option float32)) : Statistics :=
  {| data_min := spec_extremum least (present cells);
     data_max := spec_extremum greatest (present cells);
     data_mean := spec_mean cells;
     data_stddev := spec_population_stddev cells |}.

(** Two floats denote the same number: they are equal, or both are a
    zero (of either sign). *)
Definition same_number (x y : float32) : Prop :=
  x = y \/ exists s s', x = S754_zero s /\ y = S754_zero s'.

Definition same_statistics (a b : Statistics) : Prop :=
  data_min a = data_min b /\ data_max a = data_max b /\
  same_number (data_mean a) (data_mean b) /\
  same_number (data_stddev a) (data_stddev b).

(** ** Exact values and rounding

    Every finite binary32 value is an integer multiple of the smallest
    subnormal, 2^-149.  [ord] is that integer; the infinities sit at
    [cap] = 2^277, one step above every finite value, so that on valid
    floats that are numbers the IEEE order is the order of [ord]. *)

Definition cap : Z := 2 ^ 277.

Definition sgn (s : bool) (z : Z) : Z := if s then - z else z.

Definition ord (x : float32) : Z :=
  match x with
  | S754_zero _ => 0
  | S754_infinity s => sgn s cap
  | S754_nan => 0
  | S754_finite s m e => sgn s (Z.pos m * 2 ^ (e + 149))
  end.

Definition sign_of (x : float32) : bool :=
  match x with
  | S754_zero s | S754_infinity s | S754_finite s _ _ => s
  | S754_nan => false
  end.

(** The fraction [X / Y] rounded to the nearest integer, ties to even. *)
Definition rne (X Y : Z) : Z :=
  match 2 * (X mod Y) ?= Y with
  | Lt => X / Y
  | Eq => if Z.even (X / Y) then X / Y else X / Y + 1
  | Gt => X / Y + 1
  end.

(** A shift record holds the integer part of [X / Y], whether the
    fraction reaches one half, and whether it is off zero and one half. *)
Definition located (X Y : Z) (mrs : shr_record) : Prop :=
  shr_m mrs = X / Y /\
  shr_r mrs = (Y <=? 2 * (X mod Y)) /\
  shr_s mrs = negb ((X mod Y =? 0) || (2 * (X mod Y) =? Y)).

(** The exponent and the mantissa [binary_round_aux] settles on. *)
Definition round_exp (mx ex : Z) : Z := fexp prec emax (Zdigits2 mx + ex).
Definition round_mant (X Y mx ex : Z) : Z := rne X (Y * 2 ^ (round_exp mx ex - ex)).

(** The non-negative rational [A / B], counted in units of 2^-149, rounded
    to 24 significant bits; the result is again a count of such units. *)
Definition round_shift (A B : Z) : Z := Z.max (Zdigits2 (A / B) - 24) 0.
Definition round_units (A B : Z) : Z := rne A (B * 2 ^ round_shift A B) * 2 ^ round_shift A B.

Definition round_ord (s : bool) (A B : Z) : Z := sgn s (Z.min (round_units A B) cap).

(** Rounding of a signed integer count of units. *)
Definition round_int (D : Z) : Z := round_ord (D <? 0) (Z.abs D) 1.

(** The exponent the quotient of two mantissas is first computed at. *)
Definition div_exp (mx : positive) (ex : Z) (my : positive) (ey : Z) : Z :=
  Z.min (fexp prec emax (Zdigits2 (Z.pos mx) + ex - (Zdigits2 (Z.pos my) + ey))) (ex - ey).

(** ** The scaling branch in exact terms

    [unit_ord] is the float 1.0 counted in units of 2^-149.  The clip and
    the fallback leave in a cell the level [cell_level]; the product by 255
    and the cast then store [level_byte] of that level.  When the range
    [data_max - data_min] is a finite positive float of [R] units, a cell
    that lies [o] units above the minimum has the level [range_level R o]. *)

Definition unit_ord : Z := 2 ^ 149.

Definition cell_level (t : float32) : Z :=
  if is_nan t then 0 else Z.min (Z.max (ord t) 0) unit_ord.

Definition level_byte (L : Z) : Z := round_units (255 * L) 1 / unit_ord.

Definition range_level (R o : Z) : Z := Z.min (round_units (o * unit_ord) R) unit_ord.

(** The integer part of a rational, toward zero. *)
Definition Qtruncate (q : Q) : Z := if Qle_bool 0 q then Qfloor q else Qceiling q.

(** ** Well-formed inputs

    [spec_float] also has terms whose mantissa or exponent lies outside
    binary32; the cells of a band read with [astype(np.float32)] are
    binary32 values. *)

Definition all_valid (g : grid float32) : Prop :=
  Forall (Forall (fun x => valid x = true)) g.

(** ** Relations between grids and between lists *)

(** Two cells that are both invalid, or both valid and equal. *)
Definition same_valid_cell (nodata nodata' : option spec_float) (x y : float32) : Prop :=
  (is_valid_cell nodata x = false /\ is_valid_cell nodata' y = false) \/
  (is_valid_cell nodata x = true /\ is_valid_cell nodata' y = true /\ x = y).

(** A term of the sum of the source against a cell of the specification:
    the source adds a zero where the specification passes over an invalid
    cell, and the same number where the cell is valid. *)
Definition stands_for (x : float32) (c : option float32) : Prop :=
  match c with
  | Some v => same_number x v
  | None => exists s, x = S754_zero s
  end.

(** The cells of a working grid as the specification sees them: a NaN is
    an invalid cell. *)
Definition without_nan (l : list float32) : list (option float32) :=
  map (fun x => if is_number x then Some x else None) l.

Definition nan_statistics : Statistics :=
  {| data_min := nan; data_max := nan; data_mean := nan; data_stddev := nan |}.

(** ** Sample inputs *)

(** The largest finite binary32 value. *)
Definition max_float : float32 := S754_finite false 16777215 104.

Definition nodata_9999 : spec_float := F64.of_Z (-9999).
Definition nodata_32768 : spec_float := F64.of_Z (-32768).

Definition sample_grid : grid float32 := [[of_Z 1; of_Z 2]; [of_Z 3; of_Z 4]].
Definition five_grid : grid float32 := [[of_Z 5; of_Z 5]; [of_Z 5; of_Z 5]].
Definition holed_grid : grid float32 := [[of_Z 1; of_Z (-9999)]; [of_Z 3; of_Z 4]].
Definition holed_grid' : grid float32 := [[of_Z 1; of_Z (-32768)]; [of_Z 3; of_Z 4]].
Definition gappy_grid : grid float32 := [[of_Z 1; nan]; [of_Z 3; of_Z 4]].
Definition nodata_grid : grid float32 := [[of_Z (-9999); of_Z (-9999)]].
(** Sixteen cells, two of them invalid: long enough for the partial sums of
    [np.sum], with a cell large enough for the order of the additions to
    show. *)
Definition terrain_grid : grid float32 :=
  [[of_Z 100000000; of_Z 1; of_Z (-9999); of_Z 1];
   [of_Z 1; of_Z 4; of_Z 4; of_Z 4];
   [of_Z 4; of_Z (-9999); of_Z 2; of_Z 3];
   [of_Z 5; of_Z 6; of_Z 7; of_Z 8]].
Definition terrain_grid' : grid float32 :=
  [[of_Z 100000000; of_Z 1; of_Z (-32768); of_Z 1];
   [of_Z 1; of_Z 4; of_Z 4; of_Z 4];
   [of_Z 4; of_Z (-32768); of_Z 2; of_Z 3];
   [of_Z 5; of_Z 6; of_Z 7; of_Z 8]].
Definition terrain_gaps : grid float32 :=
  [[of_Z 100000000; of_Z 1; nan; of_Z 1];
   [of_Z 1; of_Z 4; of_Z 4; of_Z 4];
   [of_Z 4; nan; of_Z 2; of_Z 3];
   [of_Z 5; of_Z 6; of_Z 7; of_Z 8]].
Definition eight_cells : list float32 :=
  [of_Z 100000000; of_Z 1; of_Z 1; of_Z 1; of_Z 4; of_Z 4; of_Z 4; of_Z 4].
Definition wide_grid : grid float32 := [[SFopp max_float; max_float]].
Definition half_grid : grid float32 := [[zero; S754_finite false 8388608 (-24); one]].
Definition mixed_grid : grid float32 :=
  [[nan; S754_infinity false]; [S754_infinity true; of_Z 7]].

(** ** Tactics *)

Create HintDb floats.

Ltac same_number_cases H :=
  destruct H as [-> | (?s & ?s' & -> & ->)].

(** Case analysis on every sign in the context. *)
Ltac by_signs :=
  repeat match goal with b : bool |- _ => destruct b end;
  simpl; auto with floats.

(** Case analysis on the integer tests of the goal. *)
Ltac bool_cases :=
  repeat match goal with
         | |- context [Z.eqb ?a ?b] => destruct (Z.eqb_spec a b)
         | |- context [Z.leb ?a ?b] => destruct (Z.leb_spec a b)
         | |- context [Z.ltb ?a ?b] => destruct (Z.ltb_spec a b)
         end;
  cbn [negb orb andb]; try reflexivity; try (exfalso; lia).

(** A comparison that is stated with [?=] read as an inequality. *)
Ltac by_compare :=
  match goal with
  | |- (?a ?= ?b) = Lt => change (a < b)
  | |- (?a ?= ?b) = Gt => change (a > b)
  | |- Lt = (?a ?= ?b) => symmetry; change (a < b)
  | |- Gt = (?a ?= ?b) => symmetry; change (a > b)
  end.

(** ** Reading the band *)

(** A cell of the band as stored in the file: GeoTIFF samples are integers
    or floating-point numbers (a binary32 sample is held by the binary64
    value equal to it). *)
Inductive sample :=
| IntSample (z : Z)
| FloatSample (x : spec_float).

(** Line 18, [astype(np.float32)]: both casts round to nearest, ties to
    even. *)
Definition cast_float32 (c : sample) : float32 :=
  match c with
  | IntSample z => of_Z z
  | FloatSample x => of_f64 x
  end.

Definition astype_float32 (raw : grid sample) : grid float32 :=
  grid_map cast_float32 raw.

(** Lines 18 to 59: the computation on the band as read. *)
Definition convert_raster (raw : grid sample) (nodata_val : option spec_float)
  : outcome Heightmap :=
  convert_tiff_to_heightmap (astype_float32 raw) nodata_val.

(** Further sample inputs. *)
Definition int_raster : grid sample :=
  [[IntSample 100; IntSample (-9999)]; [IntSample 250; IntSample 175]].

Definition flat_raster : grid sample :=
  [[FloatSample (F64.of_Z 7); IntSample (-9999)]; [IntSample 7; IntSample 7]].

Definition zeros_grid : grid float32 :=
  [[S754_zero false; nan]; [S754_zero true; of_Z (-9999)]].

Definition void_grid : grid float32 :=
  [[nan; of_Z (-9999)]; [of_Z (-9999); nan]].

(** ** The script *)

(** What the run depends on outside the program: the raster a path holds
    (its first band as stored, with the no-data value of the dataset; no
    entry when [rasterio.open] or [read] fails), the paths an image can be
    saved to, and the text [str] gives for a binary32 scalar. *)
Record world := {
  dataset : string -> option (grid sample * option spec_float);
  save_ok : string -> bool;
  str : float32 -> string
}.

(** What the run does to the outside: the files it opens, the lines it
    writes to the standard output, the images it saves. *)
Inductive event :=
| Open (path : string)
| Print (line : string)
| Save (path : string) (image : grid Z).

Inductive error :=
| OpenFailed
| NumpyError (e : exn)
| SaveFailed.

Inductive status :=
| Returned
| SystemExit (code : Z)
| Uncaught (e : error).

(** The exit status of the interpreter. *)
Definition exit_code (s : status) : Z :=
  match s with
  | Returned => 0
  | SystemExit code => code
  | Uncaught _ => 1
  end.

Definition newline : string := String "010"%char EmptyString.

Definition header_line : string := "=== Data Statistics ===".
Definition footer_line : string := "=======================" ++ newline.
Definition warning_line : string :=
  "Warning: The valid data range is zero. " ++
  "All values are the same. Output will be a flat 128 grayscale.".
Definition usage_line : string :=
  "Usage: python process_tiff.py <input_tiff> <output_png>".
Definition saved_line (output_png : string) : string :=
  "Saved heightmap to " ++ output_png.

(** Lines 34 to 45: the statistics block and the warning of the flat case. *)
Definition report (w : world) (h : Heightmap) : list event :=
  [Print header_line;
   Print ("  Minimum Value: " ++ str w (data_min (stats h)));
   Print ("  Maximum Value: " ++ str w (data_max (stats h)));
   Print ("  Mean Value:    " ++ str w (data_mean (stats h)));
   Print ("  Std. Dev.:     " ++ str w (data_stddev (stats h)));
   Print ("  Elevation Range: " ++ str w (elevation_range h));
   Print footer_line]
  ++ (if flat_warning h then [Print warning_line] else []).

(** [convert_tiff_to_heightmap(input_tiff, output_png)] with its effects,
    in the order of the source: the file is opened and read, the statistics
    are computed (an empty band raises before anything is printed), the
    block is printed, the image is saved and the last line printed.  The
    warnings numpy sends to the standard error are not part of the trace. *)
Definition convert_file (w : world) (input_tiff output_png : string)
  : list event * status :=
  match dataset w input_tiff with
  | None => ([Open input_tiff], Uncaught OpenFailed)
  | Some (raw, nodata_val) =>
      match convert_raster raw nodata_val with
      | Raised e => ([Open input_tiff], Uncaught (NumpyError e))
      | Ok h =>
          if save_ok w output_png then
            ([Open input_tiff] ++ report w h ++
             [Save output_png (scaled h); Print (saved_line output_png)],
             Returned)
          else
            ([Open input_tiff] ++ report w h, Uncaught SaveFailed)
      end
  end.

(** The [__main__] block; [argv] is [sys.argv]. *)
Definition main (w : world) (argv : list string) : list event * status :=
  if Z.of_nat (List.length argv) <? 3 then
    ([Print usage_line], SystemExit 1)
  else
    convert_file w (nth 1 argv EmptyString) (nth 2 argv EmptyString).

Definition sample_world : world :=
  {| dataset := fun p => if String.eqb p "dem.tif"
                         then Some (int_raster, Some nodata_9999) else None;
     save_ok := fun p => String.eqb p "out.png";
     str := fun _ => "?"%string |}.

Definition flat_world : world :=
  {| dataset := fun p => if String.eqb p "dem.tif"
                         then Some (flat_raster, Some nodata_9999) else None;
     save_ok := fun p => String.eqb p "out.png";
     str := fun _ => "?"%string |}.

Definition sample_argv : list string :=
  ["process_tiff.py"; "dem.tif"; "out.png"]%string.

(** * Properties *)

(** ** Grids *)

Lemma ravel_grid_map {A B} (f : A -> B) (g : grid A) :
  ravel (grid_map f g) = map f (ravel g).
Proof.
  unfold ravel, grid_map. now rewrite concat_map.
Qed.

Lemma grid_map_grid_map {A B C} (f : A -> B) (h : B -> C) (g : grid A) :
  grid_map h (grid_map f g) = grid_map (fun x => h (f x)) g.
Proof.
  unfold grid_map. rewrite map_map. apply map_ext. intros r. apply map_map.
Qed.

Lemma grid_map_ext_in {A B} (f h : A -> B) (g : grid A) :
  (forall x, In x (ravel g) -> f x = h x) -> grid_map f g = grid_map h g.
Proof.
  unfold grid_map, ravel. induction g as [|r g IH]; simpl; intros H; [reflexivity|].
  f_equal.
  - apply map_ext_in. intros x Hx. apply H, in_or_app. now left.
  - apply IH. intros x Hx. apply H, in_or_app. now right.
Qed.

Lemma grid_map_shape {A B} (f : A -> B) (g : grid A) :
  map (@length B) (grid_map f g) = map (@length A) g.
Proof.
  unfold grid_map. rewrite map_map. apply map_ext. intros r. apply length_map.
Qed.

Lemma ravel_apply_nodata_nil nodata band :
  ravel band <> [] -> ravel (apply_nodata nodata band) <> [].
Proof.
  destruct nodata as [v|]; simpl; [|easy].
  unfold mask_nodata. rewrite ravel_grid_map.
  destruct (ravel band); simpl; congruence.
Qed.

(** In a grid, every cell of the image of [f] satisfies [P] as soon as
    [f] always lands in [P]. *)
Lemma Forall_grid_map {A B} (f : A -> B) (P : B -> Prop) (g : grid A) :
  (forall x, P (f x)) -> Forall (Forall P) (grid_map f g).
Proof.
  intros H. unfold grid_map. apply Forall_map, Forall_forall. intros r _.
  apply Forall_map, Forall_forall. intros x _. apply H.
Qed.

(** ** Totality of the statistics on a non-empty grid *)

Lemma statistics_total data :
  ravel data <> [] ->
  exists st, statistics data = Ok st.
Proof.
  intros H. unfold statistics, nanmin, nanmax, reduce.
  destruct (ravel data) as [|x t]; [congruence|]. simpl. eauto.
Qed.

Lemma convert_unfold band nodata st :
  statistics (apply_nodata nodata band) = Ok st ->
  convert_tiff_to_heightmap band nodata =
  Ok {| stats := st;
        elevation_range := sub (data_max st) (data_min st);
        flat_warning := isclose (data_min st) (data_max st);
        scaled := if isclose (data_min st) (data_max st)
                  then grid_map (fun _ => 128) (apply_nodata nodata band)
                  else grid_map (scale_cell (data_min st) (data_max st))
                                (apply_nodata nodata band) |}.
Proof.
  intros H. unfold convert_tiff_to_heightmap. rewrite H. simpl.
  now destruct (isclose (data_min st) (data_max st)).
Qed.

Lemma apply_nodata_shape nodata band :
  map (@length float32) (apply_nodata nodata band) = map (@length float32) band.
Proof.
  destruct nodata; simpl; [apply grid_map_shape | reflexivity].
Qed.

Lemma grid_map_const_apply_nodata {B} (c : B) nodata band :
  grid_map (fun _ => c) (apply_nodata nodata band) = grid_map (fun _ => c) band.
Proof.
  destruct nodata; simpl; [|reflexivity].
  unfold mask_nodata. now rewrite grid_map_grid_map.
Qed.

(** ** The degenerate range *)

(** C2: when the minimum and the maximum of the valid cells are close in
    the sense of [np.isclose], the scaling is skipped, the warning is
    issued and every cell of the output, valid or not, is 128. *)
Theorem degenerate_range_is_flat_gray band nodata st :
  statistics (apply_nodata nodata band) = Ok st ->
  isclose (data_min st) (data_max st) = true ->
  exists h, convert_tiff_to_heightmap band nodata = Ok h /\
            stats h = st /\
            flat_warning h = true /\
            scaled h = grid_map (fun _ => 128) band /\
            Forall (Forall (fun c => c = 128)) (scaled h).
Proof.
  intros Hst Hclose. rewrite (convert_unfold _ _ _ Hst), Hclose.
  eexists. split; [reflexivity|]. simpl.
  rewrite grid_map_const_apply_nodata. repeat split.
  now apply Forall_grid_map.
Qed.

Lemma degenerate_range_is_flat_gray_witness :
  exists st,
    statistics (apply_nodata None five_grid) = Ok st /\
    isclose (data_min st) (data_max st) = true /\
    exists h, convert_tiff_to_heightmap five_grid None = Ok h /\
              stats h = st /\
              flat_warning h = true /\
              scaled h = grid_map (fun _ => 128) five_grid /\
              Forall (Forall (fun c => c = 128)) (scaled h).
Proof.
  eexists. split; [vm_compute; reflexivity|]. split; [vm_compute; reflexivity|].
  apply (degenerate_range_is_flat_gray five_grid None); vm_compute; reflexivity.
Defined.

(** ** A grid without any valid cell *)

Lemma fold_fmin_nan (l : list float32) :
  Forall (fun x => x = nan) l -> fold_left fmin l nan = nan.
Proof.
  induction 1 as [|x l Hx _ IH]; simpl; [reflexivity|]. now subst x.
Qed.

Lemma fold_fmax_nan (l : list float32) :
  Forall (fun x => x = nan) l -> fold_left fmax l nan = nan.
Proof.
  induction 1 as [|x l Hx _ IH]; simpl; [reflexivity|]. now subst x.
Qed.

(** Lists are consumed by the unrolled loop eight cells at a time. *)
Lemma list_ind8 {A} (P : list A -> Prop) :
  (forall l, (length l < 8)%nat -> P l) ->
  (forall a0 a1 a2 a3 a4 a5 a6 a7 t, P t ->
     P (a0 :: a1 :: a2 :: a3 :: a4 :: a5 :: a6 :: a7 :: t)) ->
  forall l, P l.
Proof.
  intros Hshort Hstep l.
  assert (H : forall n l, (length l <= n)%nat -> P l).
  { clear l. induction n as [|n IH]; intros l Hl.
    - apply Hshort. lia.
    - destruct l as [|a0 [|a1 [|a2 [|a3 [|a4 [|a5 [|a6 [|a7 t]]]]]]]];
        try (apply Hshort; simpl; lia).
      apply Hstep, IH. simpl in Hl. lia. }
  now apply (H (length l)).
Qed.

Lemma unrolled_loop_short r l :
  (length l < 8)%nat -> unrolled_loop r l = (r, l).
Proof.
  intros H. destruct r.
  destruct l as [|a0 [|a1 [|a2 [|a3 [|a4 [|a5 [|a6 [|a7 t]]]]]]]]; try reflexivity.
  simpl in H. lia.
Qed.

Lemma pairwise_block_short l :
  (length l < 8)%nat -> pairwise_block l = fold_left add l (S754_zero true).
Proof.
  intros H.
  destruct l as [|a0 [|a1 [|a2 [|a3 [|a4 [|a5 [|a6 [|a7 t]]]]]]]]; try reflexivity.
  simpl in H. lia.
Qed.

Lemma Forall_firstn {A} (P : A -> Prop) n : forall l, Forall P l -> Forall P (firstn n l).
Proof.
  induction n as [|n IH]; intros l H; [constructor|].
  destruct H; simpl; constructor; auto.
Qed.

Lemma Forall_skipn {A} (P : A -> Prop) n : forall l, Forall P l -> Forall P (skipn n l).
Proof.
  induction n as [|n IH]; intros l H; [exact H|].
  destruct H; simpl; [constructor | auto].
Qed.

(** ** What every partial sum satisfies *)

Section Closed.
Variable P : float32 -> Prop.
Hypothesis P_seed : P (S754_zero true).
Hypothesis P_add : forall a b, P a -> P b -> P (add a b).

Lemma fold_add_closed l : forall a, P a -> Forall P l -> P (fold_left add l a).
Proof.
  induction l as [|x l IH]; intros a Ha Hl; [exact Ha|].
  inversion Hl; subst. simpl. apply IH; auto.
Qed.

Lemma unrolled_loop_closed l :
  forall r0 r1 r2 r3 r4 r5 r6 r7,
    P r0 -> P r1 -> P r2 -> P r3 -> P r4 -> P r5 -> P r6 -> P r7 ->
    Forall P l ->
    match unrolled_loop (Lanes r0 r1 r2 r3 r4 r5 r6 r7) l with
    | (Lanes q0 q1 q2 q3 q4 q5 q6 q7, rest) =>
        P q0 /\ P q1 /\ P q2 /\ P q3 /\ P q4 /\ P q5 /\ P q6 /\ P q7 /\ Forall P rest
    end.
Proof.
  induction l as [l Hl|a0 a1 a2 a3 a4 a5 a6 a7 t IH] using list_ind8; intros.
  - rewrite unrolled_loop_short by exact Hl. tauto.
  - repeat match goal with H : Forall P (_ :: _) |- _ => inversion H; clear H; subst end.
    cbn [unrolled_loop]. apply IH; auto.
Qed.

Lemma pairwise_block_closed l : Forall P l -> P (pairwise_block l).
Proof.
  intros Hl.
  destruct (Nat.lt_ge_cases (length l) 8) as [Hs|Hs].
  - rewrite pairwise_block_short by exact Hs. now apply fold_add_closed.
  - destruct l as [|a0 [|a1 [|a2 [|a3 [|a4 [|a5 [|a6 [|a7 t]]]]]]]];
      try (simpl in Hs; lia).
    repeat match goal with H : Forall P (_ :: _) |- _ => inversion H; clear H; subst end.
    cbn [pairwise_block].
    pose proof (unrolled_loop_closed t a0 a1 a2 a3 a4 a5 a6 a7) as H.
    destruct (unrolled_loop (Lanes a0 a1 a2 a3 a4 a5 a6 a7) t) as [[q0 q1 q2 q3 q4 q5 q6 q7] rest].
    destruct H as (? & ? & ? & ? & ? & ? & ? & ? & ?); auto.
    apply fold_add_closed; auto.
Qed.

Lemma pairwise_sum_upto_closed d : forall l, Forall P l -> P (pairwise_sum_upto d l).
Proof.
  induction d as [|d IH]; intros l Hl; cbn [pairwise_sum_upto].
  - now apply pairwise_block_closed.
  - destruct (length l <=? PW_BLOCKSIZE)%nat; [now apply pairwise_block_closed|].
    apply P_add; apply IH; [now apply Forall_firstn | now apply Forall_skipn].
Qed.

Lemma pairwise_sum_closed l : Forall P l -> P (pairwise_sum l).
Proof. apply pairwise_sum_upto_closed. Qed.

End Closed.

(** The depth given to the recursion is enough: the sum satisfies the
    equation of the C function. *)
Lemma pairwise_sum_upto_enough d : forall d' l,
  (length l <= d)%nat -> (length l <= d')%nat ->
  pairwise_sum_upto d l = pairwise_sum_upto d' l.
Proof.
  unfold PW_BLOCKSIZE.
  induction d as [|d IH]; intros d' l Hd Hd'.
  - destruct l; [|simpl in Hd; lia]. now destruct d'.
  - cbn [pairwise_sum_upto]. unfold PW_BLOCKSIZE.
    destruct (Nat.leb_spec (length l) 128) as [Hn|Hn].
    + destruct d'; cbn [pairwise_sum_upto]; unfold PW_BLOCKSIZE; [reflexivity|].
      destruct (Nat.leb_spec (length l) 128); [reflexivity|lia].
    + destruct d' as [|d']; [lia|]. cbn [pairwise_sum_upto]. unfold PW_BLOCKSIZE.
      destruct (Nat.leb_spec (length l) 128); [lia|].
      pose proof (Nat.Div0.div_le_upper_bound (length l) 2 (length l)) as Hh.
      assert (H2 : (length l / 2 <= length l - 65)%nat).
      { pose proof (Nat.div_mod_eq (length l) 2).
        pose proof (Nat.mod_upper_bound (length l) 2). lia. }
      assert (H8 : ((length l / 2) mod 8 < 8)%nat) by (apply Nat.mod_upper_bound; lia).
      assert (Hm : ((length l / 2) mod 8 <= length l / 2)%nat) by (apply Nat.Div0.mod_le).
      assert (H64 : (64 <= length l / 2)%nat).
      { pose proof (Nat.div_mod_eq (length l) 2).
        pose proof (Nat.mod_upper_bound (length l) 2). lia. }
      f_equal; apply IH; rewrite ?length_firstn, ?length_skipn; lia.
Qed.

Lemma pairwise_sum_unfold l :
  pairwise_sum l =
  if (length l <=? PW_BLOCKSIZE)%nat then pairwise_block l
  else
    let n2 := (length l / 2 - (length l / 2) mod 8)%nat in
    add (pairwise_sum (firstn n2 l)) (pairwise_sum (skipn n2 l)).
Proof.
  unfold pairwise_sum at 1. destruct l as [|x l]; [reflexivity|].
  cbn [length pairwise_sum_upto]. fold (length (x :: l)).
  change (S (length l)) with (length (x :: l)).
  destruct (Nat.leb_spec (length (x :: l)) PW_BLOCKSIZE) as [Hn|Hn]; [reflexivity|].
  unfold PW_BLOCKSIZE in Hn. cbv zeta.
  set (n := length (x :: l)) in *.
  assert (H2 : (n / 2 <= n - 65)%nat).
  { pose proof (Nat.div_mod_eq n 2). pose proof (Nat.mod_upper_bound n 2). lia. }
  assert (H64 : (64 <= n / 2)%nat).
  { pose proof (Nat.div_mod_eq n 2). pose proof (Nat.mod_upper_bound n 2). lia. }
  assert (H8 : ((n / 2) mod 8 < 8)%nat) by (apply Nat.mod_upper_bound; lia).
  assert (Hm : ((n / 2) mod 8 <= n / 2)%nat) by (apply Nat.Div0.mod_le).
  assert (Hl : length l = (n - 1)%nat) by (subst n; simpl; lia).
  unfold pairwise_sum.
  f_equal; apply pairwise_sum_upto_enough;
    rewrite ?length_firstn, ?length_skipn; fold n; lia.
Qed.

Lemma add_zeros a b :
  stands_for a None -> stands_for b None -> stands_for (add a b) None.
Proof.
  intros [sa ->] [sb ->]. destruct sa, sb; simpl; eauto.
Qed.

Lemma add_zero_stands x : stands_for x None -> add zero x = zero.
Proof. intros [s ->]. now destruct s. Qed.

Lemma np_sum_zeros (l : list float32) :
  Forall (fun x => x = zero) l -> np_sum l = zero.
Proof.
  intros H. unfold np_sum. apply add_zero_stands.
  apply (pairwise_sum_closed (fun x => stands_for x None)).
  - now exists true.
  - apply add_zeros.
  - eapply Forall_impl; [|exact H]. intros x ->. now exists false.
Qed.

Lemma count_valid_all_nan (l : list float32) :
  Forall (fun x => x = nan) l -> count_valid l = 0.
Proof.
  unfold count_valid. induction 1 as [|x l Hx _ IH]; simpl; [reflexivity|].
  now subst x.
Qed.

Lemma replace_nan_all_nan (l : list float32) :
  Forall (fun x => x = nan) l -> Forall (fun x => x = zero) (replace_nan l).
Proof.
  unfold replace_nan. intros H. apply Forall_map.
  eapply Forall_impl; [|exact H]. now intros x ->.
Qed.

Lemma statistics_all_nan data :
  ravel data <> [] ->
  Forall (fun x => x = nan) (ravel data) ->
  statistics data = Ok nan_statistics.
Proof.
  intros Hne Hall. unfold statistics, nanmin, nanmax, reduce, nanmean, nanstd, nanvar.
  rewrite (count_valid_all_nan _ Hall), (np_sum_zeros _ (replace_nan_all_nan _ Hall)).
  destruct (ravel data) as [|x t]; [congruence|].
  inversion Hall as [|? ? Hx Ht]; subst. simpl bind.
  now rewrite (fold_fmin_nan _ Ht), (fold_fmax_nan _ Ht).
Qed.

Lemma mask_nodata_all_nodata band v :
  Forall (Forall (fun x => eqb x (of_f64 v) = true)) band ->
  mask_nodata v band = grid_map (fun _ => nan) band.
Proof.
  intros H. unfold mask_nodata. apply grid_map_ext_in. intros x Hx.
  unfold ravel in Hx. apply in_concat in Hx. destruct Hx as [r [Hr Hx]].
  rewrite Forall_forall in H. specialize (H r Hr).
  rewrite Forall_forall in H. now rewrite (H x Hx).
Qed.

(** C9: when every cell equals the sentinel, the masked grid is all NaN,
    the four statistics are NaN, [isclose] of the two NaN bounds is false,
    the scaling branch runs (no warning) and every output cell is 0. *)
Theorem all_nodata_grid_is_black band v :
  ravel band <> [] ->
  Forall (Forall (fun x => eqb x (of_f64 v) = true)) band ->
  apply_nodata (Some v) band = grid_map (fun _ => nan) band /\
  statistics (apply_nodata (Some v) band) = Ok nan_statistics /\
  isclose nan nan = false /\
  convert_tiff_to_heightmap band (Some v) =
    Ok {| stats := nan_statistics; elevation_range := nan;
          flat_warning := false; scaled := grid_map (fun _ => 0) band |}.
Proof.
  intros Hne Hall.
  assert (Hmask : apply_nodata (Some v) band = grid_map (fun _ => nan) band)
    by (apply mask_nodata_all_nodata; exact Hall).
  assert (Hst : statistics (apply_nodata (Some v) band) = Ok nan_statistics).
  { apply statistics_all_nan.
    - now apply ravel_apply_nodata_nil.
    - rewrite Hmask, ravel_grid_map. apply Forall_map, Forall_forall. easy. }
  repeat split; try assumption.
  rewrite (convert_unfold _ _ _ Hst), Hmask, !grid_map_grid_map. reflexivity.
Qed.

Lemma all_nodata_grid_is_black_witness :
  apply_nodata (Some nodata_9999) nodata_grid = grid_map (fun _ => nan) nodata_grid /\
  statistics (apply_nodata (Some nodata_9999) nodata_grid) = Ok nan_statistics /\
  isclose nan nan = false /\
  convert_tiff_to_heightmap nodata_grid (Some nodata_9999) =
    Ok {| stats := nan_statistics; elevation_range := nan;
          flat_warning := false; scaled := grid_map (fun _ => 0) nodata_grid |}.
Proof.
  apply (all_nodata_grid_is_black nodata_grid nodata_9999).
  - discriminate.
  - repeat constructor.
Defined.

(** ** The first scenario of the specification *)

(** C7: on the grid [[1,2],[3,4]] without sentinel the minimum is 1, the
    maximum 4, the mean 2.5, the population standard deviation is 1.118 to
    three decimals, and the output grid is [[0,85],[170,255]]. *)
Theorem sample_grid_result :
  exists h mean sd,
    convert_tiff_to_heightmap sample_grid None = Ok h /\
    data_min (stats h) = of_Z 1 /\
    data_max (stats h) = of_Z 4 /\
    to_Q (data_mean (stats h)) = Some mean /\ (mean == 5 # 2)%Q /\
    to_Q (data_stddev (stats h)) = Some sd /\
    (11175 # 10000 < sd)%Q /\ (sd < 11185 # 10000)%Q /\
    flat_warning h = false /\
    scaled h = [[0; 85]; [170; 255]].
Proof.
  do 3 eexists. split; [vm_compute; reflexivity|].
  repeat split; vm_compute; reflexivity.
Qed.

(** ** The statistics skip the invalid cells *)

Lemma same_number_refl x : same_number x x.
Proof. now left. Qed.

Lemma same_number_zeros s s' : same_number (S754_zero s) (S754_zero s').
Proof. right. now exists s, s'. Qed.

Lemma same_number_trans x y z :
  same_number x y -> same_number y z -> same_number x z.
Proof.
  intros [-> | (s & s' & -> & ->)] H; [exact H|].
  destruct H as [<- | (t & t' & _ & ->)]; right; eauto.
Qed.

#[local] Hint Resolve same_number_refl same_number_zeros : floats.

Lemma same_number_add a a' b b' :
  same_number a a' -> same_number b b' -> same_number (add a b) (add a' b').
Proof.
  intros Ha Hb. same_number_cases Ha; same_number_cases Hb; auto with floats.
  - destruct a' as [sa|sa| |sa ma ea]; by_signs.
  - destruct b' as [sb|sb| |sb mb eb]; by_signs.
  - by_signs.
Qed.

Lemma same_number_add_zero a : same_number (add a zero) a.
Proof.
  destruct a as [sa|sa| |sa ma ea]; by_signs.
Qed.

Lemma same_number_sub_r x a a' :
  same_number a a' -> same_number (sub x a) (sub x a').
Proof.
  intros Ha. same_number_cases Ha; auto with floats.
  destruct x as [sx|sx| |sx mx ex]; by_signs.
Qed.

Lemma same_number_square d d' :
  same_number d d' -> same_number (mul d d) (mul d' d').
Proof.
  intros Hd. same_number_cases Hd; simpl; auto with floats.
Qed.

Lemma same_number_sqrt a a' :
  same_number a a' -> same_number (sqrt a) (sqrt a').
Proof.
  intros Ha. same_number_cases Ha; simpl; auto with floats.
Qed.

Lemma same_number_divide_by_count a a' cnt :
  same_number a a' ->
  same_number (divide_by_count a cnt) (divide_by_count a' cnt).
Proof.
  intros Ha. same_number_cases Ha; auto with floats.
  unfold divide_by_count. simpl F64.of_f32.
  destruct (F64.of_Z cnt) as [sc|sc| |sc mc ec]; simpl; auto with floats.
Qed.

(** *** The sums *)

Lemma stands_for_add a b ca cb :
  stands_for a ca -> stands_for b cb -> stands_for (add a b) (spec_plus ca cb).
Proof.
  destruct ca as [va|], cb as [vb|]; cbn [stands_for spec_plus]; intros Ha Hb.
  - now apply same_number_add.
  - destruct Hb as [s ->]. same_number_cases Ha; [|by_signs].
    destruct va as [sa|sa| |sa ma ea]; by_signs.
  - destruct Ha as [s ->]. same_number_cases Hb; [|by_signs].
    destruct vb as [sb|sb| |sb mb eb]; by_signs.
  - now apply add_zeros.
Qed.

Lemma fold_add_stands l : forall l' a ca,
  Forall2 stands_for l l' -> stands_for a ca ->
  stands_for (fold_left add l a) (fold_left spec_plus l' ca).
Proof.
  induction l as [|x l IH]; intros l' a ca Hl Ha; inversion Hl; subst; simpl.
  - exact Ha.
  - apply IH; [assumption|]. now apply stands_for_add.
Qed.

Lemma spec_groups_short s cells :
  (length cells < 8)%nat -> spec_groups s cells = (s, cells).
Proof.
  intros H. destruct s.
  destruct cells as [|a0 [|a1 [|a2 [|a3 [|a4 [|a5 [|a6 [|a7 t]]]]]]]]; try reflexivity.
  simpl in H. lia.
Qed.

Lemma spec_run_short cells :
  (length cells < 8)%nat -> spec_run cells = fold_left spec_plus cells None.
Proof.
  intros H.
  destruct cells as [|a0 [|a1 [|a2 [|a3 [|a4 [|a5 [|a6 [|a7 t]]]]]]]]; try reflexivity.
  simpl in H. lia.
Qed.

(** On a run shorter than eight cells the specification's sum is the sum
    of the valid cells, one after the other. *)
Lemma fold_spec_plus cells : forall acc,
  fold_left spec_plus cells acc =
  match acc, present cells with
  | Some a, t => Some (fold_left add t a)
  | None, [] => None
  | None, x :: t => Some (fold_left add t x)
  end.
Proof.
  unfold present.
  induction cells as [|c cells IH]; intros acc; simpl.
  - now destruct acc.
  - rewrite IH. destruct acc as [a|], c as [x|]; reflexivity.
Qed.

Lemma spec_sum_short cells :
  (length cells < 8)%nat ->
  spec_sum cells = match present cells with
                   | [] => zero
                   | x :: t => fold_left add t x
                   end.
Proof.
  intros H. unfold spec_sum.
  replace (spec_halves (length cells) cells) with (spec_run cells).
  - rewrite spec_run_short, fold_spec_plus by exact H. now destruct (present cells).
  - destruct (length cells) eqn:E; cbn [spec_halves]; [reflexivity|].
    rewrite E. destruct (Nat.leb_spec (S n) 128); [reflexivity|lia].
Qed.

Ltac invert_Forall2 :=
  repeat match goal with
         | H : Forall2 _ (_ :: _) _ |- _ => inversion H; clear H; subst
         end.

Lemma unrolled_loop_stands l :
  forall l' r0 r1 r2 r3 r4 r5 r6 r7 s0 s1 s2 s3 s4 s5 s6 s7,
    stands_for r0 s0 -> stands_for r1 s1 -> stands_for r2 s2 -> stands_for r3 s3 ->
    stands_for r4 s4 -> stands_for r5 s5 -> stands_for r6 s6 -> stands_for r7 s7 ->
    Forall2 stands_for l l' ->
    match unrolled_loop (Lanes r0 r1 r2 r3 r4 r5 r6 r7) l,
          spec_groups (SpecLanes s0 s1 s2 s3 s4 s5 s6 s7) l' with
    | (Lanes q0 q1 q2 q3 q4 q5 q6 q7, rest), (SpecLanes t0 t1 t2 t3 t4 t5 t6 t7, rest') =>
        stands_for q0 t0 /\ stands_for q1 t1 /\ stands_for q2 t2 /\ stands_for q3 t3 /\
        stands_for q4 t4 /\ stands_for q5 t5 /\ stands_for q6 t6 /\ stands_for q7 t7 /\
        Forall2 stands_for rest rest'
    end.
Proof.
  induction l as [l Hl|a0 a1 a2 a3 a4 a5 a6 a7 t IH] using list_ind8; intros.
  - rewrite unrolled_loop_short by exact Hl.
    rewrite spec_groups_short
      by (match goal with H : Forall2 _ l _ |- _ =>
            rewrite <- (Forall2_length H) end; exact Hl).
    tauto.
  - invert_Forall2. cbn [unrolled_loop spec_groups].
    apply IH; auto using stands_for_add.
Qed.

Lemma pairwise_block_stands l l' :
  Forall2 stands_for l l' -> stands_for (pairwise_block l) (spec_run l').
Proof.
  intros H. pose proof (Forall2_length H) as Hlen.
  destruct (Nat.lt_ge_cases (length l) 8) as [Hs|Hs].
  - rewrite pairwise_block_short, spec_run_short by lia.
    apply fold_add_stands; [exact H|]. now exists true.
  - destruct l as [|a0 [|a1 [|a2 [|a3 [|a4 [|a5 [|a6 [|a7 t]]]]]]]];
      try (simpl in Hs; lia).
    invert_Forall2. cbn [pairwise_block spec_run].
    match goal with
    | |- context [unrolled_loop ?r t] =>
        match goal with
        | |- context [spec_groups ?s ?t'] =>
            pose proof (unrolled_loop_stands t t' a0 a1 a2 a3 a4 a5 a6 a7) as Hloop;
            destruct (unrolled_loop r t) as [[q0 q1 q2 q3 q4 q5 q6 q7] rest]
        end
    end.
    match goal with
    | |- context [spec_groups (SpecLanes ?c0 ?c1 ?c2 ?c3 ?c4 ?c5 ?c6 ?c7) ?t'] =>
        specialize (Hloop c0 c1 c2 c3 c4 c5 c6 c7);
        destruct (spec_groups (SpecLanes c0 c1 c2 c3 c4 c5 c6 c7) t')
          as [[t0 t1 t2 t3 t4 t5 t6 t7] rest']
    end.
    destruct Hloop as (? & ? & ? & ? & ? & ? & ? & ? & ?); auto.
    apply fold_add_stands; auto using stands_for_add.
Qed.

Lemma Forall2_firstn {A B} (R : A -> B -> Prop) n : forall l l',
  Forall2 R l l' -> Forall2 R (firstn n l) (firstn n l').
Proof.
  induction n as [|n IH]; intros l l' H; [constructor|].
  destruct H; simpl; constructor; auto.
Qed.

Lemma Forall2_skipn {A B} (R : A -> B -> Prop) n : forall l l',
  Forall2 R l l' -> Forall2 R (skipn n l) (skipn n l').
Proof.
  induction n as [|n IH]; intros l l' H; [exact H|].
  destruct H; simpl; [constructor | auto].
Qed.

Lemma pairwise_sum_upto_stands d : forall l l',
  Forall2 stands_for l l' ->
  stands_for (pairwise_sum_upto d l) (spec_halves d l').
Proof.
  induction d as [|d IH]; intros l l' H; cbn [pairwise_sum_upto spec_halves].
  - now apply pairwise_block_stands.
  - rewrite <- (Forall2_length H). unfold PW_BLOCKSIZE.
    destruct (length l <=? 128)%nat; [now apply pairwise_block_stands|].
    apply stands_for_add; apply IH;
      [now apply Forall2_firstn | now apply Forall2_skipn].
Qed.

(** The total of the source, zeros added in the place of the invalid
    cells, is the specification's sum of the valid cells. *)
Lemma np_sum_stands l l' :
  Forall2 stands_for l l' -> same_number (np_sum l) (spec_sum l').
Proof.
  intros H. unfold np_sum, spec_sum, pairwise_sum.
  pose proof (pairwise_sum_upto_stands (length l) l l' H) as Hs.
  rewrite <- (Forall2_length H).
  destruct (spec_halves (length l) l') as [v|]; cbn [stands_for] in Hs.
  - same_number_cases Hs.
    + destruct v as [s|s| |s m e]; by_signs; unfold zero; auto with floats.
    + by_signs; unfold zero; auto with floats.
  - rewrite (add_zero_stands _ Hs). auto with floats.
Qed.

Lemma replace_nan_stands l : Forall2 stands_for (replace_nan l) (without_nan l).
Proof.
  unfold replace_nan, without_nan, is_number.
  induction l as [|x l IH]; simpl; constructor; [|exact IH].
  destruct (is_nan x); simpl; [now exists false | auto with floats].
Qed.

Lemma squares_stand l avg avg' :
  same_number avg avg' ->
  Forall2 stands_for
    (map (fun d => mul d d) (map (fun x => if is_nan x then zero else sub x avg) l))
    (map (option_map (fun x => mul (sub x avg') (sub x avg'))) (without_nan l)).
Proof.
  intros Ha. unfold without_nan, is_number.
  induction l as [|x l IH]; simpl; constructor; [|exact IH].
  destruct (is_nan x); simpl; [now exists false|].
  now apply same_number_square, same_number_sub_r.
Qed.

Lemma present_without_nan l : present (without_nan l) = filter is_number l.
Proof.
  unfold present, without_nan.
  induction l as [|x l IH]; simpl; [reflexivity|].
  destruct (is_number x); simpl; now rewrite IH.
Qed.

Lemma spec_count_without_nan l : spec_count (without_nan l) = count_valid l.
Proof. unfold spec_count, count_valid. now rewrite present_without_nan. Qed.

Lemma spec_quotient_eq total cnt : spec_quotient total cnt = divide_by_count total cnt.
Proof. reflexivity. Qed.

(** [nanmin] and [nanmax]. *)
Lemma fold_fmin_filter l : forall a,
  fold_left fmin l a = fold_left least (filter is_number l) a.
Proof.
  induction l as [|x l IH]; intros a; simpl; [reflexivity|].
  unfold is_number at 1, fmin at 2. destruct x; simpl; rewrite ?orb_true_r, ?orb_false_r;
    solve [apply IH].
Qed.

Lemma fold_fmax_filter l : forall a,
  fold_left fmax l a = fold_left greatest (filter is_number l) a.
Proof.
  induction l as [|x l IH]; intros a; simpl; [reflexivity|].
  unfold is_number at 1, fmax at 2. destruct x; simpl; rewrite ?orb_true_r, ?orb_false_r;
    solve [apply IH].
Qed.

Lemma reduce_fmin_filter x t :
  fold_left fmin t x = spec_extremum least (filter is_number (x :: t)).
Proof.
  rewrite fold_fmin_filter. simpl. unfold is_number at 2.
  destruct x; simpl; try reflexivity.
  destruct (filter is_number t) as [|y t']; simpl; [reflexivity|].
  f_equal.
Qed.

Lemma reduce_fmax_filter x t :
  fold_left fmax t x = spec_extremum greatest (filter is_number (x :: t)).
Proof.
  rewrite fold_fmax_filter. simpl. unfold is_number at 2.
  destruct x; simpl; try reflexivity.
  destruct (filter is_number t) as [|y t']; simpl; [reflexivity|].
  f_equal. unfold greatest. now destruct y.
Qed.

Lemma nanmean_spec l :
  same_number (nanmean l) (spec_mean (without_nan l)).
Proof.
  unfold nanmean, spec_mean. rewrite spec_count_without_nan.
  change spec_quotient with divide_by_count.
  apply same_number_divide_by_count, np_sum_stands, replace_nan_stands.
Qed.

Lemma nanstd_spec l :
  same_number (nanstd l) (spec_population_stddev (without_nan l)).
Proof.
  unfold nanstd, nanvar, spec_population_stddev.
  pose proof (nanmean_spec l) as Hm. unfold nanmean in Hm.
  rewrite spec_count_without_nan. change spec_quotient with divide_by_count in *.
  assert (Hc : 0 <= count_valid l) by (unfold count_valid; lia).
  destruct (Z.eqb_spec (count_valid l) 0) as [E|E].
  - rewrite E. simpl. auto with floats.
  - replace (count_valid l <=? 0) with false by (symmetry; apply Z.leb_gt; lia).
    apply same_number_sqrt, same_number_divide_by_count, np_sum_stands.
    apply squares_stand. exact Hm.
Qed.

(** The statistics of the source are those of the specification on the
    cells of the working grid that are numbers. *)
Lemma statistics_spec data :
  ravel data <> [] ->
  exists st, statistics data = Ok st /\
             same_statistics st (spec_statistics (without_nan (ravel data))).
Proof.
  intros Hne. unfold statistics, nanmin, nanmax, reduce.
  destruct (ravel data) as [|x t] eqn:E; [congruence|]. simpl bind.
  eexists. split; [reflexivity|]. unfold same_statistics, spec_statistics.
  cbn [data_min data_max data_mean data_stddev]. rewrite present_without_nan.
  repeat split.
  - apply reduce_fmin_filter.
  - apply reduce_fmax_filter.
  - apply nanmean_spec.
  - apply nanstd_spec.
Qed.

Lemma filter_is_number_masked nodata band :
  filter is_number (ravel (apply_nodata nodata band)) = valid_cells nodata band.
Proof.
  unfold valid_cells. destruct nodata as [v|]; simpl.
  - unfold mask_nodata. rewrite ravel_grid_map.
    induction (ravel band) as [|x l IH]; simpl; [reflexivity|].
    unfold is_valid_cell at 1.
    destruct (eqb x (of_f64 v)); simpl.
    + now rewrite andb_false_r.
    + rewrite andb_true_r. destruct (is_number x); simpl; now rewrite IH.
  - apply filter_ext. intros x. unfold is_valid_cell, is_number. now rewrite andb_true_r.
Qed.

Lemma apply_nodata_cells nodata band :
  apply_nodata nodata band =
  grid_map (fun x => if is_valid_cell nodata x then x else nan) band.
Proof.
  destruct nodata as [v|]; simpl.
  - unfold mask_nodata. apply grid_map_ext_in. intros x _. unfold is_valid_cell.
    destruct (eqb x (of_f64 v)); simpl; [now rewrite andb_false_r|].
    now destruct x.
  - unfold grid_map. rewrite <- (map_id band) at 1. apply map_ext. intros r.
    rewrite <- (map_id r) at 1. apply map_ext. intros x. now destruct x.
Qed.

Lemma grid_map_Forall2 {A B C} (R : A -> B -> Prop) (f : A -> C) (h : B -> C) g g' :
  Forall2 (Forall2 R) g g' ->
  (forall x y, R x y -> f x = h y) ->
  grid_map f g = grid_map h g'.
Proof.
  intros H Hfh. unfold grid_map.
  induction H as [|r r' g g' Hr _ IH]; simpl; [reflexivity|]. f_equal; [|exact IH].
  induction Hr as [|x y r r' Hxy _ IHr]; simpl; [reflexivity|].
  f_equal; [now apply Hfh | exact IHr].
Qed.

Lemma apply_nodata_same_valid nodata nodata' band band' :
  Forall2 (Forall2 (same_valid_cell nodata nodata')) band band' ->
  apply_nodata nodata band = apply_nodata nodata' band'.
Proof.
  intros H. rewrite !apply_nodata_cells.
  eapply grid_map_Forall2; [exact H|].
  intros x y [[-> ->] | (-> & -> & ->)]; reflexivity.
Qed.

Lemma valid_cells_not_nodata v band :
  Forall (fun x => eqb x (of_f64 v) = false) (valid_cells (Some v) band).
Proof.
  unfold valid_cells. apply Forall_forall. intros x Hx.
  apply filter_In in Hx. destruct Hx as [_ Hx]. unfold is_valid_cell in Hx.
  apply andb_true_iff in Hx. destruct Hx as [_ Hx]. now apply negb_true_iff in Hx.
Qed.

Lemma valid_cells_numbers nodata band :
  Forall (fun x => is_nan x = false) (valid_cells nodata band).
Proof.
  unfold valid_cells. apply Forall_forall. intros x Hx.
  apply filter_In in Hx. destruct Hx as [_ Hx]. unfold is_valid_cell in Hx.
  apply andb_true_iff in Hx. destruct Hx as [Hx _]. now apply negb_true_iff in Hx.
Qed.

Lemma without_nan_masked nodata band :
  without_nan (ravel (apply_nodata nodata band)) = observed nodata band.
Proof.
  unfold without_nan, observed. rewrite apply_nodata_cells, ravel_grid_map, map_map.
  apply map_ext. intros x. destruct (is_valid_cell nodata x) eqn:E; [|reflexivity].
  unfold is_valid_cell in E. apply andb_true_iff in E. now rewrite (proj1 E).
Qed.

Lemma present_observed nodata band :
  present (observed nodata band) = valid_cells nodata band.
Proof.
  unfold present, observed, valid_cells.
  induction (ravel band) as [|x l IH]; simpl; [reflexivity|].
  destruct (is_valid_cell nodata x); simpl; now rewrite IH.
Qed.

(** The statistics of the source on the working grid are those of the
    specification on what the band shows of its valid cells. *)
Lemma statistics_observed nodata band :
  ravel band <> [] ->
  exists st, statistics (apply_nodata nodata band) = Ok st /\
             same_statistics st (spec_statistics (observed nodata band)).
Proof.
  intros Hne. rewrite <- without_nan_masked. apply statistics_spec.
  now apply ravel_apply_nodata_nil.
Qed.

(** C1: with a sentinel, the minimum, maximum, mean and standard deviation
    reported are those the specification computes from the cells that
    differ from the sentinel: least and greatest of the valid cells, their
    sum divided by their number, and the population deviation (the sum of
    the squared deviations divided by the number of valid cells).  The
    specification's statistics read nothing of an invalid cell ([observed]
    holds no value there); the mean and the deviation agree up to the sign
    of a zero.  A second grid that differs from the first only in what its
    invalid cells hold has the same statistics. *)
Theorem statistics_only_from_valid_cells band band' v v' :
  ravel band <> [] ->
  Forall2 (Forall2 (same_valid_cell (Some v) (Some v'))) band band' ->
  exists st,
    statistics (apply_nodata (Some v) band) = Ok st /\
    same_statistics st (spec_statistics (observed (Some v) band)) /\
    present (observed (Some v) band) = valid_cells (Some v) band /\
    Forall (fun x => eqb x (of_f64 v) = false) (valid_cells (Some v) band) /\
    statistics (apply_nodata (Some v') band') = Ok st.
Proof.
  intros Hne Hsame.
  destruct (statistics_observed (Some v) band Hne) as [st [Hst Href]].
  exists st. repeat split; try assumption; try apply Href.
  - apply present_observed.
  - apply valid_cells_not_nodata.
  - now rewrite <- (apply_nodata_same_valid _ _ _ _ Hsame).
Qed.

Lemma statistics_only_from_valid_cells_witness :
  exists st,
    statistics (apply_nodata (Some nodata_9999) terrain_grid) = Ok st /\
    same_statistics st (spec_statistics (observed (Some nodata_9999) terrain_grid)) /\
    present (observed (Some nodata_9999) terrain_grid) =
      valid_cells (Some nodata_9999) terrain_grid /\
    Forall (fun x => eqb x (of_f64 nodata_9999) = false)
           (valid_cells (Some nodata_9999) terrain_grid) /\
    statistics (apply_nodata (Some nodata_32768) terrain_grid') = Ok st.
Proof.
  apply (statistics_only_from_valid_cells terrain_grid terrain_grid'
           nodata_9999 nodata_32768).
  - discriminate.
  - repeat constructor; (right; repeat split; reflexivity) || (left; split; reflexivity).
Defined.

(** C10: a cell that already holds NaN is left out of the four statistics,
    with or without a sentinel, like a cell masked for being the sentinel:
    the statistics are those the specification computes from the cells
    that are numbers and differ from the sentinel, and writing the sentinel
    in the NaN cells does not change them. *)
Theorem nan_cells_are_skipped band band' nodata v :
  ravel band <> [] ->
  Forall2 (Forall2 (fun x y => if is_nan x then eqb y (of_f64 v) = true else y = x))
          band band' ->
  exists st st',
    statistics (apply_nodata nodata band) = Ok st /\
    same_statistics st (spec_statistics (observed nodata band)) /\
    present (observed nodata band) = valid_cells nodata band /\
    Forall (fun x => is_nan x = false) (valid_cells nodata band) /\
    statistics (apply_nodata (Some v) band) = Ok st' /\
    statistics (apply_nodata (Some v) band') = Ok st'.
Proof.
  intros Hne Hfill.
  destruct (statistics_observed nodata band Hne) as [st [Hst Href]].
  destruct (statistics_total (apply_nodata (Some v) band)) as [st' Hst'].
  { now apply ravel_apply_nodata_nil. }
  exists st, st'.
  repeat split; try assumption; try apply Href.
  - apply present_observed.
  - apply valid_cells_numbers.
  - rewrite <- Hst'. f_equal. simpl. unfold mask_nodata. symmetry.
    eapply grid_map_Forall2; [exact Hfill|].
    intros x y Hxy. simpl in Hxy. destruct x; simpl in Hxy; subst; try reflexivity.
    now rewrite Hxy.
Qed.

Lemma nan_cells_are_skipped_witness :
  exists st st',
    statistics (apply_nodata None terrain_gaps) = Ok st /\
    same_statistics st (spec_statistics (observed None terrain_gaps)) /\
    present (observed None terrain_gaps) = valid_cells None terrain_gaps /\
    Forall (fun x => is_nan x = false) (valid_cells None terrain_gaps) /\
    statistics (apply_nodata (Some nodata_9999) terrain_gaps) = Ok st' /\
    statistics (apply_nodata (Some nodata_9999) terrain_grid) = Ok st'.
Proof.
  apply (nan_cells_are_skipped terrain_gaps terrain_grid None nodata_9999).
  - discriminate.
  - repeat constructor.
Defined.

(** The order of the additions shows in the result: on eight cells the
    partial sums are combined in pairs, and 100000000 + 1 + 1 + 1 + 4 + 4
    + 4 + 4 comes out as 100000016, the mean as 12500002; on the sixteen
    cells of [terrain_grid] the total of the fourteen valid cells is
    100000048 and the mean 7142860.5.  Added one after the other the
    eight cells would total 100000000. *)
Example eight_cells_mean :
  np_sum eight_cells = of_Z 100000016 /\
  nanmean eight_cells = of_Z 12500002 /\
  fold_left add eight_cells zero = of_Z 100000000.
Proof. repeat split; vm_compute; reflexivity. Qed.

Example terrain_grid_mean :
  exists st,
    statistics (apply_nodata (Some nodata_9999) terrain_grid) = Ok st /\
    data_mean st = spec_mean (observed (Some nodata_9999) terrain_grid) /\
    spec_sum (observed (Some nodata_9999) terrain_grid) = of_Z 100000048 /\
    spec_count (observed (Some nodata_9999) terrain_grid) = 14 /\
    to_Q (data_mean st) = Some (14285721 # 2).
Proof. eexists. repeat split; vm_compute; reflexivity. Qed.

(** * Rounding in binary32

    What follows relates the operations of [SpecFloat] at precision 24 to
    exact integer arithmetic: the result of a subtraction, a division or a
    product is the exact result, counted in units of 2^-149, rounded by
    [round_units]; that rounding is monotone. *)

(** ** Digits and shifts *)

Lemma digits2_pos_size p : digits2_pos p = Pos.size p.
Proof. induction p; simpl; congruence. Qed.

Lemma Zdigits2_log2 m : 0 < m -> Zdigits2 m = Z.log2 m + 1.
Proof.
  destruct m as [|p|p]; try lia. intros _. simpl. rewrite digits2_pos_size.
  destruct p; simpl; lia.
Qed.

Lemma Zdigits2_bounds m : 0 < m -> 2 ^ (Zdigits2 m - 1) <= m < 2 ^ Zdigits2 m.
Proof.
  intros H. rewrite Zdigits2_log2 by exact H.
  replace (Z.log2 m + 1 - 1) with (Z.log2 m) by lia.
  replace (Z.log2 m + 1) with (Z.succ (Z.log2 m)) by lia.
  now apply Z.log2_spec.
Qed.

Lemma Zdigits2_unique m k : 2 ^ (k - 1) <= m < 2 ^ k -> 0 < k -> Zdigits2 m = k.
Proof.
  intros H Hk. assert (0 < m) by (pose proof (Z.pow_pos_nonneg 2 (k-1)); lia).
  rewrite Zdigits2_log2 by assumption.
  rewrite (Z.log2_unique m (k - 1)); try lia.
  replace (Z.succ (k - 1)) with k by lia. exact H.
Qed.

Lemma Zdigits2_nonneg m : 0 <= Zdigits2 m.
Proof. destruct m; simpl; lia. Qed.

Lemma Zdigits2_pos m : 0 < m -> 0 < Zdigits2 m.
Proof. destruct m; simpl; lia. Qed.

Lemma Zdigits2_le m k : 0 <= m -> 0 <= k -> m < 2 ^ k -> Zdigits2 m <= k.
Proof.
  intros Hm Hk H. destruct (Z.eq_dec m 0) as [->|Hne]; [simpl; lia|].
  pose proof (Zdigits2_bounds m ltac:(lia)) as [Hlo _].
  destruct (Z_lt_le_dec k (Zdigits2 m)) as [Hlt|]; [|lia].
  assert (2 ^ k <= 2 ^ (Zdigits2 m - 1)) by (apply Z.pow_le_mono_r; lia). lia.
Qed.

Lemma Zdigits2_ge m k : 0 < k -> 2 ^ (k - 1) <= m -> k <= Zdigits2 m.
Proof.
  intros Hk H. assert (0 < m) by (pose proof (Z.pow_pos_nonneg 2 (k-1)); lia).
  pose proof (Zdigits2_bounds m ltac:(lia)) as [_ Hhi].
  destruct (Z_lt_le_dec (Zdigits2 m) k) as [Hlt|]; [|lia].
  assert (2 ^ Zdigits2 m <= 2 ^ (k - 1)) by (apply Z.pow_le_mono_r; lia). lia.
Qed.

Lemma Zdigits2_mono a b : 0 <= a <= b -> Zdigits2 a <= Zdigits2 b.
Proof.
  intros [Ha Hab]. destruct (Z.eq_dec a 0) as [->|Hne]; [apply Zdigits2_nonneg|].
  apply Zdigits2_ge; [apply Zdigits2_pos; lia|].
  pose proof (Zdigits2_bounds a ltac:(lia)). lia.
Qed.

Lemma shr_1_m mrs : 0 <= shr_m mrs -> shr_m (shr_1 mrs) = shr_m mrs / 2.
Proof.
  destruct mrs as [m r s]. simpl. intros Hm.
  destruct m as [|p|p]; try lia; [reflexivity|].
  destruct p as [p|p|]; simpl shr_m.
  - rewrite Pos2Z.inj_xI. apply (Z.div_unique _ 2 _ 1); lia.
  - rewrite Pos2Z.inj_xO. apply (Z.div_unique _ 2 _ 0); lia.
  - reflexivity.
Qed.

Lemma shr_1_r mrs : 0 <= shr_m mrs -> shr_r (shr_1 mrs) = Z.odd (shr_m mrs).
Proof.
  destruct mrs as [m r s]. simpl. intros Hm.
  destruct m as [|p|p]; try lia; [reflexivity|].
  destruct p as [p|p|]; reflexivity.
Qed.

Lemma shr_1_s mrs : 0 <= shr_m mrs -> shr_s (shr_1 mrs) = shr_r mrs || shr_s mrs.
Proof.
  destruct mrs as [m r s]. simpl. intros Hm.
  destruct m as [|p|p]; try lia; [reflexivity|].
  destruct p as [p|p|]; reflexivity.
Qed.

Lemma iter_pos_nat {A} (f : A -> A) p x :
  iter_pos f p x = Nat.iter (Pos.to_nat p) f x.
Proof.
  revert x. induction p as [p IH|p IH|]; intros x; cbn [iter_pos].
  - rewrite !IH, Pos2Nat.inj_xI.
    replace (S (2 * Pos.to_nat p))%nat with (Pos.to_nat p + (Pos.to_nat p + 1))%nat by lia.
    rewrite !Nat.iter_add. reflexivity.
  - rewrite !IH, Pos2Nat.inj_xO.
    replace (2 * Pos.to_nat p)%nat with (Pos.to_nat p + Pos.to_nat p)%nat by lia.
    rewrite Nat.iter_add. reflexivity.
  - reflexivity.
Qed.

(** ** Rounding a fraction to the nearest integer *)

Lemma mod_double X Y : 0 < Y -> X mod (2 * Y) = X mod Y + Y * ((X / Y) mod 2).
Proof. intros H. rewrite (Z.mul_comm 2 Y). apply Z.rem_mul_r; lia. Qed.

Lemma div_double X Y : 0 < Y -> X / (2 * Y) = X / Y / 2.
Proof. intros H. rewrite (Z.mul_comm 2 Y). symmetry. apply Z.div_div; lia. Qed.

Lemma odd_mod2 m : Z.odd m = (m mod 2 =? 1).
Proof.
  rewrite Zmod_odd. destruct (Z.odd m); reflexivity.
Qed.

Lemma located_shr_1 X Y mrs :
  0 <= X -> 0 < Y -> located X Y mrs -> located X (2 * Y) (shr_1 mrs).
Proof.
  intros HX HY (Hm & Hr & Hs).
  assert (Hm0 : 0 <= shr_m mrs) by (rewrite Hm; apply Z.div_pos; lia).
  pose proof (Z.mod_pos_bound X Y HY) as Hrem.
  pose proof (Z.mod_pos_bound (X / Y) 2 ltac:(lia)) as Hbit.
  unfold located. rewrite (shr_1_m _ Hm0), (shr_1_r _ Hm0), (shr_1_s _ Hm0).
  rewrite Hm, Hr, Hs, div_double, mod_double, odd_mod2 by assumption.
  generalize dependent (X mod Y). generalize dependent ((X / Y) mod 2).
  intros b Hb r _ _ Hrem.
  assert (Hb' : b = 0 \/ b = 1) by lia.
  repeat split.
  - destruct Hb' as [-> | ->]; rewrite ?Z.mul_0_r, ?Z.mul_1_r, ?Z.add_0_r.
    + symmetry. apply Z.leb_gt. lia.
    + symmetry. apply Z.leb_le. lia.
  - destruct Hb' as [-> | ->]; rewrite ?Z.mul_0_r, ?Z.mul_1_r, ?Z.add_0_r; bool_cases.
Qed.

Lemma located_iter X Y mrs n :
  0 <= X -> 0 < Y -> located X Y mrs ->
  located X (Y * 2 ^ Z.of_nat n) (Nat.iter n shr_1 mrs).
Proof.
  intros HX HY H. induction n as [|n IH].
  - simpl. now rewrite Z.mul_1_r.
  - rewrite Nat2Z.inj_succ, Z.pow_succ_r by lia. simpl Nat.iter.
    replace (Y * (2 * 2 ^ Z.of_nat n)) with (2 * (Y * 2 ^ Z.of_nat n)) by lia.
    apply located_shr_1; try assumption.
    pose proof (Z.pow_pos_nonneg 2 (Z.of_nat n)). nia.
Qed.

Lemma located_shr X Y mrs e n :
  0 <= X -> 0 < Y -> located X Y mrs -> 0 <= n ->
  located X (Y * 2 ^ n) (fst (shr mrs e n)) /\ snd (shr mrs e n) = e + n.
Proof.
  intros HX HY H Hn. destruct n as [|p|p]; try lia; cbn [shr fst snd].
  - rewrite Z.pow_0_r, Z.mul_1_r. split; [exact H | lia].
  - split; [|reflexivity]. rewrite iter_pos_nat.
    rewrite <- (positive_nat_Z p). now apply located_iter.
Qed.

Lemma located_round X Y mrs :
  0 < Y -> located X Y mrs ->
  round_nearest_even (shr_m mrs) (loc_of_shr_record mrs) = rne X Y.
Proof.
  intros HY (Hm & Hr & Hs). destruct mrs as [m r s]. cbn [shr_m shr_r shr_s] in *.
  subst m r s. unfold rne, loc_of_shr_record.
  destruct (Z.compare_spec (2 * (X mod Y)) Y) as [E|E|E]; bool_cases.
Qed.

Lemma located_exact m Y : 0 < Y -> located (m * Y) Y (shr_record_of_loc m loc_Exact).
Proof.
  intros HY. unfold located. simpl.
  rewrite Z.div_mul, Z.mod_mul by lia. split; [reflexivity|]. split; bool_cases.
Qed.

Lemma rne_exact m Y : 0 < Y -> rne (m * Y) Y = m.
Proof.
  intros HY. unfold rne. rewrite Z.div_mul, Z.mod_mul by lia.
  destruct (Z.compare_spec (2 * 0) Y); lia.
Qed.

Lemma rne_bounds X Y : 0 < Y -> X / Y <= rne X Y <= X / Y + 1.
Proof.
  intros HY. unfold rne. destruct (2 * (X mod Y) ?= Y); [destruct (Z.even (X / Y))| |]; lia.
Qed.

Lemma rne_scale X Y c : 0 < Y -> 0 < c -> rne (X * c) (Y * c) = rne X Y.
Proof.
  intros HY Hc. unfold rne.
  rewrite Z.div_mul_cancel_r, Z.mul_mod_distr_r by lia.
  destruct (Z.compare_spec (2 * (X mod Y)) Y);
    destruct (Z.compare_spec (2 * (X mod Y * c)) (Y * c)); try reflexivity; exfalso; nia.
Qed.

Lemma rne_mono X Y X' Y' :
  0 < Y -> 0 < Y' -> X * Y' <= X' * Y -> rne X Y <= rne X' Y'.
Proof.
  intros HY HY' H.
  pose proof (Z.mod_pos_bound X Y HY) as Hr.
  pose proof (Z.mod_pos_bound X' Y' HY') as Hr'.
  pose proof (Z.div_mod X Y ltac:(lia)) as E.
  pose proof (Z.div_mod X' Y' ltac:(lia)) as E'.
  assert (Hq : X / Y <= X' / Y').
  { rewrite <- (Z.div_mul_cancel_r X Y Y'), <- (Z.div_mul_cancel_r X' Y' Y) by lia.
    rewrite (Z.mul_comm Y' Y). apply Z.div_le_mono; nia. }
  destruct (Z.eq_dec (X / Y) (X' / Y')) as [Eq|Ne].
  - unfold rne. rewrite <- Eq.
    assert (H2 : X mod Y * Y' <= X' mod Y' * Y).
    { rewrite <- Eq in E'. nia. }
    generalize dependent (X mod Y). generalize dependent (X' mod Y').
    intros r' Hr' _ r Hr _ H2.
    destruct (Z.compare_spec (2 * r) Y);
      destruct (Z.compare_spec (2 * r') Y');
      destruct (Z.even (X / Y)); try lia; exfalso; nia.
  - pose proof (rne_bounds X Y HY). pose proof (rne_bounds X' Y' HY'). lia.
Qed.

(** ** The result of [binary_round_aux] *)

Lemma fexp32 x : fexp 24 128 x = Z.max (x - 24) (-149).
Proof. reflexivity. Qed.

Lemma pow2_pos k : 0 <= k -> 0 < 2 ^ k.
Proof. intros. apply Z.pow_pos_nonneg; lia. Qed.

Lemma pow2_le a b : 0 <= a <= b -> 2 ^ a <= 2 ^ b.
Proof. intros. apply Z.pow_le_mono_r; lia. Qed.

Lemma pow2_lt a b : 0 <= a < b -> 2 ^ a < 2 ^ b.
Proof. intros. apply Z.pow_lt_mono_r; lia. Qed.

Lemma div_pow2_digits m n :
  0 <= m -> 0 <= n -> m / 2 ^ n < 2 ^ Z.max (Zdigits2 m - n) 0.
Proof.
  intros Hm Hn. destruct (Z.eq_dec m 0) as [->|Hne].
  - rewrite Z.div_0_l by (pose proof (pow2_pos n); lia). apply pow2_pos. lia.
  - pose proof (Zdigits2_bounds m ltac:(lia)) as [_ Hhi].
    apply Z.div_lt_upper_bound; [apply pow2_pos; lia|].
    rewrite <- Z.pow_add_r by lia.
    eapply Z.lt_le_trans; [exact Hhi|]. apply pow2_le.
    pose proof (Zdigits2_nonneg m). lia.
Qed.

Lemma div_pow2_lower m n d :
  0 <= n -> n <= d -> 2 ^ d <= m -> 2 ^ (d - n) <= m / 2 ^ n.
Proof.
  intros Hn Hd H. apply Z.div_le_lower_bound; [apply pow2_pos; lia|].
  rewrite <- Z.pow_add_r by lia. now replace (n + (d - n)) with d by lia.
Qed.

Lemma shr_m_record_of_loc m l : shr_m (shr_record_of_loc m l) = m.
Proof. destruct l as [|[]]; reflexivity. Qed.

Lemma round_exp_lower mx ex : -149 <= round_exp mx ex.
Proof. unfold round_exp. rewrite fexp32. lia. Qed.

Section BinaryRoundAux.
Variables (s : bool) (X Y mx ex : Z) (lx : location).
Hypothesis HX : 0 <= X.
Hypothesis HY : 0 < Y.
Hypothesis Hloc : located X Y (shr_record_of_loc mx lx).
Hypothesis Hex : ex <= round_exp mx ex.

Local Abbreviation E := (round_exp mx ex).
Local Abbreviation mr := (round_mant X Y mx ex).

Lemma round_aux_mx : mx = X / Y.
Proof using Hloc. destruct Hloc as [H _]. now rewrite shr_m_record_of_loc in H. Qed.

Lemma round_aux_den : 0 < Y * 2 ^ (E - ex).
Proof using HY Hex. pose proof (pow2_pos (E - ex) ltac:(lia)). nia. Qed.

Lemma round_aux_first :
shr_fexp 24 128 mx ex lx =
(fst (shr (shr_record_of_loc mx lx) ex (E - ex)), E) /\
located X (Y * 2 ^ (E - ex)) (fst (shr (shr_record_of_loc mx lx) ex (E - ex))).
Proof using HX HY Hloc Hex.
unfold shr_fexp. fold E.
assert (Hn : 0 <= E - ex) by lia.
destruct (located_shr X Y _ ex (E - ex) HX HY Hloc Hn) as [H1 H2].
split; [|exact H1].
rewrite (surjective_pairing (shr _ _ _)), H2. f_equal. lia.
Qed.

Lemma round_aux_mr_bounds : 0 <= mr <= 2 ^ 24 /\ (-149 < E -> 2 ^ 23 <= mr).
Proof using HX HY Hloc Hex.
pose proof (rne_bounds X _ round_aux_den) as Hb. fold mr in Hb.
assert (Hq : X / (Y * 2 ^ (E - ex)) = mx / 2 ^ (E - ex)).
{ rewrite <- Z.div_div by (try lia; apply pow2_pos; lia). now rewrite <- round_aux_mx. }
rewrite Hq in Hb.
assert (Hmx : 0 <= mx).
{ pose proof round_aux_mx as Emx. pose proof (Z.div_pos X Y HX HY). lia. }
pose proof (div_pow2_digits mx (E - ex) Hmx ltac:(lia)) as Hup.
assert (0 <= mx / 2 ^ (E - ex)).
{ apply Z.div_pos; [lia|]. apply pow2_pos. lia. }
assert (2 ^ Z.max (Zdigits2 mx - (E - ex)) 0 <= 2 ^ 24).
{ apply pow2_le. unfold round_exp. rewrite fexp32. lia. }
split; [lia|]. intros HE.
assert (HE' : E = Zdigits2 mx + ex - 24) by (unfold round_exp in *; rewrite fexp32 in *; lia).
assert (Hd : 0 < Zdigits2 mx) by lia.
assert (0 < mx) by (destruct mx; simpl in *; lia).
pose proof (Zdigits2_bounds mx ltac:(lia)) as [Hlo _].
pose proof (div_pow2_lower mx (E - ex) (Zdigits2 mx - 1) ltac:(lia) ltac:(lia) Hlo) as Hl.
replace (Zdigits2 mx - 1 - (E - ex)) with 23 in Hl by lia. lia.
Qed.

Lemma round_aux_second_small :
0 <= mr < 2 ^ 24 ->
shr_fexp 24 128 mr E loc_Exact = (shr_record_of_loc mr loc_Exact, E) /\
fexp 24 128 (Zdigits2 mr + E) = E.
Proof using HX HY Hloc Hex.
intros Hmr. pose proof (round_exp_lower mx ex). pose proof round_aux_mr_bounds as [_ Hlow].
assert (Hd : Zdigits2 mr <= 24) by (apply Zdigits2_le; lia).
assert (HfE : fexp 24 128 (Zdigits2 mr + E) = E).
{ rewrite fexp32. destruct (Z.eq_dec E (-149)) as [->|Hne]; [lia|].
  specialize (Hlow ltac:(lia)).
  assert (24 <= Zdigits2 mr) by (apply Zdigits2_ge; simpl; lia). lia. }
split; [|exact HfE]. unfold shr_fexp. rewrite HfE, Z.sub_diag. reflexivity.
Qed.

Lemma round_aux_second_carry :
mr = 2 ^ 24 ->
shr_fexp 24 128 mr E loc_Exact =
({| shr_m := 2 ^ 23; shr_r := false; shr_s := false |}, E + 1).
Proof using Type.
intros Hc. rewrite Hc. pose proof (round_exp_lower mx ex). unfold shr_fexp.
change (Zdigits2 (2 ^ 24)) with 25. rewrite fexp32.
replace (Z.max (25 + E - 24) (-149) - E) with 1 by lia. reflexivity.
Qed.

Theorem binary_round_aux_ord :
let r := binary_round_aux 24 128 s mx ex lx in
valid_binary 24 128 r = true /\
is_nan r = false /\
sign_of r = s /\
ord r = sgn s (Z.min (mr * 2 ^ (E + 149)) cap).
Proof using HX HY Hloc Hex.
pose proof (round_exp_lower mx ex) as HE. pose proof round_aux_mr_bounds as [Hmr Hlow].
destruct round_aux_first as [H1 Hl1].
cbv zeta. unfold binary_round_aux. rewrite H1.
rewrite (located_round _ _ _ round_aux_den Hl1).
fold mr.
destruct (Z.eq_dec mr (2 ^ 24)) as [Hc|Hc].
- rewrite (round_aux_second_carry Hc). cbn [shr_m]. change (2 ^ 23) with (Z.pos 8388608).
  cbv iota beta. change (128 - 24) with 104.
  assert (Hpow : 2 ^ (E + 1 + 149) = 2 * 2 ^ (E + 149)).
  { rewrite <- Z.pow_succ_r by lia. f_equal. lia. }
  destruct (Z.leb_spec (E + 1) 104) as [Hle|Hgt].
  + repeat split.
    * cbn [valid_binary]. unfold bounded, canonical_mantissa.
      change (Z.pos (digits2_pos 8388608)) with 24. rewrite fexp32.
      apply andb_true_intro. split; [apply Z.eqb_eq | apply Z.leb_le]; lia.
    * cbn [ord]. f_equal. rewrite Hpow, Hc.
      assert (2 ^ (E + 149) <= 2 ^ 252) by (apply pow2_le; lia).
      unfold cap. change (2 ^ 277) with (2 ^ 24 * 2 * 2 ^ 252).
      change (2 ^ 24) with 16777216 in *. lia.
  + repeat split. cbn [ord]. f_equal. rewrite Hc.
    assert (2 ^ 253 <= 2 ^ (E + 149)) by (apply pow2_le; lia).
    unfold cap. change (2 ^ 277) with (2 ^ 24 * 2 ^ 253).
    change (2 ^ 24) with 16777216 in *. lia.
- destruct (round_aux_second_small ltac:(lia)) as [H2 HfE]. rewrite H2.
  rewrite shr_m_record_of_loc.
  destruct mr as [|p|p] eqn:Emr; try lia.
  + repeat split. cbn [ord]. unfold sgn, cap. simpl. destruct s; reflexivity.
  + change (128 - 24) with 104.
    destruct (Z.leb_spec E 104) as [Hle|Hgt].
    * repeat split.
      -- cbn [valid_binary]. unfold bounded, canonical_mantissa.
         change (Z.pos (digits2_pos p)) with (Zdigits2 (Z.pos p)). rewrite HfE.
         apply andb_true_intro. split; [apply Z.eqb_eq | apply Z.leb_le]; lia.
      -- cbn [ord]. f_equal.
         assert (2 ^ (E + 149) <= 2 ^ 253) by (apply pow2_le; lia).
         pose proof (pow2_pos (E + 149) ltac:(lia)).
         unfold cap. change (2 ^ 277) with (2 ^ 24 * 2 ^ 253).
         change (2 ^ 24) with 16777216 in *. nia.
    * repeat split. cbn [ord]. f_equal.
      specialize (Hlow ltac:(lia)).
      assert (2 ^ 254 <= 2 ^ (E + 149)) by (apply pow2_le; lia).
      unfold cap. change (2 ^ 277) with (2 ^ 23 * 2 ^ 254).
      change (2 ^ 23) with 8388608 in *. nia.
Qed.
End BinaryRoundAux.

(** ** The rounded value as a function of the exact value *)

Lemma rne_same_ratio X Y X' Y' :
  0 < Y -> 0 < Y' -> X * Y' = X' * Y -> rne X Y = rne X' Y'.
Proof.
  intros HY HY' H. apply Z.le_antisymm; apply rne_mono; lia.
Qed.

Lemma scale_lt A B p n :
  0 <= p -> 0 <= n -> A * 2 ^ p < B * 2 ^ n ->
  (p <= n -> A < B * 2 ^ (n - p)) /\ (n <= p -> A * 2 ^ (p - n) < B).
Proof.
  intros Hp Hn H. split; intros Hpn.
  - replace n with ((n - p) + p) in H by lia. rewrite Z.pow_add_r in H by lia.
    pose proof (pow2_pos p Hp). nia.
  - replace p with ((p - n) + n) in H by lia. rewrite Z.pow_add_r in H by lia.
    pose proof (pow2_pos n Hn). nia.
Qed.

Lemma scale_le A B p n :
  0 <= p -> 0 <= n -> B * 2 ^ n <= A * 2 ^ p ->
  p <= n -> B * 2 ^ (n - p) <= A.
Proof.
  intros Hp Hn H Hpn.
  replace n with ((n - p) + p) in H by lia. rewrite Z.pow_add_r in H by lia.
  pose proof (pow2_pos p Hp). nia.
Qed.

Section RoundedValue.
Variables (X Y mx ex A B p q : Z) (lx : location).
Hypothesis HX : 0 <= X.
Hypothesis HY : 0 < Y.
Hypothesis Hloc : located X Y (shr_record_of_loc mx lx).
Hypothesis Hex : ex <= round_exp mx ex.
Hypothesis HA : 0 <= A.
Hypothesis HB : 0 < B.
Hypothesis Hp : 0 <= p.
Hypothesis Hq : 0 <= q.
Hypothesis Hpq : q - p = ex + 149.
Hypothesis Hratio : A * Y * 2 ^ p = X * B * 2 ^ q.

Lemma rounded_mx : mx * Y <= X < (mx + 1) * Y.
Proof.
rewrite (round_aux_mx X Y mx lx Hloc).
pose proof (Z.div_mod X Y ltac:(lia)). pose proof (Z.mod_pos_bound X Y HY). nia.
Qed.

Lemma rounded_mx_nonneg : 0 <= mx.
Proof.
rewrite (round_aux_mx X Y mx lx Hloc). apply Z.div_pos; lia.
Qed.

Lemma rounded_upper : A * 2 ^ p < B * 2 ^ (Zdigits2 mx + q).
Proof.
pose proof rounded_mx as [_ Hhi]. pose proof rounded_mx_nonneg as Hm.
assert (Hd : mx + 1 <= 2 ^ Zdigits2 mx).
{ destruct (Z.eq_dec mx 0) as [->|Hne]; [simpl; lia|].
  pose proof (Zdigits2_bounds mx ltac:(lia)). lia. }
pose proof (Zdigits2_nonneg mx).
rewrite Z.pow_add_r by lia.
pose proof (pow2_pos p Hp). pose proof (pow2_pos q Hq).
pose proof (pow2_pos (Zdigits2 mx) ltac:(lia)).
assert (X < 2 ^ Zdigits2 mx * Y) by nia.
assert (X * B * 2 ^ q < 2 ^ Zdigits2 mx * Y * B * 2 ^ q).
{ apply Z.mul_lt_mono_pos_r; [lia|]. apply Z.mul_lt_mono_pos_r; lia. }
apply (Z.mul_lt_mono_pos_r Y); [lia|]. lia.
Qed.

Lemma rounded_lower : 0 < mx -> B * 2 ^ (Zdigits2 mx - 1 + q) <= A * 2 ^ p.
Proof.
intros Hm. pose proof rounded_mx as [Hlo _].
pose proof (Zdigits2_bounds mx Hm) as [Hd _].
pose proof (Zdigits2_pos mx Hm).
rewrite Z.pow_add_r by lia.
pose proof (pow2_pos p Hp). pose proof (pow2_pos q Hq).
pose proof (pow2_pos (Zdigits2 mx - 1) ltac:(lia)).
assert (2 ^ (Zdigits2 mx - 1) * Y <= X) by nia.
assert (2 ^ (Zdigits2 mx - 1) * Y * B * 2 ^ q <= X * B * 2 ^ q).
{ apply Z.mul_le_mono_nonneg_r; [lia|]. apply Z.mul_le_mono_nonneg_r; lia. }
apply (Z.mul_le_mono_pos_r _ _ Y); [lia|]. lia.
Qed.

Lemma rounded_shift : round_shift A B = round_exp mx ex + 149.
Proof.
pose proof rounded_upper as HU. pose proof rounded_mx_nonneg as Hm.
pose proof rounded_lower as HLw. pose proof Hex as Hex'.
unfold round_shift. unfold round_exp in Hex' |- *. rewrite fexp32 in Hex' |- *.
pose proof (Zdigits2_nonneg mx) as Hdm.
pose proof (Zdigits2_nonneg (A / B)) as Hdab.
assert (Hq0 : 0 <= A / B) by (apply Z.div_pos; lia).
destruct (Z_le_gt_dec (Zdigits2 mx + q - p) 24) as [Hk|Hk].
- (* the value is below 2^24 *)
  assert (A / B < 2 ^ 24); [|pose proof (Zdigits2_le (A / B) 24 Hq0); lia].
  apply Z.div_lt_upper_bound; [lia|].
  destruct (scale_lt A B p (Zdigits2 mx + q) Hp ltac:(lia) HU) as [H1 H2].
  destruct (Z_le_gt_dec p (Zdigits2 mx + q)) as [Hc|Hc].
  + specialize (H1 Hc).
    assert (2 ^ (Zdigits2 mx + q - p) <= 2 ^ 24) by (apply pow2_le; lia). nia.
  + specialize (H2 ltac:(lia)).
    pose proof (pow2_pos (p - (Zdigits2 mx + q)) ltac:(lia)).
    pose proof (pow2_pos 24 ltac:(lia)). nia.
- (* the value has more than 24 bits *)
  assert (Hpos : 0 < mx) by (destruct mx; simpl in *; lia).
  pose proof (HLw Hpos) as HL.
  destruct (scale_lt A B p (Zdigits2 mx + q) Hp ltac:(lia) HU) as [H1 _].
  specialize (H1 ltac:(lia)).
  pose proof (scale_le A B p (Zdigits2 mx - 1 + q) Hp ltac:(lia) HL ltac:(lia)) as H3.
  rewrite (Zdigits2_unique (A / B) (Zdigits2 mx + q - p)); [lia| |lia].
  split.
  + apply Z.div_le_lower_bound; [lia|].
    replace (Zdigits2 mx + q - p - 1) with (Zdigits2 mx - 1 + q - p) by lia. lia.
  + apply Z.div_lt_upper_bound; [lia|]. lia.
Qed.

Theorem round_mant_units :
round_mant X Y mx ex * 2 ^ (round_exp mx ex + 149) = round_units A B.
Proof.
unfold round_units. rewrite rounded_shift. f_equal. unfold round_mant.
pose proof (round_exp_lower mx ex) as HE.
set (E := round_exp mx ex) in *.
pose proof (pow2_pos (E - ex) ltac:(lia)).
pose proof (pow2_pos (E + 149) ltac:(lia)).
apply rne_same_ratio; try nia.
apply (Z.mul_cancel_r _ _ (2 ^ p)); [pose proof (pow2_pos p Hp); lia|].
transitivity (X * B * (2 ^ (E + 149) * 2 ^ p)); [ring|].
rewrite <- Z.pow_add_r by lia.
replace (E + 149 + p) with (q + (E - ex)) by lia.
rewrite Z.pow_add_r by lia.
transitivity (X * B * 2 ^ q * 2 ^ (E - ex)); [ring|].
rewrite <- Hratio. ring.
Qed.
End RoundedValue.

(** Monotonicity of the rounding of a non-negative rational. *)
Lemma round_shift_mono A B A' B' :
  0 <= A -> 0 < B -> 0 < B' -> A * B' <= A' * B ->
  round_shift A B <= round_shift A' B'.
Proof.
  intros HA HB HB' H. unfold round_shift.
  assert (A / B <= A' / B').
  { rewrite <- (Z.div_mul_cancel_r A B B'), <- (Z.div_mul_cancel_r A' B' B) by lia.
    rewrite (Z.mul_comm B' B). apply Z.div_le_mono; nia. }
  assert (0 <= A / B) by (apply Z.div_pos; lia).
  pose proof (Zdigits2_mono (A / B) (A' / B') ltac:(lia)). lia.
Qed.

Lemma round_units_mono A B A' B' :
  0 <= A -> 0 < B -> 0 < B' -> A * B' <= A' * B -> round_units A B <= round_units A' B'.
Proof.
  intros HA HB HB' H.
  pose proof (round_shift_mono A B A' B' HA HB HB' H) as Hs.
  assert (HA' : 0 <= A') by nia.
  unfold round_units.
  assert (H0 : 0 <= round_shift A B) by (unfold round_shift; lia).
  set (s1 := round_shift A B) in *. set (s2 := round_shift A' B') in *.
  pose proof (pow2_pos s1 H0) as P1. pose proof (pow2_pos s2 ltac:(lia)) as P2.
  destruct (Z.eq_dec s1 s2) as [Es|Ns].
  - rewrite <- Es. apply Z.mul_le_mono_nonneg_r; [lia|].
    apply rne_mono; nia.
  - assert (Hd2 : s2 = Zdigits2 (A' / B') - 24) by (unfold s2, round_shift in *; lia).
    assert (Hd1 : Zdigits2 (A / B) <= s2 + 23) by (unfold s1, s2, round_shift in *; lia).
    assert (Hq' : 0 < A' / B').
    { destruct (A' / B') eqn:E'; simpl in Hd2; try lia.
      pose proof (Z.div_pos A' B' HA' HB'). lia. }
    pose proof (Zdigits2_bounds (A' / B') Hq') as [Hlo' _].
    replace (Zdigits2 (A' / B') - 1) with (s2 + 23) in Hlo' by lia.
    assert (Hq : 0 <= A / B) by (apply Z.div_pos; lia).
    assert (Hhi : A / B < 2 ^ (s2 + 23)).
    { eapply Z.lt_le_trans; [|apply (pow2_le (Zdigits2 (A / B))); split;
        [apply Zdigits2_nonneg | exact Hd1]].
      destruct (Z.eq_dec (A / B) 0) as [->|Hne]; [simpl; lia|].
      apply Zdigits2_bounds. lia. }
    transitivity (2 ^ (s2 + 23)).
    + (* the smaller value rounds to at most this power of two *)
      assert (Hsplit : 2 ^ (s2 + 23) = 2 ^ (s2 + 23 - s1) * 2 ^ s1).
      { rewrite <- Z.pow_add_r by lia. f_equal. lia. }
      rewrite Hsplit. apply Z.mul_le_mono_nonneg_r; [lia|].
      pose proof (rne_bounds A (B * 2 ^ s1) ltac:(nia)) as [_ Hup].
      assert (A / (B * 2 ^ s1) < 2 ^ (s2 + 23 - s1)); [|lia].
      rewrite <- Z.div_div by lia.
      apply Z.div_lt_upper_bound; [lia|]. lia.
    + assert (Hsplit : 2 ^ (s2 + 23) = 2 ^ 23 * 2 ^ s2).
      { rewrite <- Z.pow_add_r by lia. f_equal. lia. }
      rewrite Hsplit at 1. apply Z.mul_le_mono_nonneg_r; [lia|].
      pose proof (rne_bounds A' (B' * 2 ^ s2) ltac:(nia)) as [Hlow _].
      assert (2 ^ 23 <= A' / (B' * 2 ^ s2)); [|lia].
      rewrite <- Z.div_div by lia.
      apply Z.div_le_lower_bound; [lia|]. lia.
Qed.

(** ** Valid floats and their order *)

Lemma valid_finite s m e :
  valid (S754_finite s m e) = true ->
  -149 <= e <= 104 /\ Z.pos m < 2 ^ 24 /\ (-149 < e -> 2 ^ 23 <= Z.pos m) /\
  fexp 24 128 (Zdigits2 (Z.pos m) + e) = e.
Proof.
  unfold valid. cbn [valid_binary]. unfold bounded, canonical_mantissa. intros H.
  apply andb_true_iff in H. destruct H as [H1 H2].
  apply Z.eqb_eq in H1. apply Z.leb_le in H2. change (128 - 24) with 104 in H2.
  change (Z.pos (digits2_pos m)) with (Zdigits2 (Z.pos m)) in H1.
  pose proof H1 as H1'. rewrite fexp32 in H1.
  pose proof (Zdigits2_bounds (Z.pos m) ltac:(lia)) as [Hlo Hhi].
  split; [lia|]. split; [|split; [|exact H1']].
  - eapply Z.lt_le_trans; [exact Hhi|]. apply pow2_le.
    pose proof (Zdigits2_nonneg (Z.pos m)). lia.
  - intros He. assert (Zdigits2 (Z.pos m) = 24) as Hd by lia.
    now rewrite Hd in Hlo.
Qed.

Lemma ord_finite_bounds s m e :
  valid (S754_finite s m e) = true ->
  0 < Z.pos m * 2 ^ (e + 149) < cap.
Proof.
  intros H. destruct (valid_finite _ _ _ H) as ((He1 & He2) & Hm & _).
  pose proof (pow2_pos (e + 149) ltac:(lia)).
  assert (2 ^ (e + 149) <= 2 ^ 253) by (apply pow2_le; lia).
  unfold cap. change (2 ^ 277) with (2 ^ 24 * 2 ^ 253). nia.
Qed.

(** Canonical mantissas are ordered like their exponents. *)
Lemma canonical_lt m1 e1 m2 e2 s1 s2 :
  valid (S754_finite s1 m1 e1) = true -> valid (S754_finite s2 m2 e2) = true ->
  e1 < e2 -> Z.pos m1 * 2 ^ (e1 + 149) < Z.pos m2 * 2 ^ (e2 + 149).
Proof.
  intros H1 H2 He.
  destruct (valid_finite _ _ _ H1) as ((He1 & _) & Hm1 & _).
  destruct (valid_finite _ _ _ H2) as (_ & _ & Hm2 & _).
  specialize (Hm2 ltac:(lia)).
  replace (e2 + 149) with ((e2 - e1 - 1) + 1 + (e1 + 149)) by lia.
  rewrite (Z.pow_add_r 2 (e2 - e1 - 1 + 1) (e1 + 149)) by lia.
  rewrite (Z.pow_add_r 2 (e2 - e1 - 1) 1) by lia.
  pose proof (pow2_pos (e1 + 149) ltac:(lia)).
  pose proof (pow2_pos (e2 - e1 - 1) ltac:(lia)).
  change (2 ^ 1) with 2. change (2 ^ 24) with 16777216 in Hm1.
  change (2 ^ 23) with 8388608 in Hm2.
  assert (Z.pos m1 < Z.pos m2 * (2 ^ (e2 - e1 - 1) * 2)) by nia.
  rewrite Z.mul_assoc. apply Z.mul_lt_mono_pos_r; assumption.
Qed.

Lemma compare_cont_Eq m1 m2 : Pos.compare_cont Eq m1 m2 = (Z.pos m1 ?= Z.pos m2).
Proof. reflexivity. Qed.

Lemma compare_mul_pos a b c : 0 < c -> (a * c ?= b * c) = (a ?= b).
Proof.
  intros Hc. destruct (Z.compare_spec a b); [subst; apply Z.compare_refl | |].
  - apply Z.compare_lt_iff. nia.
  - apply Z.compare_gt_iff. nia.
Qed.

Lemma compare_opp a b : (- a ?= - b) = CompOpp (a ?= b).
Proof. rewrite Z.compare_opp. apply Z.compare_antisym. Qed.

Theorem compare_ord x y :
  valid x = true -> valid y = true -> is_nan x = false -> is_nan y = false ->
  SFcompare x y = Some (ord x ?= ord y).
Proof.
  intros Vx Vy Nx Ny.
  destruct x as [sx|sx| |sx mx ex]; try discriminate;
  destruct y as [sy|sy| |sy my ey]; try discriminate; cbn [SFcompare ord].
  - reflexivity.
  - destruct sy; reflexivity.
  - pose proof (ord_finite_bounds _ _ _ Vy).
    destruct sy; cbn [sgn]; f_equal; by_compare; lia.
  - destruct sx; reflexivity.
  - destruct sx, sy; reflexivity.
  - pose proof (ord_finite_bounds _ _ _ Vy).
    destruct sx, sy; cbn [sgn]; f_equal; by_compare; lia.
  - pose proof (ord_finite_bounds _ _ _ Vx).
    destruct sx; cbn [sgn]; f_equal; by_compare; lia.
  - pose proof (ord_finite_bounds _ _ _ Vx).
    destruct sx, sy; cbn [sgn]; f_equal; by_compare; lia.
  - pose proof (ord_finite_bounds _ _ _ Vx). pose proof (ord_finite_bounds _ _ _ Vy).
    assert (Hp : 0 < 2 ^ (ex + 149)).
    { apply pow2_pos. destruct (valid_finite _ _ _ Vx). lia. }
    f_equal.
    destruct sx, sy; cbn [sgn]; try (by_compare; lia).
    + rewrite compare_opp. destruct (Z.compare_spec ex ey) as [E|E|E].
      * subst ey. now rewrite compare_cont_Eq, compare_mul_pos.
      * pose proof (canonical_lt _ _ _ _ _ _ Vx Vy E) as Hlt.
        apply Z.compare_lt_iff in Hlt. now rewrite Hlt.
      * pose proof (canonical_lt _ _ _ _ _ _ Vy Vx E) as Hlt.
        apply Z.compare_gt_iff in Hlt. now rewrite Hlt.
    + destruct (Z.compare_spec ex ey) as [E|E|E].
      * subst ey. now rewrite compare_cont_Eq, compare_mul_pos.
      * pose proof (canonical_lt _ _ _ _ _ _ Vx Vy E) as Hlt.
        apply Z.compare_lt_iff in Hlt. now rewrite Hlt.
      * pose proof (canonical_lt _ _ _ _ _ _ Vy Vx E) as Hlt.
        apply Z.compare_gt_iff in Hlt. now rewrite Hlt.
Qed.

(** ** [binary_round] and the subtraction *)

Lemma iter_xO m d : Z.pos (Pos.iter xO m d) = Z.pos m * 2 ^ Z.pos d.
Proof.
  induction d as [|d IH] using Pos.peano_ind.
  - simpl. lia.
  - rewrite Pos.iter_succ, Pos2Z.inj_xO, IH, Pos2Z.inj_succ, Z.pow_succ_r by lia. lia.
Qed.

Lemma shl_align_spec mx ex ex' :
  snd (shl_align mx ex ex') = Z.min ex ex' /\
  Z.pos (fst (shl_align mx ex ex')) = Z.pos mx * 2 ^ (ex - Z.min ex ex').
Proof.
  unfold shl_align. destruct (ex' - ex) as [|d|d] eqn:E; cbn [fst snd].
  - replace (Z.min ex ex') with ex by lia. rewrite Z.sub_diag. simpl. lia.
  - replace (Z.min ex ex') with ex by lia. rewrite Z.sub_diag. simpl. lia.
  - replace (Z.min ex ex') with ex' by lia. split; [reflexivity|].
    rewrite iter_xO. f_equal. f_equal. lia.
Qed.

Lemma Zdigits2_mul_pow2 m k : 0 < m -> 0 <= k -> Zdigits2 (m * 2 ^ k) = Zdigits2 m + k.
Proof.
  intros Hm Hk. pose proof (Zdigits2_bounds m Hm) as [Hlo Hhi].
  pose proof (Zdigits2_pos m Hm).
  apply Zdigits2_unique; [|lia].
  replace (Zdigits2 m + k - 1) with (Zdigits2 m - 1 + k) by lia.
  rewrite !Z.pow_add_r by lia. pose proof (pow2_pos k Hk). split.
  - apply Z.mul_le_mono_nonneg_r; [lia | exact Hlo].
  - apply Z.mul_lt_mono_pos_r; [lia | exact Hhi].
Qed.

Lemma round_units_0 B : 0 < B -> round_units 0 B = 0.
Proof.
  intros HB. unfold round_units, round_shift. rewrite Z.div_0_l by lia.
  change (Z.max (Zdigits2 0 - 24) 0) with 0. rewrite Z.pow_0_r, !Z.mul_1_r.
  unfold rne. rewrite Z.div_0_l, Z.mod_0_l by lia.
  destruct (Z.compare_spec (2 * 0) B); lia.
Qed.

Lemma round_units_nonneg A B : 0 <= A -> 0 < B -> 0 <= round_units A B.
Proof.
  intros HA HB. rewrite <- (round_units_0 B HB). apply round_units_mono; lia.
Qed.

Lemma round_units_same_ratio A B A' B' :
  0 <= A -> 0 < B -> 0 < B' -> A * B' = A' * B -> round_units A B = round_units A' B'.
Proof.
  intros HA HB HB' H. assert (0 <= A') by nia.
  apply Z.le_antisymm; apply round_units_mono; lia.
Qed.

(** A value that a valid float holds is left alone by the rounding. *)
Lemma round_units_valid s m e :
  valid (S754_finite s m e) = true ->
  round_units (Z.pos m * 2 ^ (e + 149)) 1 = Z.pos m * 2 ^ (e + 149).
Proof.
  intros V. destruct (valid_finite _ _ _ V) as ((He & _) & _ & _ & Hc).
  rewrite fexp32 in Hc.
  unfold round_units, round_shift. rewrite Z.div_1_r, Zdigits2_mul_pow2 by lia.
  replace (Z.max (Zdigits2 (Z.pos m) + (e + 149) - 24) 0) with (e + 149) by lia.
  rewrite Z.mul_1_l, rne_exact; [reflexivity|]. apply pow2_pos. lia.
Qed.

Theorem binary_round_ord s m e :
  -149 <= e ->
  let r := binary_round 24 128 s m e in
  valid r = true /\ is_nan r = false /\ sign_of r = s /\
  ord r = round_ord s (Z.pos m * 2 ^ (e + 149)) 1.
Proof.
  intros He. cbv zeta. unfold binary_round.
  destruct (shl_align_spec m e (fexp 24 128 (Z.pos (digits2_pos m) + e))) as [H1 H2].
  change (Z.pos (digits2_pos m)) with (Zdigits2 (Z.pos m)) in *.
  destruct (shl_align m e _) as [mz ez]. cbn [fst snd] in H1, H2.
  assert (Hez : -149 <= ez) by (rewrite H1, fexp32; lia).
  assert (Hd : Zdigits2 (Z.pos mz) + ez = Zdigits2 (Z.pos m) + e).
  { rewrite H2, Zdigits2_mul_pow2 by lia. lia. }
  assert (Hex : ez <= round_exp (Z.pos mz) ez).
  { unfold round_exp. rewrite Hd. lia. }
  assert (Hloc : located (Z.pos mz) 1 (shr_record_of_loc (Z.pos mz) loc_Exact)).
  { rewrite <- (Z.mul_1_r (Z.pos mz)) at 1. apply located_exact. lia. }
  pose proof (binary_round_aux_ord s (Z.pos mz) 1 (Z.pos mz) ez loc_Exact
                ltac:(lia) ltac:(lia) Hloc Hex) as (V & N & S & O).
  repeat split; try assumption.
  rewrite O. unfold round_ord. f_equal. f_equal.
  apply (round_mant_units (Z.pos mz) 1 (Z.pos mz) ez _ 1 0 (ez + 149) loc_Exact);
    try lia; try assumption.
  rewrite H2, Z.pow_0_r, !Z.mul_1_r, <- Z.mul_assoc, <- Z.pow_add_r by lia.
  f_equal. f_equal. lia.
Qed.

Lemma round_int_0 : round_int 0 = 0.
Proof. reflexivity. Qed.

Lemma round_int_pos D : 0 < D -> round_int D = Z.min (round_units D 1) cap.
Proof.
  intros H. unfold round_int, round_ord.
  destruct (Z.ltb_spec D 0); [lia|]. now rewrite Z.abs_eq by lia.
Qed.

Lemma round_int_neg D : D < 0 -> round_int D = - Z.min (round_units (- D) 1) cap.
Proof.
  intros H. unfold round_int, round_ord.
  destruct (Z.ltb_spec D 0); [|lia]. now rewrite Z.abs_neq by lia.
Qed.

Lemma round_int_valid s m e :
  valid (S754_finite s m e) = true ->
  round_int (sgn s (Z.pos m * 2 ^ (e + 149))) = sgn s (Z.pos m * 2 ^ (e + 149)).
Proof.
  intros V. pose proof (ord_finite_bounds _ _ _ V) as Hb.
  pose proof (round_units_valid _ _ _ V) as HR.
  destruct s; cbn [sgn].
  - rewrite round_int_neg, Z.opp_involutive, HR by lia. lia.
  - rewrite round_int_pos, HR by lia. lia.
Qed.

Lemma round_int_mono D D' : D <= D' -> round_int D <= round_int D'.
Proof.
  intros H. assert (Hc : 0 < cap) by reflexivity.
  destruct (Z.lt_trichotomy D 0) as [HD|[->|HD]];
    destruct (Z.lt_trichotomy D' 0) as [HD'|[->|HD']]; try lia;
    rewrite ?round_int_0, ?(round_int_pos D), ?(round_int_pos D'),
            ?(round_int_neg D), ?(round_int_neg D') by lia.
  - pose proof (round_units_mono (- D') 1 (- D) 1 ltac:(lia) ltac:(lia) ltac:(lia) ltac:(lia)). lia.
  - pose proof (round_units_nonneg (- D) 1 ltac:(lia) ltac:(lia)). lia.
  - pose proof (round_units_nonneg (- D) 1 ltac:(lia) ltac:(lia)).
    pose proof (round_units_nonneg D' 1 ltac:(lia) ltac:(lia)). lia.
  - pose proof (round_units_nonneg D' 1 ltac:(lia) ltac:(lia)). lia.
  - pose proof (round_units_mono D 1 D' 1 ltac:(lia) ltac:(lia) ltac:(lia) ltac:(lia)). lia.
Qed.

Lemma binary_normalize_ord D e :
  -149 <= e ->
  let r := binary_normalize 24 128 D e false in
  valid r = true /\ is_nan r = false /\ ord r = round_int (D * 2 ^ (e + 149)).
Proof.
  intros He. cbv zeta. pose proof (pow2_pos (e + 149) ltac:(lia)) as Hp.
  destruct D as [|p|p]; cbn [binary_normalize].
  - repeat split.
  - destruct (binary_round_ord false p e He) as (V & N & _ & O).
    repeat split; try assumption. rewrite O, round_int_pos by lia. reflexivity.
  - destruct (binary_round_ord true p e He) as (V & N & _ & O).
    repeat split; try assumption. rewrite O, round_int_neg by lia.
    unfold round_ord. cbn [sgn]. f_equal. f_equal. f_equal. lia.
Qed.

Lemma aligned_ord s m e ez :
  ez <= e -> -149 <= ez ->
  cond_Zopp s (Z.pos (fst (shl_align m e ez))) * 2 ^ (ez + 149) =
  sgn s (Z.pos m * 2 ^ (e + 149)).
Proof.
  intros H1 H2. destruct (shl_align_spec m e ez) as [_ Hm]. rewrite Hm.
  replace (Z.min e ez) with ez by lia.
  assert (E : Z.pos m * 2 ^ (e - ez) * 2 ^ (ez + 149) = Z.pos m * 2 ^ (e + 149)).
  { rewrite <- Z.mul_assoc, <- Z.pow_add_r by lia. f_equal. f_equal. lia. }
  destruct s; cbn [cond_Zopp sgn]; lia.
Qed.

Theorem sub_ord x y :
  valid x = true -> valid y = true -> is_finite x = true -> is_finite y = true ->
  let r := SFsub 24 128 x y in
  valid r = true /\ is_nan r = false /\ ord r = round_int (ord x - ord y).
Proof.
  intros Vx Vy Fx Fy. cbv zeta.
  destruct x as [sx|sx| |sx mx ex]; try discriminate;
  destruct y as [sy|sy| |sy my ey]; try discriminate; cbn [SFsub ord].
  - destruct sx, sy; repeat split.
  - repeat split; [exact Vy|].
    replace (0 - sgn sy (Z.pos my * 2 ^ (ey + 149)))
      with (sgn (negb sy) (Z.pos my * 2 ^ (ey + 149))) by (destruct sy; cbn [sgn negb]; lia).
    symmetry. apply round_int_valid. exact Vy.
  - repeat split; [exact Vx|]. rewrite Z.sub_0_r. symmetry. now apply round_int_valid.
  - destruct (valid_finite _ _ _ Vx) as ((Hx & _) & _).
    destruct (valid_finite _ _ _ Vy) as ((Hy & _) & _).
    destruct (binary_normalize_ord
                (cond_Zopp sx (Z.pos (fst (shl_align mx ex (Z.min ex ey)))) -
                 cond_Zopp sy (Z.pos (fst (shl_align my ey (Z.min ex ey)))))
                (Z.min ex ey) ltac:(lia)) as (V & N & O).
    repeat split; try assumption. rewrite O. f_equal.
    rewrite Z.mul_sub_distr_r, !aligned_ord by lia. reflexivity.
Qed.

(** ** The division and the product *)

Lemma located_new_location X Y :
  0 <= X -> 0 < Y ->
  located X Y (shr_record_of_loc (X / Y) (new_location Y (X mod Y))).
Proof.
  intros HX HY. pose proof (Z.mod_pos_bound X Y HY) as Hr.
  unfold located. rewrite shr_m_record_of_loc. split; [reflexivity|].
  generalize dependent (X mod Y). intros r Hr.
  unfold new_location, new_location_even, new_location_odd.
  destruct (Z.even Y) eqn:Ev.
  - destruct (Z.eqb_spec r 0) as [->|Hne]; cbn [shr_record_of_loc shr_r shr_s].
    + split; bool_cases.
    + destruct (Z.compare_spec (2 * r) Y); cbn [shr_record_of_loc shr_r shr_s];
        split; bool_cases.
  - assert (Hodd : Z.odd Y = true) by (rewrite <- Z.negb_even, Ev; reflexivity).
    apply Z.odd_spec in Hodd. destruct Hodd as [k Hk].
    destruct (Z.eqb_spec r 0) as [->|Hne]; cbn [shr_record_of_loc shr_r shr_s].
    + split; bool_cases.
    + destruct (Z.compare_spec (2 * r + 1) Y); cbn [shr_record_of_loc shr_r shr_s];
        split; bool_cases.
Qed.

Lemma pow2_prod3 a b c a' b' c' :
  0 <= a -> 0 <= b -> 0 <= c -> 0 <= a' -> 0 <= b' -> 0 <= c' ->
  a + b + c = a' + b' + c' ->
  2 ^ a * 2 ^ b * 2 ^ c = 2 ^ a' * 2 ^ b' * 2 ^ c'.
Proof.
  intros. rewrite <- !Z.pow_add_r by lia. f_equal. lia.
Qed.

Lemma div_core_spec mx ex my ey :
  let e' := div_exp mx ex my ey in
  let X := Z.pos mx * 2 ^ (ex - ey - e') in
  SFdiv_core_binary 24 128 (Z.pos mx) ex (Z.pos my) ey =
  (X / Z.pos my, e', new_location (Z.pos my) (X mod Z.pos my)).
Proof.
  cbv zeta. unfold SFdiv_core_binary. fold (div_exp mx ex my ey).
  set (e' := div_exp mx ex my ey).
  assert (Hs : 0 <= ex - ey - e') by (unfold e', div_exp; lia).
  set (m' := match ex - ey - e' with
             | 0 => Z.pos mx
             | Z.pos _ => Z.shiftl (Z.pos mx) (ex - ey - e')
             | Z.neg _ => 0
             end).
  assert (Hm' : m' = Z.pos mx * 2 ^ (ex - ey - e')).
  { unfold m'. destruct (ex - ey - e') as [|p|p]; try lia.
    apply Z.shiftl_mul_pow2. lia. }
  rewrite <- Hm'. unfold Z.div, Z.modulo.
  destruct (Z.div_eucl m' (Z.pos my)) as [q r]. reflexivity.
Qed.

Lemma div_exp_aligned mx ex my ey :
  let e' := div_exp mx ex my ey in
  e' <= round_exp (Z.pos mx * 2 ^ (ex - ey - e') / Z.pos my) e'.
Proof.
  cbv zeta. remember (div_exp mx ex my ey) as e' eqn:He0.
  unfold div_exp in He0. rewrite fexp32 in He0.
  remember (Zdigits2 (Z.pos mx)) as d1 eqn:Hd1.
  remember (Zdigits2 (Z.pos my)) as d2 eqn:Hd2.
  remember (ex - ey - e') as sh eqn:Hsh.
  assert (Hs : 0 <= sh) by lia.
  unfold round_exp. rewrite fexp32.
  destruct (Z_le_gt_dec e' (-149)) as [Hl|Hg]; [lia|].
  pose proof (Zdigits2_bounds (Z.pos mx) ltac:(lia)) as [Hlo1 _].
  pose proof (Zdigits2_bounds (Z.pos my) ltac:(lia)) as [_ Hhi2].
  pose proof (Zdigits2_pos (Z.pos mx) ltac:(lia)) as Hp1.
  pose proof (Zdigits2_pos (Z.pos my) ltac:(lia)) as Hp2.
  rewrite <- Hd1 in Hlo1, Hp1. rewrite <- Hd2 in Hhi2, Hp2.
  assert (Hk : 24 <= d1 + sh - d2) by lia.
  assert (d1 + sh - d2 <= Zdigits2 (Z.pos mx * 2 ^ sh / Z.pos my)); [|lia].
  apply Zdigits2_ge; [lia|].
  apply Z.div_le_lower_bound; [lia|].
  pose proof (pow2_pos sh Hs). pose proof (pow2_pos (d1 + sh - d2 - 1) ltac:(lia)).
  assert (E : 2 ^ (d1 + sh - d2 - 1) * 2 ^ d2 = 2 ^ (d1 - 1) * 2 ^ sh).
  { rewrite <- !Z.pow_add_r by lia. f_equal. lia. }
  nia.
Qed.

Theorem div_ord sx mx ex sy my ey :
  valid (S754_finite sx mx ex) = true -> valid (S754_finite sy my ey) = true ->
  let r := SFdiv 24 128 (S754_finite sx mx ex) (S754_finite sy my ey) in
  valid r = true /\ is_nan r = false /\ sign_of r = xorb sx sy /\
  ord r = round_ord (xorb sx sy)
            (Z.pos mx * 2 ^ (ex + 149) * 2 ^ 149) (Z.pos my * 2 ^ (ey + 149)).
Proof.
  intros Vx Vy. cbv zeta. cbn [SFdiv]. rewrite div_core_spec.
  destruct (valid_finite _ _ _ Vx) as ((Hx & _) & _).
  destruct (valid_finite _ _ _ Vy) as ((Hy & _) & _).
  set (e' := div_exp mx ex my ey).
  assert (Hs : 0 <= ex - ey - e') by (unfold e', div_exp; lia).
  pose proof (pow2_pos (ex - ey - e') Hs) as Hps.
  pose proof (pow2_pos (ex + 149) ltac:(lia)) as Hpx.
  pose proof (pow2_pos (ey + 149) ltac:(lia)) as Hpy.
  set (X := Z.pos mx * 2 ^ (ex - ey - e')) in *.
  assert (HX : 0 <= X) by (unfold X; nia).
  pose proof (located_new_location X (Z.pos my) HX ltac:(lia)) as Hloc.
  pose proof (div_exp_aligned mx ex my ey) as Hex. cbv zeta in Hex. fold e' X in Hex.
  pose proof (binary_round_aux_ord (xorb sx sy) X (Z.pos my) _ e' _
                HX ltac:(lia) Hloc Hex) as (V & N & S & O).
  repeat split; try assumption.
  rewrite O. unfold round_ord. f_equal. f_equal.
  apply (round_mant_units X (Z.pos my) _ e' _ _
           (Z.max (- (e' + 149)) 0) (Z.max (e' + 149) 0)
           (new_location (Z.pos my) (X mod Z.pos my))); try lia; try assumption.
  unfold X.
    transitivity (Z.pos mx * Z.pos my *
                  (2 ^ (ex + 149) * 2 ^ 149 * 2 ^ Z.max (- (e' + 149)) 0)); [ring|].
    transitivity (Z.pos mx * Z.pos my *
                  (2 ^ (ex - ey - e') * 2 ^ (ey + 149) * 2 ^ Z.max (e' + 149) 0)); [|ring].
    f_equal. apply pow2_prod3; lia.
Qed.

Theorem mul_ord sx mx ex sy my ey :
  valid (S754_finite sx mx ex) = true -> valid (S754_finite sy my ey) = true ->
  let r := SFmul 24 128 (S754_finite sx mx ex) (S754_finite sy my ey) in
  valid r = true /\ is_nan r = false /\ sign_of r = xorb sx sy /\
  ord r = round_ord (xorb sx sy)
            (Z.pos mx * 2 ^ (ex + 149) * (Z.pos my * 2 ^ (ey + 149))) (2 ^ 149).
Proof.
  intros Vx Vy. cbv zeta. cbn [SFmul].
  destruct (valid_finite _ _ _ Vx) as ((Hx & _) & Hmx & Hnx & Hcx).
  destruct (valid_finite _ _ _ Vy) as ((Hy & _) & Hmy & Hny & Hcy).
  pose proof (pow2_pos (ex + 149) ltac:(lia)) as Hpx.
  pose proof (pow2_pos (ey + 149) ltac:(lia)) as Hpy.
  rewrite Pos2Z.inj_mul.
  set (X := Z.pos mx * Z.pos my).
  assert (HX : 0 < X) by (unfold X; lia).
  assert (Hloc : located X 1 (shr_record_of_loc X loc_Exact)).
  { rewrite <- (Z.mul_1_r X) at 1. apply located_exact. lia. }
  assert (Hex : ex + ey <= round_exp X (ex + ey)).
  { unfold round_exp. rewrite fexp32.
    destruct (Z_le_gt_dec (ex + ey) (-149)) as [Hl|Hg]; [lia|].
    assert (24 <= Zdigits2 X); [|lia].
    apply Zdigits2_ge; [lia|]. unfold X.
    destruct (Z.eq_dec ex (-149)) as [Ex|Ex].
    - specialize (Hny ltac:(lia)). change (24 - 1) with 23. nia.
    - specialize (Hnx ltac:(lia)). change (24 - 1) with 23. nia. }
  pose proof (binary_round_aux_ord (xorb sx sy) X 1 X (ex + ey) loc_Exact
                ltac:(lia) ltac:(lia) Hloc Hex) as (V & N & S & O).
  repeat split; try assumption.
  rewrite O. unfold round_ord. f_equal. f_equal.
  apply (round_mant_units X 1 X (ex + ey) _ _
           (Z.max (- (ex + ey + 149)) 0) (Z.max (ex + ey + 149) 0) loc_Exact);
    try lia; try assumption.
  unfold X.
    transitivity (Z.pos mx * Z.pos my *
                  (2 ^ (ex + 149) * 2 ^ (ey + 149) * 2 ^ Z.max (- (ex + ey + 149)) 0)); [ring|].
    transitivity (Z.pos mx * Z.pos my *
                  (2 ^ 149 * 2 ^ 0 * 2 ^ Z.max (ex + ey + 149) 0)); [|ring].
    f_equal. apply pow2_prod3; lia.
Qed.

(** * The scaling branch

    The arithmetic of lines 50 to 59 on valid floats, through [ord]. *)

(** ** Comparisons *)

Lemma leb_ord x y :
  valid x = true -> valid y = true -> is_nan x = false -> is_nan y = false ->
  leb x y = (ord x <=? ord y).
Proof.
  intros Vx Vy Nx Ny. unfold leb, SFleb. rewrite (compare_ord x y Vx Vy Nx Ny).
  destruct (Z.compare_spec (ord x) (ord y)); bool_cases.
Qed.

Lemma ltb_ord x y :
  valid x = true -> valid y = true -> is_nan x = false -> is_nan y = false ->
  ltb x y = (ord x <? ord y).
Proof.
  intros Vx Vy Nx Ny. unfold ltb, SFltb. rewrite (compare_ord x y Vx Vy Nx Ny).
  destruct (Z.compare_spec (ord x) (ord y)); bool_cases.
Qed.

Lemma eqb_ord x y :
  valid x = true -> valid y = true -> is_nan x = false -> is_nan y = false ->
  eqb x y = (ord x =? ord y).
Proof.
  intros Vx Vy Nx Ny. unfold eqb, SFeqb. rewrite (compare_ord x y Vx Vy Nx Ny).
  destruct (Z.compare_spec (ord x) (ord y)); bool_cases.
Qed.

Lemma compare_nan_l y : SFcompare S754_nan y = None.
Proof. reflexivity. Qed.

Lemma compare_nan_r x : SFcompare x S754_nan = None.
Proof. now destruct x. Qed.

(** ** What [ord] tells about a valid float *)

Lemma finite_ord_bounds x :
  valid x = true -> is_finite x = true -> - cap < ord x < cap.
Proof.
  intros V F. destruct x as [s|s| |s m e]; try discriminate; cbn [ord].
  - unfold cap. lia.
  - pose proof (ord_finite_bounds _ _ _ V). destruct s; cbn [sgn]; lia.
Qed.

Lemma ord_is_finite x :
  is_nan x = false -> - cap < ord x < cap -> is_finite x = true.
Proof.
  intros N H. destruct x as [s|s| |s m e]; try discriminate; try reflexivity.
  cbn [ord] in H. destruct s; cbn [sgn] in H; lia.
Qed.

Lemma ord_pos_sign x : valid x = true -> 0 < ord x -> sign_of x = false.
Proof.
  intros V H. destruct x as [s|s| |s m e]; cbn [ord] in H; try lia; cbn [sign_of].
  - destruct s; cbn [sgn] in H; [unfold cap in H; lia | reflexivity].
  - pose proof (ord_finite_bounds _ _ _ V). destruct s; cbn [sgn] in H; [lia | reflexivity].
Qed.

Lemma ord_zero_finite x :
  valid x = true -> is_finite x = true -> ord x = 0 -> exists s, x = S754_zero s.
Proof.
  intros V F H. destruct x as [s|s| |s m e]; try discriminate; [now exists s|].
  pose proof (ord_finite_bounds _ _ _ V). cbn [ord] in H. destruct s; cbn [sgn] in H; lia.
Qed.

(** ** The arithmetic keeps floats valid *)

Lemma sub_valid x y : valid x = true -> valid y = true -> valid (sub x y) = true.
Proof.
  intros Vx Vy.
  destruct (is_finite x) eqn:Fx; [destruct (is_finite y) eqn:Fy|].
  - now destruct (sub_ord x y Vx Vy Fx Fy) as (V & _).
  - destruct x as [sx|sx| |sx mx ex], y as [sy|sy| |sy my ey]; try discriminate; reflexivity.
  - destruct x as [sx|sx| |sx mx ex], y as [sy|sy| |sy my ey]; try discriminate;
      try reflexivity; destruct sx, sy; reflexivity.
Qed.

Lemma div_valid x y : valid x = true -> valid y = true -> valid (div x y) = true.
Proof.
  intros Vx Vy.
  destruct x as [sx|sx| |sx mx ex], y as [sy|sy| |sy my ey]; try reflexivity.
  now destruct (div_ord _ _ _ _ _ _ Vx Vy) as (V & _).
Qed.

(** ** Clipping and the fallback *)

Lemma unit_below_cap : 0 < unit_ord < cap.
Proof. split; reflexivity. Qed.

Lemma ord_one : ord one = unit_ord.
Proof. reflexivity. Qed.

Lemma valid_one : valid one = true.
Proof. reflexivity. Qed.

Lemma valid_zero : valid zero = true.
Proof. reflexivity. Qed.

Lemma clip_level t :
  valid t = true ->
  let u := nan_to_num (clip01 t) in
  valid u = true /\ is_finite u = true /\ (ord u = 0 \/ sign_of u = false) /\
  ord u = cell_level t.
Proof.
  intros V. cbv zeta. unfold clip01, cell_level.
  destruct (is_nan t) eqn:N.
  - destruct t; try discriminate. cbn. repeat split. now left.
  - rewrite (ltb_ord zero t valid_zero V eq_refl N). change (ord zero) with 0.
    destruct (Z.ltb_spec 0 (ord t)) as [Hpos|Hneg].
    + rewrite (ltb_ord t one V valid_one N eq_refl), ord_one.
      destruct (Z.ltb_spec (ord t) unit_ord) as [Hlt|Hge].
      * assert (F : is_finite t = true).
        { apply ord_is_finite; [exact N|]. pose proof unit_below_cap. lia. }
        destruct t as [s|s| |s m e]; try discriminate; cbn [nan_to_num].
        repeat split; [exact V | right; now apply ord_pos_sign | lia].
      * change (nan_to_num one) with one.
        repeat split; [now right | rewrite ord_one; pose proof unit_below_cap; lia].
    + change (ltb zero one) with true. cbv iota. change (nan_to_num zero) with zero.
      repeat split; [now left | ]. change (ord zero) with 0. pose proof unit_below_cap. lia.
Qed.

(** ** The product with 255 and the integer cast *)

Lemma round_units_255 : round_units (255 * unit_ord) 1 = 255 * unit_ord.
Proof. vm_compute. reflexivity. Qed.

Lemma ord_f255 : ord f255 = 255 * unit_ord.
Proof. reflexivity. Qed.

Lemma valid_f255 : valid f255 = true.
Proof. reflexivity. Qed.

Lemma trunc_ord x :
  valid x = true -> is_finite x = true -> sign_of x = false \/ ord x = 0 ->
  trunc x = ord x / unit_ord.
Proof.
  intros V F S. destruct x as [s|s| |s m e]; try discriminate.
  - reflexivity.
  - pose proof (ord_finite_bounds _ _ _ V) as Hb.
    destruct (valid_finite _ _ _ V) as ((He & _) & _).
    assert (s = false) as ->.
    { destruct S as [S|S]; [exact S|]. cbn [ord] in S. destruct s; cbn [sgn] in S; [lia|reflexivity]. }
    cbn [trunc ord sgn]. unfold unit_ord.
    destruct e as [|p|p].
    + rewrite Z.shiftl_0_r. change (0 + 149) with 149. now rewrite Z.div_mul by lia.
    + rewrite Z.shiftl_mul_pow2 by lia.
      rewrite Z.pow_add_r, Z.mul_assoc, Z.div_mul by lia. reflexivity.
    + rewrite Z.shiftr_div_pow2 by lia.
      replace (2 ^ 149) with (2 ^ Z.pos p * 2 ^ (Z.neg p + 149)).
      * rewrite Z.div_mul_cancel_r; [reflexivity| |]; apply Z.pow_nonzero; lia.
      * rewrite <- Z.pow_add_r by lia. f_equal. lia.
Qed.

Lemma level_byte_mono L L' : 0 <= L <= L' -> level_byte L <= level_byte L'.
Proof.
  intros H. unfold level_byte. apply Z.div_le_mono; [reflexivity|].
  apply round_units_mono; lia.
Qed.

Lemma level_byte_0 : level_byte 0 = 0.
Proof. reflexivity. Qed.

Lemma level_byte_unit : level_byte unit_ord = 255.
Proof. vm_compute. reflexivity. Qed.

Lemma level_byte_bounds L : 0 <= L <= unit_ord -> 0 <= level_byte L <= 255.
Proof.
  intros H. rewrite <- level_byte_0 at 1. rewrite <- level_byte_unit.
  split; apply level_byte_mono; lia.
Qed.

Lemma mul_level u :
  valid u = true -> is_finite u = true -> (ord u = 0 \/ sign_of u = false) ->
  0 <= ord u <= unit_ord ->
  let y := mul u f255 in
  valid y = true /\ is_finite y = true /\ (sign_of y = false \/ ord y = 0) /\
  ord y = round_units (255 * ord u) 1.
Proof.
  intros V F S Hb. cbv zeta.
  destruct u as [s|s| |s m e]; try discriminate.
  - cbn. repeat split. now right.
  - pose proof (ord_finite_bounds _ _ _ V) as Hm.
    assert (s = false) as ->.
    { destruct S as [S|S]; [|exact S]. cbn [ord] in S. destruct s; cbn [sgn] in S; lia. }
    cbn [ord sgn] in Hb |- *.
    destruct (mul_ord false m e false 16711680 (-16) V valid_f255) as (Vy & Ny & Sy & Oy).
    change (SFmul 24 128 (S754_finite false m e) (S754_finite false 16711680 (-16)))
      with (mul (S754_finite false m e) f255) in *.
    cbn [xorb] in Sy, Oy. unfold round_ord in Oy. cbn [sgn] in Oy.
    change (Z.pos 16711680 * 2 ^ (-16 + 149)) with (255 * unit_ord) in Oy.
    change (2 ^ 149) with unit_ord in Oy.
    set (o := Z.pos m * 2 ^ (e + 149)) in *.
    assert (HR : round_units (o * (255 * unit_ord)) unit_ord = round_units (255 * o) 1).
    { pose proof unit_below_cap. apply round_units_same_ratio; lia. }
    rewrite HR in Oy.
    assert (Hle : round_units (255 * o) 1 <= 255 * unit_ord).
    { rewrite <- round_units_255. apply round_units_mono; lia. }
    assert (Hc : 255 * unit_ord < cap) by reflexivity.
    rewrite Z.min_l in Oy by lia.
    repeat split; try assumption.
    + apply ord_is_finite; [exact Ny|].
      pose proof (round_units_nonneg (255 * o) 1 ltac:(lia) ltac:(lia)). lia.
    + now left.
Qed.

Theorem scale_cell_level lo hi x :
  valid lo = true -> valid hi = true -> valid x = true ->
  let t := div (sub x lo) (sub hi lo) in
  let y := mul (nan_to_num (clip01 t)) f255 in
  is_finite y = true /\
  trunc y = level_byte (cell_level t) /\
  scale_cell lo hi x = level_byte (cell_level t) /\
  0 <= level_byte (cell_level t) <= 255.
Proof.
  intros Vlo Vhi Vx. cbv zeta.
  assert (Vt : valid (div (sub x lo) (sub hi lo)) = true)
    by (apply div_valid; apply sub_valid; assumption).
  destruct (clip_level _ Vt) as (Vu & Fu & Su & Ou).
  assert (Hl : 0 <= cell_level (div (sub x lo) (sub hi lo)) <= unit_ord).
  { unfold cell_level. pose proof unit_below_cap. destruct (is_nan _); lia. }
  destruct (mul_level _ Vu Fu Su ltac:(lia)) as (Vy & Fy & Sy & Oy).
  pose proof (level_byte_bounds _ Hl) as Hb.
  assert (Ht : trunc (mul (nan_to_num (clip01 (div (sub x lo) (sub hi lo)))) f255) =
               level_byte (cell_level (div (sub x lo) (sub hi lo)))).
  { rewrite (trunc_ord _ Vy Fy Sy), Oy, Ou. reflexivity. }
  repeat split; try assumption; try lia.
  unfold scale_cell, clipped, astype_uint8. rewrite Ht. apply Z.mod_small. lia.
Qed.

(** ** The quotient by a finite positive range *)

Lemma div_nonneg_ord t r :
  valid t = true -> is_finite t = true -> 0 <= ord t ->
  valid r = true -> is_finite r = true -> 0 < ord r ->
  is_nan (div t r) = false /\
  ord (div t r) = Z.min (round_units (ord t * unit_ord) (ord r)) cap.
Proof.
  intros Vt Ft Ht Vr Fr Hr.
  destruct r as [sr|sr| |sr mr er]; try discriminate.
  assert (sr = false) as -> by (apply (ord_pos_sign _ Vr Hr)).
  destruct t as [st|st| |st mt et]; try discriminate.
  - cbn [div SFdiv is_nan ord]. split; [reflexivity|].
    rewrite Z.mul_0_l, round_units_0 by (cbn [sgn]; pose proof (ord_finite_bounds _ _ _ Vr); lia).
    reflexivity.
  - pose proof (ord_finite_bounds _ _ _ Vt) as Hb.
    assert (st = false) as ->.
    { cbn [ord] in Ht. destruct st; cbn [sgn] in Ht; [lia|reflexivity]. }
    destruct (div_ord _ _ _ _ _ _ Vt Vr) as (_ & N & _ & O).
    split; [exact N|]. exact O.
Qed.

Lemma round_units_unit : round_units unit_ord 1 = unit_ord.
Proof. vm_compute. reflexivity. Qed.

Lemma round_units_1 : round_units 1 1 = 1.
Proof. reflexivity. Qed.

Lemma round_int_nonneg D : 0 <= D -> 0 <= round_int D.
Proof. intros H. rewrite <- round_int_0. now apply round_int_mono. Qed.

Lemma round_int_pos_iff D : 0 <= D -> round_int D = 0 -> D = 0.
Proof.
  intros H E. destruct (Z.eq_dec D 0) as [|Hne]; [assumption|].
  pose proof (round_int_mono 1 D ltac:(lia)) as Hm.
  rewrite (round_int_pos 1), round_units_1 in Hm by lia.
  assert (Z.min 1 cap = 1) by reflexivity. lia.
Qed.

Lemma range_level_mono R o o' :
  0 < R -> 0 <= o <= o' -> range_level R o <= range_level R o'.
Proof.
  intros HR H. unfold range_level.
  pose proof unit_below_cap.
  assert (round_units (o * unit_ord) R <= round_units (o' * unit_ord) R).
  { assert (0 <= o * unit_ord) by (apply Z.mul_nonneg_nonneg; lia).
    assert (o * unit_ord <= o' * unit_ord) by (apply Z.mul_le_mono_nonneg_r; lia).
    apply round_units_mono; try lia. apply Z.mul_le_mono_nonneg_r; lia. }
  lia.
Qed.

Lemma range_level_0 R : 0 < R -> range_level R 0 = 0.
Proof.
  intros HR. unfold range_level. rewrite Z.mul_0_l, round_units_0 by lia.
  pose proof unit_below_cap. lia.
Qed.

Lemma range_level_full R : 0 < R -> range_level R R = unit_ord.
Proof.
  intros HR. unfold range_level. pose proof unit_below_cap.
  assert (0 <= R * unit_ord) by (apply Z.mul_nonneg_nonneg; lia).
  rewrite (round_units_same_ratio (R * unit_ord) R unit_ord 1), round_units_unit; lia.
Qed.

Lemma range_level_bounds R o : 0 < R -> 0 <= o -> 0 <= range_level R o <= unit_ord.
Proof.
  intros HR Ho. unfold range_level. pose proof unit_below_cap.
  pose proof (round_units_nonneg (o * unit_ord) R ltac:(apply Z.mul_nonneg_nonneg; lia) HR). lia.
Qed.

Theorem scale_cell_finite_range lo hi x :
  valid lo = true -> valid hi = true -> valid x = true ->
  is_finite lo = true -> is_finite x = true ->
  ord lo <= ord x ->
  is_finite (sub hi lo) = true -> 0 < ord (sub hi lo) ->
  ord (sub x lo) <= ord (sub hi lo) ->
  scale_cell lo hi x =
  level_byte (range_level (ord (sub hi lo)) (round_int (ord x - ord lo))).
Proof.
  intros Vlo Vhi Vx Flo Fx Hlo Fr Hr Hle.
  destruct (scale_cell_level lo hi x Vlo Vhi Vx) as (_ & _ & E & _). rewrite E. f_equal.
  destruct (sub_ord x lo Vx Vlo Fx Flo) as (Vt & Nt & Ot).
  change (SFsub 24 128 x lo) with (sub x lo) in *.
  pose proof (sub_valid hi lo Vhi Vlo) as Vr.
  pose proof (finite_ord_bounds _ Vr Fr) as Hrb.
  assert (H0 : 0 <= ord (sub x lo)) by (rewrite Ot; apply round_int_nonneg; lia).
  assert (Ft : is_finite (sub x lo) = true) by (apply ord_is_finite; [exact Nt | lia]).
  destruct (div_nonneg_ord _ _ Vt Ft H0 Vr Fr Hr) as (Nq & Oq).
  unfold cell_level, range_level. rewrite Nq, Oq, <- Ot.
  pose proof unit_below_cap.
  pose proof (round_units_nonneg (ord (sub x lo) * unit_ord) (ord (sub hi lo))
                ltac:(apply Z.mul_nonneg_nonneg; lia) Hr). lia.
Qed.

Lemma scale_cell_infinite_range lo hi x :
  sub hi lo = S754_infinity false -> scale_cell lo hi x = 0.
Proof.
  intros E. unfold scale_cell, clipped. rewrite E.
  destruct (sub x lo) as [s|s| |s m e]; try reflexivity; destruct s; reflexivity.
Qed.

(** ** The extrema bound the cells that are numbers *)

Lemma fmin_spec a b :
  valid a = true -> valid b = true ->
  valid (fmin a b) = true /\
  (is_nan a = false -> is_nan (fmin a b) = false /\ ord (fmin a b) <= ord a) /\
  (is_nan b = false -> is_nan (fmin a b) = false /\ ord (fmin a b) <= ord b) /\
  (fmin a b = a \/ fmin a b = b).
Proof.
  intros Va Vb. unfold fmin.
  destruct (is_nan b) eqn:Nb.
  - rewrite orb_true_r. repeat split; try assumption; try discriminate; try lia; auto.
  - rewrite orb_false_r. destruct (is_nan a) eqn:Na.
    + destruct a; try discriminate. unfold leb, SFleb. rewrite compare_nan_l.
      repeat split; try assumption; try discriminate; try lia; auto.
    + rewrite (leb_ord a b Va Vb Na Nb).
      destruct (Z.leb_spec (ord a) (ord b)); repeat split; try assumption; try lia; auto.
Qed.

Lemma fmax_spec a b :
  valid a = true -> valid b = true ->
  valid (fmax a b) = true /\
  (is_nan a = false -> is_nan (fmax a b) = false /\ ord a <= ord (fmax a b)) /\
  (is_nan b = false -> is_nan (fmax a b) = false /\ ord b <= ord (fmax a b)) /\
  (fmax a b = a \/ fmax a b = b).
Proof.
  intros Va Vb. unfold fmax.
  destruct (is_nan b) eqn:Nb.
  - rewrite orb_true_r. repeat split; try assumption; try discriminate; try lia; auto.
  - rewrite orb_false_r. destruct (is_nan a) eqn:Na.
    + destruct a; try discriminate. unfold leb, SFleb. rewrite compare_nan_r.
      repeat split; try assumption; try discriminate; try lia; auto.
    + rewrite (leb_ord b a Vb Va Nb Na).
      destruct (Z.leb_spec (ord b) (ord a)); repeat split; try assumption; try lia; auto.
Qed.

Lemma fold_fmin_spec l : forall a,
  valid a = true -> Forall (fun x => valid x = true) l ->
  valid (fold_left fmin l a) = true /\
  (forall x, x = a \/ In x l -> is_nan x = false ->
     is_nan (fold_left fmin l a) = false /\ ord (fold_left fmin l a) <= ord x) /\
  (fold_left fmin l a = a \/ In (fold_left fmin l a) l).
Proof.
  induction l as [|b l IH]; intros a Va Vl; simpl.
  - split; [exact Va|]. split; [|now left]. intros x [->|[]] N. split; [exact N | lia].
  - inversion Vl as [|? ? Vb Vl']; subst.
    destruct (fmin_spec a b Va Vb) as (Vm & Ha & Hb & Hc).
    destruct (IH (fmin a b) Vm Vl') as (V & H & Hin).
    split; [exact V|]. split.
    + intros x [->|[->|Hx]] N.
      * destruct (Ha N) as [N' L']. destruct (H _ (or_introl eq_refl) N') as [N'' L'']. split; [assumption | lia].
      * destruct (Hb N) as [N' L']. destruct (H _ (or_introl eq_refl) N') as [N'' L'']. split; [assumption | lia].
      * apply H; [now right | exact N].
    + destruct Hin as [E|Hin]; [|now right; right].
      rewrite E. destruct Hc as [->| ->]; [now left | now right; left].
Qed.

Lemma fold_fmax_spec l : forall a,
  valid a = true -> Forall (fun x => valid x = true) l ->
  valid (fold_left fmax l a) = true /\
  (forall x, x = a \/ In x l -> is_nan x = false ->
     is_nan (fold_left fmax l a) = false /\ ord x <= ord (fold_left fmax l a)) /\
  (fold_left fmax l a = a \/ In (fold_left fmax l a) l).
Proof.
  induction l as [|b l IH]; intros a Va Vl; simpl.
  - split; [exact Va|]. split; [|now left]. intros x [->|[]] N. split; [exact N | lia].
  - inversion Vl as [|? ? Vb Vl']; subst.
    destruct (fmax_spec a b Va Vb) as (Vm & Ha & Hb & Hc).
    destruct (IH (fmax a b) Vm Vl') as (V & H & Hin).
    split; [exact V|]. split.
    + intros x [->|[->|Hx]] N.
      * destruct (Ha N) as [N' L']. destruct (H _ (or_introl eq_refl) N') as [N'' L'']. split; [assumption | lia].
      * destruct (Hb N) as [N' L']. destruct (H _ (or_introl eq_refl) N') as [N'' L'']. split; [assumption | lia].
      * apply H; [now right | exact N].
    + destruct Hin as [E|Hin]; [|now right; right].
      rewrite E. destruct Hc as [->| ->]; [now left | now right; left].
Qed.

Lemma all_valid_ravel g : all_valid g -> Forall (fun x => valid x = true) (ravel g).
Proof.
  unfold all_valid, ravel. induction 1 as [|r g Hr _ IH]; simpl; [constructor|].
  apply Forall_app. now split.
Qed.

Lemma all_valid_apply_nodata nodata band :
  all_valid band -> all_valid (apply_nodata nodata band).
Proof.
  intros H. destruct nodata as [v|]; [|exact H]. simpl. unfold mask_nodata, grid_map, all_valid.
  apply Forall_map. eapply Forall_impl; [|exact H]. intros r Hr.
  apply Forall_map. eapply Forall_impl; [|exact Hr]. intros x Hx. simpl.
  now destruct (eqb x (of_f64 v)).
Qed.

(** What the statistics guarantee about the two bounds. *)
Lemma statistics_bounds data st :
  all_valid data -> statistics data = Ok st ->
  valid (data_min st) = true /\ valid (data_max st) = true /\
  In (data_min st) (ravel data) /\ In (data_max st) (ravel data) /\
  forall x, In x (ravel data) -> is_nan x = false ->
    is_nan (data_min st) = false /\ is_nan (data_max st) = false /\
    ord (data_min st) <= ord x <= ord (data_max st).
Proof.
  intros V H. apply all_valid_ravel in V.
  unfold statistics, nanmin, nanmax, reduce in H.
  destruct (ravel data) as [|a l]; [discriminate|]. simpl in H. inversion H; subst st. clear H.
  cbn [data_min data_max]. inversion V as [|? ? Va Vl]; subst.
  destruct (fold_fmin_spec l a Va Vl) as (V1 & H1 & I1).
  destruct (fold_fmax_spec l a Va Vl) as (V2 & H2 & I2).
  split; [exact V1|]. split; [exact V2|].
  split; [destruct I1 as [->|I1]; [now left | now right]|].
  split; [destruct I2 as [->|I2]; [now left | now right]|].
  intros x Hx N.
  assert (Hx' : x = a \/ In x l) by (destruct Hx as [<-|Hx]; auto).
  destruct (H1 x Hx' N) as [N1 L1]. destruct (H2 x Hx' N) as [N2 L2].
  repeat split; assumption.
Qed.

(** ** The range of the data *)

Lemma sub_finite_inv x y :
  is_finite (sub x y) = true -> is_finite x = true /\ is_finite y = true.
Proof.
  destruct x as [sx|sx| |sx mx ex], y as [sy|sy| |sy my ey]; cbn; try discriminate; auto;
    destruct sx, sy; discriminate.
Qed.

Lemma ord_lower x : valid x = true -> - cap <= ord x <= cap.
Proof.
  intros V. destruct x as [s|s| |s m e]; cbn [ord]; try (unfold cap; lia).
  - destruct s; cbn [sgn]; unfold cap; lia.
  - pose proof (ord_finite_bounds _ _ _ V). destruct s; cbn [sgn]; lia.
Qed.

Lemma ord_cap_infinity x :
  valid x = true -> is_nan x = false -> cap <= ord x -> x = S754_infinity false.
Proof.
  intros V N H. destruct x as [s|s| |s m e]; try discriminate; cbn [ord] in H.
  - unfold cap in H. lia.
  - destruct s; cbn [sgn] in H; [unfold cap in H; lia | reflexivity].
  - pose proof (ord_finite_bounds _ _ _ V). destruct s; cbn [sgn] in H; lia.
Qed.

(** The range [hi - lo] of two numbers [lo < hi] is either a finite
    positive float or plus infinity. *)
Lemma range_cases lo hi :
  valid lo = true -> valid hi = true -> is_nan lo = false -> is_nan hi = false ->
  ord lo < ord hi ->
  sub hi lo = S754_infinity false \/
  (is_finite lo = true /\ is_finite hi = true /\ is_finite (sub hi lo) = true /\
   0 < ord (sub hi lo) /\ ord (sub hi lo) = round_int (ord hi - ord lo)).
Proof.
  intros Vlo Vhi Nlo Nhi H.
  pose proof (ord_lower lo Vlo) as Blo. pose proof (ord_lower hi Vhi) as Bhi.
  destruct (is_finite lo) eqn:Flo; [destruct (is_finite hi) eqn:Fhi|].
  - destruct (sub_ord hi lo Vhi Vlo Fhi Flo) as (Vr & Nr & Or).
    change (SFsub 24 128 hi lo) with (sub hi lo) in *.
    assert (Hpos : 0 < ord (sub hi lo)).
    { pose proof (round_int_nonneg (ord hi - ord lo) ltac:(lia)).
      destruct (Z.eq_dec (ord (sub hi lo)) 0) as [E|E]; [|lia].
      rewrite Or in E. apply round_int_pos_iff in E; lia. }
    destruct (Z_lt_le_dec (ord (sub hi lo)) cap) as [Hlt|Hge].
    + right. repeat split; try assumption. apply ord_is_finite; [exact Nr | lia].
    + left. now apply ord_cap_infinity.
  - left. destruct hi as [sh|sh| |sh mh eh]; try discriminate.
    destruct lo as [sl|sl| |sl ml el]; try discriminate; cbn [ord] in *;
      destruct sh; cbn [sgn] in *; try reflexivity; exfalso; lia.
  - left. destruct lo as [sl|sl| |sl ml el]; try discriminate.
    destruct hi as [sh|sh| |sh mh eh]; try discriminate; cbn [ord] in *;
      destruct sl, sh; cbn [sgn] in *; try reflexivity; exfalso;
      try (pose proof (ord_finite_bounds _ _ _ Vhi)); unfold cap in *; lia.
Qed.

Lemma valid_cells_in nodata band x :
  In x (valid_cells nodata band) ->
  In x (ravel (apply_nodata nodata band)) /\ is_nan x = false.
Proof.
  rewrite <- filter_is_number_masked. intros H. apply filter_In in H.
  destruct H as [H1 H2]. split; [exact H1|]. unfold is_number in H2.
  now apply negb_true_iff in H2.
Qed.

Lemma In_ravel_valid g x : all_valid g -> In x (ravel g) -> valid x = true.
Proof.
  intros V H. apply all_valid_ravel in V. rewrite Forall_forall in V. now apply V.
Qed.

(** A cell between two finite bounds, in the scaling branch. *)
Lemma scale_cell_between lo hi x :
  valid lo = true -> valid hi = true -> valid x = true -> is_nan x = false ->
  is_finite lo = true -> is_finite hi = true ->
  is_finite (sub hi lo) = true -> 0 < ord (sub hi lo) ->
  ord (sub hi lo) = round_int (ord hi - ord lo) ->
  ord lo <= ord x <= ord hi ->
  scale_cell lo hi x =
  level_byte (range_level (ord (sub hi lo)) (round_int (ord x - ord lo))).
Proof.
  intros Vlo Vhi Vx Nx Flo Fhi Fr Hr Or Hb.
  pose proof (finite_ord_bounds _ Vlo Flo). pose proof (finite_ord_bounds _ Vhi Fhi).
  assert (Fx : is_finite x = true) by (apply ord_is_finite; [exact Nx | lia]).
  apply scale_cell_finite_range; try assumption; try lia.
  destruct (sub_ord x lo Vx Vlo Fx Flo) as (_ & _ & Ot).
  change (SFsub 24 128 x lo) with (sub x lo) in *.
  rewrite Ot, Or. apply round_int_mono. lia.
Qed.

Theorem scale_cell_monotone lo hi a b :
  valid lo = true -> valid hi = true -> valid a = true -> valid b = true ->
  is_nan lo = false -> is_nan hi = false -> is_nan a = false -> is_nan b = false ->
  ord lo <= ord a -> ord a <= ord b -> ord b <= ord hi ->
  scale_cell lo hi a <= scale_cell lo hi b.
Proof.
  intros Vlo Vhi Va Vb Nlo Nhi Na Nb H1 H2 H3.
  destruct (Z.eq_dec (ord lo) (ord hi)) as [E|E].
  - (* every number has the value of the bounds *)
    assert (Ea : ord a = ord b) by lia.
    destruct (scale_cell_level lo hi a Vlo Vhi Va) as (_ & _ & -> & _).
    destruct (scale_cell_level lo hi b Vlo Vhi Vb) as (_ & _ & -> & _).
    destruct (is_finite lo) eqn:Flo.
    + pose proof (finite_ord_bounds _ Vlo Flo).
      assert (Fa : is_finite a = true) by (apply ord_is_finite; [exact Na | lia]).
      assert (Fb : is_finite b = true) by (apply ord_is_finite; [exact Nb | lia]).
      destruct (sub_ord a lo Va Vlo Fa Flo) as (_ & _ & Oa).
      destruct (sub_ord b lo Vb Vlo Fb Flo) as (_ & _ & Ob).
      change (SFsub 24 128 a lo) with (sub a lo) in *.
      change (SFsub 24 128 b lo) with (sub b lo) in *.
      replace (ord a - ord lo) with 0 in Oa by lia.
      replace (ord b - ord lo) with 0 in Ob by lia.
      rewrite round_int_0 in Oa, Ob.
      pose proof (sub_valid a lo Va Vlo) as Vta. pose proof (sub_valid b lo Vb Vlo) as Vtb.
      assert (Fta : is_finite (sub a lo) = true).
      { apply ord_is_finite; [|rewrite Oa; unfold cap; lia].
        now destruct (sub_ord a lo Va Vlo Fa Flo) as (_ & ? & _). }
      assert (Ftb : is_finite (sub b lo) = true).
      { apply ord_is_finite; [|rewrite Ob; unfold cap; lia].
        now destruct (sub_ord b lo Vb Vlo Fb Flo) as (_ & ? & _). }
      destruct (ord_zero_finite _ Vta Fta Oa) as [sa ->].
      destruct (ord_zero_finite _ Vtb Ftb Ob) as [sb ->].
      destruct (sub hi lo) as [s|s| |s m e]; cbn; try reflexivity;
        destruct sa, sb, s; cbn; reflexivity.
    + (* the bounds are one and the same infinity *)
      destruct lo as [sl|sl| |sl ml el]; try discriminate.
      assert (Ha : a = S754_infinity sl).
      { pose proof (ord_lower a Va). cbn [ord] in *. destruct sl; cbn [sgn] in *.
        - destruct a as [s|s| |s m e]; try discriminate; cbn [ord] in *.
          + unfold cap in *; lia.
          + destruct s; [reflexivity | cbn [sgn] in *; unfold cap in *; lia].
          + pose proof (ord_finite_bounds _ _ _ Va). destruct s; cbn [sgn] in *; lia.
        - now apply ord_cap_infinity; [| |lia]. }
      assert (Hb : b = S754_infinity sl).
      { pose proof (ord_lower b Vb). cbn [ord] in *. destruct sl; cbn [sgn] in *.
        - destruct b as [s|s| |s m e]; try discriminate; cbn [ord] in *.
          + unfold cap in *; lia.
          + destruct s; [reflexivity | cbn [sgn] in *; unfold cap in *; lia].
          + pose proof (ord_finite_bounds _ _ _ Vb). destruct s; cbn [sgn] in *; lia.
        - now apply ord_cap_infinity; [| |lia]. }
      subst a b. lia.
  - destruct (range_cases lo hi Vlo Vhi Nlo Nhi ltac:(lia)) as [Hinf|(Flo & Fhi & Fr & Hr & Or)].
    + rewrite !(scale_cell_infinite_range lo hi) by exact Hinf. lia.
    + rewrite (scale_cell_between lo hi a), (scale_cell_between lo hi b);
        try assumption; try lia.
      apply level_byte_mono. split.
      * apply range_level_bounds; [exact Hr|]. apply round_int_nonneg. lia.
      * apply range_level_mono; [exact Hr|]. split.
        -- apply round_int_nonneg. lia.
        -- apply round_int_mono. lia.
Qed.

Lemma scale_cell_clipped lo hi x :
  scale_cell lo hi x = astype_uint8 (mul (clipped lo hi x) f255).
Proof. reflexivity. Qed.

Lemma isclose_false_eqb x y : isclose x y = false -> eqb x y = false.
Proof. unfold isclose. intros H. now apply orb_false_elim in H. Qed.

Lemma eqb_true_number x y : eqb x y = true -> is_nan x = false /\ is_nan y = false.
Proof.
  unfold eqb, SFeqb. destruct x, y; cbn; try discriminate; auto.
Qed.

Lemma convert_scaling band nodata st :
  statistics (apply_nodata nodata band) = Ok st ->
  isclose (data_min st) (data_max st) = false ->
  convert_tiff_to_heightmap band nodata =
  Ok {| stats := st;
        elevation_range := sub (data_max st) (data_min st);
        flat_warning := false;
        scaled := grid_map (scale_cell (data_min st) (data_max st))
                           (apply_nodata nodata band) |}.
Proof.
  intros Hst Hc. rewrite (convert_unfold _ _ _ Hst), Hc. reflexivity.
Qed.

(** ** The claims on the scaling branch *)

(** C4: when the minimum and the maximum are not close, the map from the
    value of a cell to its intensity is non-decreasing on the valid cells:
    for valid cells [a] and [b] with [a < b] the intensity of [a] is at most
    that of [b]. *)
Theorem scaling_is_monotone band nodata st a b :
  all_valid band ->
  statistics (apply_nodata nodata band) = Ok st ->
  isclose (data_min st) (data_max st) = false ->
  In a (valid_cells nodata band) -> In b (valid_cells nodata band) ->
  ltb a b = true ->
  exists h,
    convert_tiff_to_heightmap band nodata = Ok h /\
    scaled h = grid_map (scale_cell (data_min st) (data_max st))
                        (apply_nodata nodata band) /\
    scale_cell (data_min st) (data_max st) a <= scale_cell (data_min st) (data_max st) b.
Proof.
  intros V Hst Hc Ha Hb Hlt.
  eexists. split; [apply (convert_scaling _ _ _ Hst Hc)|]. split; [reflexivity|].
  apply (all_valid_apply_nodata nodata) in V.
  destruct (valid_cells_in _ _ _ Ha) as [Ia Na].
  destruct (valid_cells_in _ _ _ Hb) as [Ib Nb].
  pose proof (In_ravel_valid _ _ V Ia) as Va. pose proof (In_ravel_valid _ _ V Ib) as Vb.
  destruct (statistics_bounds _ _ V Hst) as (Vlo & Vhi & _ & _ & Hbd).
  destruct (Hbd a Ia Na) as (Nlo & Nhi & Ba). destruct (Hbd b Ib Nb) as (_ & _ & Bb).
  rewrite (ltb_ord a b Va Vb Na Nb) in Hlt. apply Z.ltb_lt in Hlt.
  apply scale_cell_monotone; try assumption; lia.
Qed.

Lemma scaling_is_monotone_witness :
  exists h,
    convert_tiff_to_heightmap sample_grid None = Ok h /\
    scaled h = grid_map (scale_cell (of_Z 1) (of_Z 4)) (apply_nodata None sample_grid) /\
    scale_cell (of_Z 1) (of_Z 4) (of_Z 2) <= scale_cell (of_Z 1) (of_Z 4) (of_Z 3).
Proof.
  apply (scaling_is_monotone sample_grid None
           {| data_min := of_Z 1; data_max := of_Z 4;
              data_mean := nanmean (ravel sample_grid);
              data_stddev := nanstd (ravel sample_grid) |} (of_Z 2) (of_Z 3)).
  - repeat constructor.
  - reflexivity.
  - vm_compute. reflexivity.
  - vm_compute. auto.
  - vm_compute. auto 6.
  - vm_compute. reflexivity.
Defined.

(** C3 fails as stated.  On the grid [[-max_float, max_float]] the two
    bounds are not close and the scaling branch runs, but the range
    overflows to plus infinity: the cell that holds the maximum gets
    infinity over infinity, a NaN that the fallback turns into 0, not 255. *)
Lemma extremes_counterexample :
  exists h,
    convert_tiff_to_heightmap wide_grid None = Ok h /\
    isclose (data_min (stats h)) (data_max (stats h)) = false /\
    data_max (stats h) = max_float /\
    nth 1 (nth 0 wide_grid []) nan = data_max (stats h) /\
    nth 1 (nth 0 (scaled h) []) 0 = 0 /\
    nth 1 (nth 0 (scaled h) []) 0 <> 255.
Proof.
  eexists. split; [vm_compute; reflexivity|].
  repeat split; try (vm_compute; reflexivity). vm_compute. discriminate.
Qed.

(** C3, amended: when the minimum and the maximum are not close, every
    cell equal to the minimum is mapped to 0, whatever the range; every
    cell equal to the maximum is mapped to 255 when the difference
    [data_max - data_min] is a finite binary32 value, and to 0 when it is
    not (a bound is infinite, or the subtraction overflows). *)
Theorem extremes_map_to_0_and_255 band nodata st x :
  all_valid band ->
  statistics (apply_nodata nodata band) = Ok st ->
  isclose (data_min st) (data_max st) = false ->
  In x (ravel (apply_nodata nodata band)) ->
  exists h,
    convert_tiff_to_heightmap band nodata = Ok h /\
    scaled h = grid_map (scale_cell (data_min st) (data_max st))
                        (apply_nodata nodata band) /\
    (eqb x (data_min st) = true -> scale_cell (data_min st) (data_max st) x = 0) /\
    (eqb x (data_max st) = true ->
     scale_cell (data_min st) (data_max st) x =
     if is_finite (sub (data_max st) (data_min st)) then 255 else 0).
Proof.
  intros V Hst Hc Ix.
  eexists. split; [apply (convert_scaling _ _ _ Hst Hc)|]. split; [reflexivity|].
  apply (all_valid_apply_nodata nodata) in V.
  pose proof (In_ravel_valid _ _ V Ix) as Vx.
  destruct (statistics_bounds _ _ V Hst) as (Vlo & Vhi & Ilo & Ihi & Hbd).
  apply isclose_false_eqb in Hc.
  split; intros E; destruct (eqb_true_number _ _ E) as [Nx _];
    destruct (Hbd _ Ix Nx) as (Nlo & Nhi & Bx);
    rewrite (eqb_ord _ _ Vlo Vhi Nlo Nhi) in Hc; apply Z.eqb_neq in Hc;
    rewrite (eqb_ord _ _ Vx) in E by assumption; apply Z.eqb_eq in E;
    (destruct (range_cases _ _ Vlo Vhi Nlo Nhi ltac:(lia))
       as [Hinf|(Flo & Fhi & Fr & Hr & Or)];
     [rewrite (scale_cell_infinite_range _ _ _ Hinf), ?Hinf; reflexivity|]);
    rewrite (scale_cell_between _ _ x) by (try assumption; lia).
  - replace (ord x - ord (data_min st)) with 0 by lia.
    rewrite round_int_0, range_level_0 by exact Hr. reflexivity.
  - rewrite Fr, E, <- Or, range_level_full by exact Hr. apply level_byte_unit.
Qed.

Lemma extremes_map_to_0_and_255_witness :
  exists h,
    convert_tiff_to_heightmap sample_grid None = Ok h /\
    scaled h = grid_map (scale_cell (of_Z 1) (of_Z 4)) (apply_nodata None sample_grid) /\
    (eqb (of_Z 4) (of_Z 1) = true -> scale_cell (of_Z 1) (of_Z 4) (of_Z 4) = 0) /\
    (eqb (of_Z 4) (of_Z 4) = true ->
     scale_cell (of_Z 1) (of_Z 4) (of_Z 4) =
     if is_finite (sub (of_Z 4) (of_Z 1)) then 255 else 0).
Proof.
  apply (extremes_map_to_0_and_255 sample_grid None
           {| data_min := of_Z 1; data_max := of_Z 4;
              data_mean := nanmean (ravel sample_grid);
              data_stddev := nanstd (ravel sample_grid) |} (of_Z 4)).
  - repeat constructor.
  - reflexivity.
  - vm_compute. reflexivity.
  - vm_compute. auto 6.
Defined.

(** ** The cast and the rational value *)

Lemma to_Q_finite y : is_finite y = true -> exists q, to_Q y = Some q.
Proof.
  destruct y as [s|s| |s m e]; try discriminate; cbn [to_Q]; eauto.
Qed.

Lemma Qtruncate_inject z : Qtruncate (inject_Z z) = z.
Proof.
  unfold Qtruncate. destruct (Qle_bool 0 (inject_Z z)).
  - apply Qfloor_Z.
  - apply Qceiling_Z.
Qed.

Lemma Qtruncate_fraction (m d : positive) : Qtruncate (Z.pos m # d) = Z.pos m / Z.pos d.
Proof. reflexivity. Qed.

Lemma Qtruncate_opp_fraction (m d : positive) :
  Qtruncate (- (Z.pos m # d)) = - (Z.pos m / Z.pos d).
Proof. reflexivity. Qed.

Lemma Qtruncate_opp_inject z : Qtruncate (- inject_Z z) = - z.
Proof.
  change (- inject_Z z)%Q with (inject_Z (- z)). apply Qtruncate_inject.
Qed.

(** The integer part taken by the cast is the truncation of the exact
    rational value of the float. *)
Lemma Some_inj {A} (a b : A) : Some a = Some b -> a = b.
Proof. congruence. Qed.

Lemma trunc_Qtruncate y q : to_Q y = Some q -> trunc y = Qtruncate q.
Proof.
  destruct y as [s|s| |s m e]; cbn [to_Q trunc]; try discriminate;
    intros H; apply Some_inj in H; subst q; [reflexivity|].
  destruct e as [|p|p].
  - destruct s; rewrite ?Qtruncate_opp_inject, ?Qtruncate_inject, Z.shiftl_0_r; lia.
  - destruct s; rewrite ?Qtruncate_opp_inject, ?Qtruncate_inject, Z.shiftl_mul_pow2;
      lia.
  - destruct s; rewrite ?Qtruncate_opp_fraction, ?Qtruncate_fraction,
      Z.shiftr_div_pow2, Pos2Z.inj_pow; lia.
Qed.

(** C6: in the scaling branch the intensity stored for a cell is the
    integer part, taken toward zero, of the binary32 product of its clipped
    value by 255; it is not the nearest integer, see [half_range_is_127]. *)
Theorem cast_truncates band nodata st x :
  all_valid band ->
  statistics (apply_nodata nodata band) = Ok st ->
  isclose (data_min st) (data_max st) = false ->
  In x (ravel (apply_nodata nodata band)) ->
  exists h q,
    convert_tiff_to_heightmap band nodata = Ok h /\
    scaled h = grid_map (scale_cell (data_min st) (data_max st))
                        (apply_nodata nodata band) /\
    to_Q (mul (clipped (data_min st) (data_max st) x) f255) = Some q /\
    scale_cell (data_min st) (data_max st) x = Qtruncate q.
Proof.
  intros V Hst Hc Ix.
  apply (all_valid_apply_nodata nodata) in V.
  pose proof (In_ravel_valid _ _ V Ix) as Vx.
  destruct (statistics_bounds _ _ V Hst) as (Vlo & Vhi & _).
  destruct (scale_cell_level _ _ x Vlo Vhi Vx) as (Fy & Ty & Ey & _).
  destruct (to_Q_finite _ Fy) as [q Hq].
  eexists. exists q. split; [apply (convert_scaling _ _ _ Hst Hc)|].
  split; [reflexivity|]. split; [exact Hq|].
  rewrite Ey, <- Ty. now apply trunc_Qtruncate.
Qed.

Lemma cast_truncates_witness :
  exists h q,
    convert_tiff_to_heightmap half_grid None = Ok h /\
    scaled h = grid_map (scale_cell zero one) (apply_nodata None half_grid) /\
    to_Q (mul (clipped zero one (S754_finite false 8388608 (-24))) f255) = Some q /\
    scale_cell zero one (S754_finite false 8388608 (-24)) = Qtruncate q.
Proof.
  apply (cast_truncates half_grid None
           {| data_min := zero; data_max := one;
              data_mean := nanmean (ravel half_grid);
              data_stddev := nanstd (ravel half_grid) |}
           (S754_finite false 8388608 (-24))).
  - repeat constructor.
  - reflexivity.
  - vm_compute. reflexivity.
  - vm_compute. auto.
Defined.

(** The cast truncates: one half of the range gives 127, not 128. *)
Example half_range_is_127 :
  exists h q,
    convert_tiff_to_heightmap half_grid None = Ok h /\
    scaled h = [[0; 127; 255]] /\
    to_Q (mul (clipped zero one (S754_finite false 8388608 (-24))) f255) = Some q /\
    (q == 255 # 2)%Q.
Proof.
  do 2 eexists. split; [vm_compute; reflexivity|]. repeat split; vm_compute; reflexivity.
Qed.

(** C5: for every non-empty grid, with or without a sentinel and whatever
    its cells hold (only sentinels, NaN, infinities), the conversion returns
    a grid whose cells all lie in the closed range from 0 to 255. *)
Theorem output_in_byte_range band nodata :
  ravel band <> [] ->
  exists h,
    convert_tiff_to_heightmap band nodata = Ok h /\
    Forall (Forall (fun c => 0 <= c <= 255)) (scaled h).
Proof.
  intros Hne.
  destruct (statistics_total (apply_nodata nodata band)) as [st Hst].
  { now apply ravel_apply_nodata_nil. }
  eexists. split; [apply (convert_unfold _ _ _ Hst)|]. cbn [scaled].
  destruct (isclose (data_min st) (data_max st)).
  - apply Forall_grid_map. intros _. lia.
  - apply Forall_grid_map. intros x. unfold scale_cell, astype_uint8.
    pose proof (Z.mod_pos_bound
                  (trunc (mul (clipped (data_min st) (data_max st) x) f255)) 256).
    lia.
Qed.

Lemma output_in_byte_range_witness :
  exists h,
    convert_tiff_to_heightmap nodata_grid (Some nodata_9999) = Ok h /\
    Forall (Forall (fun c => 0 <= c <= 255)) (scaled h).
Proof.
  apply (output_in_byte_range nodata_grid (Some nodata_9999)). discriminate.
Defined.

(** C8: on a non-empty grid of binary32 values the conversion raises
    nothing and returns a grid of the shape of its input.  In the degenerate
    branch every cell is 128.  In the scaling branch the clip and the
    fallback leave in every cell a finite value between 0 and 1, whose
    product by 255 is finite with an integer part between 0 and 255; that
    integer is the intensity stored. *)
Theorem conversion_never_raises band nodata :
  all_valid band -> ravel band <> [] ->
  exists h,
    convert_tiff_to_heightmap band nodata = Ok h /\
    map (@length Z) (scaled h) = map (@length float32) band /\
    (flat_warning h = true -> Forall (Forall (fun c => c = 128)) (scaled h)) /\
    (flat_warning h = false ->
     forall x, In x (ravel (apply_nodata nodata band)) ->
       let c := clipped (data_min (stats h)) (data_max (stats h)) x in
       is_finite c = true /\ leb zero c = true /\ leb c one = true /\
       is_finite (mul c f255) = true /\
       0 <= trunc (mul c f255) <= 255 /\
       scale_cell (data_min (stats h)) (data_max (stats h)) x = trunc (mul c f255)).
Proof.
  intros V Hne.
  destruct (statistics_total (apply_nodata nodata band)) as [st Hst].
  { now apply ravel_apply_nodata_nil. }
  eexists. split; [apply (convert_unfold _ _ _ Hst)|]. cbn [scaled flat_warning stats].
  apply (all_valid_apply_nodata nodata) in V.
  destruct (statistics_bounds _ _ V Hst) as (Vlo & Vhi & _).
  destruct (isclose (data_min st) (data_max st)).
  - split; [now rewrite grid_map_shape, apply_nodata_shape|].
    split; [|discriminate]. intros _. now apply Forall_grid_map.
  - split; [now rewrite grid_map_shape, apply_nodata_shape|].
    split; [discriminate|]. intros _ x Ix. cbv zeta.
    pose proof (In_ravel_valid _ _ V Ix) as Vx.
    destruct (scale_cell_level _ _ x Vlo Vhi Vx) as (Fy & Ty & Ey & Hb).
    assert (Vt : valid (div (sub x (data_min st)) (sub (data_max st) (data_min st))) = true)
      by (apply div_valid; apply sub_valid; assumption).
    destruct (clip_level _ Vt) as (Vu & Fu & Su & Ou).
    fold (clipped (data_min st) (data_max st) x) in *.
    assert (Nu : is_nan (clipped (data_min st) (data_max st) x) = false)
      by (destruct (clipped (data_min st) (data_max st) x); try discriminate; reflexivity).
    assert (Hl : 0 <= ord (clipped (data_min st) (data_max st) x) <= unit_ord).
    { rewrite Ou. unfold cell_level. pose proof unit_below_cap.
      match goal with |- context [is_nan ?t] => destruct (is_nan t) end; lia. }
    repeat split; try assumption; try lia.
    + rewrite (leb_ord zero _ valid_zero Vu eq_refl Nu). apply Z.leb_le.
      change (ord zero) with 0. lia.
    + rewrite (leb_ord _ one Vu valid_one Nu eq_refl), ord_one. apply Z.leb_le. lia.
Qed.

Lemma conversion_never_raises_witness :
  exists h,
    convert_tiff_to_heightmap mixed_grid None = Ok h /\
    map (@length Z) (scaled h) = map (@length float32) mixed_grid /\
    (flat_warning h = true -> Forall (Forall (fun c => c = 128)) (scaled h)) /\
    (flat_warning h = false ->
     forall x, In x (ravel (apply_nodata None mixed_grid)) ->
       let c := clipped (data_min (stats h)) (data_max (stats h)) x in
       is_finite c = true /\ leb zero c = true /\ leb c one = true /\
       is_finite (mul c f255) = true /\
       0 <= trunc (mul c f255) <= 255 /\
       scale_cell (data_min (stats h)) (data_max (stats h)) x = trunc (mul c f255)).
Proof.
  apply (conversion_never_raises mixed_grid None).
  - repeat constructor.
  - discriminate.
Defined.

(** ** The band as read, the printed report and the script *)

Lemma binary_round_valid s m e :
  valid (binary_round 24 128 s m e) = true /\
  is_nan (binary_round 24 128 s m e) = false.
Proof.
  unfold binary_round.
  destruct (shl_align_spec m e (fexp 24 128 (Z.pos (digits2_pos m) + e))) as [H1 H2].
  change (Z.pos (digits2_pos m)) with (Zdigits2 (Z.pos m)) in *.
  destruct (shl_align m e _) as [mz ez]. cbn [fst snd] in H1, H2.
  assert (Hd : Zdigits2 (Z.pos mz) + ez = Zdigits2 (Z.pos m) + e).
  { rewrite H2, Zdigits2_mul_pow2 by lia. lia. }
  assert (Hex : ez <= round_exp (Z.pos mz) ez).
  { unfold round_exp. rewrite Hd. lia. }
  assert (Hloc : located (Z.pos mz) 1 (shr_record_of_loc (Z.pos mz) loc_Exact)).
  { rewrite <- (Z.mul_1_r (Z.pos mz)) at 1. apply located_exact. lia. }
  pose proof (binary_round_aux_ord s (Z.pos mz) 1 (Z.pos mz) ez loc_Exact
                ltac:(lia) ltac:(lia) Hloc Hex) as (V & N & _).
  split; assumption.
Qed.

Lemma of_f64_valid x : valid (of_f64 x) = true.
Proof.
  destruct x as [s|s| |s m e]; try reflexivity. apply binary_round_valid.
Qed.

Lemma of_Z_ord z :
  valid (of_Z z) = true /\ is_nan (of_Z z) = false /\
  ord (of_Z z) = round_int (z * unit_ord).
Proof.
  destruct (binary_normalize_ord z 0 ltac:(lia)) as (V & N & O).
  repeat split; assumption.
Qed.

Lemma cast_float32_valid c : valid (cast_float32 c) = true.
Proof.
  destruct c as [z|x]; [apply of_Z_ord | apply of_f64_valid].
Qed.

Lemma round_units_small z :
  0 <= z <= 2 ^ 24 -> round_units (z * unit_ord) 1 = z * unit_ord.
Proof.
  intros H. destruct (Z.eq_dec z 0) as [->|Hz]; [reflexivity|].
  destruct (Z.eq_dec z (2 ^ 24)) as [->|Hm]; [vm_compute; reflexivity|].
  assert (Hd : Zdigits2 z <= 24) by (apply Zdigits2_le; lia).
  pose proof (Zdigits2_pos z ltac:(lia)) as Hp.
  unfold round_units, round_shift, unit_ord.
  rewrite Z.div_1_r, Zdigits2_mul_pow2 by lia.
  replace (Z.max (Zdigits2 z + 149 - 24) 0) with (Zdigits2 z + 125) by lia.
  rewrite Z.mul_1_l.
  assert (E : z * 2 ^ 149 = z * 2 ^ (24 - Zdigits2 z) * 2 ^ (Zdigits2 z + 125)).
  { rewrite <- Z.mul_assoc, <- Z.pow_add_r by lia. f_equal. f_equal. lia. }
  rewrite E at 1. rewrite rne_exact by (apply pow2_pos; lia). symmetry. exact E.
Qed.

Lemma round_int_small z :
  - 2 ^ 24 <= z <= 2 ^ 24 -> round_int (z * unit_ord) = z * unit_ord.
Proof.
  intros H. pose proof unit_below_cap as Hu.
  assert (Hc : 2 ^ 24 * unit_ord < cap) by reflexivity.
  destruct (Z.lt_trichotomy z 0) as [Hn|[->|Hp]].
  - rewrite round_int_neg by nia.
    replace (- (z * unit_ord)) with (- z * unit_ord) by lia.
    rewrite round_units_small by lia. nia.
  - reflexivity.
  - rewrite round_int_pos by nia. rewrite round_units_small by lia. nia.
Qed.

Lemma trunc_quot x :
  valid x = true -> is_finite x = true -> trunc x = Z.quot (ord x) unit_ord.
Proof.
  intros V F. pose proof unit_below_cap as Hu.
  destruct x as [s|s| |s m e]; try discriminate; [reflexivity|].
  pose proof (ord_finite_bounds _ _ _ V) as Hb.
  pose proof (trunc_ord (S754_finite false m e) V eq_refl (or_introl eq_refl)) as Ht.
  cbn [ord sgn] in Ht. destruct s; cbn [ord sgn].
  - rewrite Z.quot_opp_l, Z.quot_div_nonneg by lia. rewrite <- Ht. reflexivity.
  - rewrite Z.quot_div_nonneg by lia. exact Ht.
Qed.

Lemma astype_float32_valid raw : all_valid (astype_float32 raw).
Proof.
  unfold astype_float32, all_valid, grid_map.
  apply Forall_map, Forall_forall. intros r _.
  apply Forall_map, Forall_forall. intros c _. apply cast_float32_valid.
Qed.

(** X1 (line 18, [astype(np.float32)]): a stored integer of magnitude at
    most 2^24 is read without rounding: the binary32 cell has exactly the
    value of the integer, and truncating it gives the integer back. *)
Theorem integer_sample_is_exact z :
  - 2 ^ 24 <= z <= 2 ^ 24 ->
  ord (cast_float32 (IntSample z)) = z * unit_ord /\
  trunc (cast_float32 (IntSample z)) = z.
Proof.
  intros H. cbn [cast_float32]. destruct (of_Z_ord z) as (V & N & O).
  rewrite round_int_small in O by exact H. split; [exact O|].
  pose proof unit_below_cap as Hu.
  assert (Hc : 2 ^ 24 * unit_ord < cap) by reflexivity.
  rewrite trunc_quot, O.
  - apply Z.quot_mul. lia.
  - exact V.
  - apply ord_is_finite; [exact N|]. rewrite O. nia.
Qed.

Lemma integer_sample_is_exact_witness :
  ord (cast_float32 (IntSample (-9999))) = -9999 * unit_ord /\
  trunc (cast_float32 (IntSample (-9999))) = -9999.
Proof.
  apply (integer_sample_is_exact (-9999)). split; vm_compute; discriminate.
Defined.

Lemma of_Z_mono z z' : z <= z' -> ord (of_Z z) <= ord (of_Z z').
Proof.
  intros H. destruct (of_Z_ord z) as (_ & _ & ->). destruct (of_Z_ord z') as (_ & _ & ->).
  apply round_int_mono. pose proof unit_below_cap. nia.
Qed.

(** X2 (line 18): the cast of integer samples keeps their order: a sample
    that is not larger gives a cell that is not larger, also beyond 2^24
    where the cast rounds. *)
Theorem integer_cast_is_monotone z z' :
  z <= z' ->
  leb (cast_float32 (IntSample z)) (cast_float32 (IntSample z')) = true.
Proof.
  intros H. cbn [cast_float32]. pose proof (of_Z_mono z z' H) as M.
  destruct (of_Z_ord z) as (V & N & O). destruct (of_Z_ord z') as (V' & N' & O').
  rewrite (leb_ord _ _ V V' N N'). apply Z.leb_le. exact M.
Qed.

Lemma integer_cast_is_monotone_witness :
  leb (cast_float32 (IntSample 16777217)) (cast_float32 (IntSample 16777218)) = true.
Proof.
  apply (integer_cast_is_monotone 16777217 16777218). lia.
Defined.

Lemma convert_Ok_inv band nodata h :
  convert_tiff_to_heightmap band nodata = Ok h ->
  exists st,
    statistics (apply_nodata nodata band) = Ok st /\
    stats h = st /\
    elevation_range h = sub (data_max st) (data_min st) /\
    flat_warning h = isclose (data_min st) (data_max st) /\
    scaled h = (if isclose (data_min st) (data_max st)
                then grid_map (fun _ => 128) (apply_nodata nodata band)
                else grid_map (scale_cell (data_min st) (data_max st))
                              (apply_nodata nodata band)) /\
    ravel (apply_nodata nodata band) <> [].
Proof.
  intros H. destruct (statistics (apply_nodata nodata band)) as [st|e] eqn:Hst.
  - rewrite (convert_unfold _ _ _ Hst) in H. inversion H; subst h. clear H.
    exists st. cbn. repeat split.
    intros E. unfold statistics, nanmin, reduce in Hst. rewrite E in Hst. discriminate.
  - unfold convert_tiff_to_heightmap in H. rewrite Hst in H. discriminate.
Qed.

Lemma ravel_apply_nodata_eq_nil nodata band :
  ravel (apply_nodata nodata band) = [] <-> ravel band = [].
Proof.
  destruct nodata as [v|]; [|reflexivity]. simpl. unfold mask_nodata.
  rewrite ravel_grid_map. destruct (ravel band); simpl; split; congruence.
Qed.

Lemma convert_cases band nodata :
  (ravel band = [] /\ convert_tiff_to_heightmap band nodata = Raised ValueError_zero_size) \/
  (ravel band <> [] /\ exists h, convert_tiff_to_heightmap band nodata = Ok h).
Proof.
  destruct (ravel band) as [|x l] eqn:E.
  - left. split; [reflexivity|].
    apply (ravel_apply_nodata_eq_nil nodata) in E.
    unfold convert_tiff_to_heightmap, statistics, nanmin, reduce. now rewrite E.
  - right. split; [discriminate|].
    destruct (statistics_total (apply_nodata nodata band)) as [st Hst].
    { apply ravel_apply_nodata_nil. congruence. }
    eexists. apply (convert_unfold _ _ _ Hst).
Qed.

Lemma ravel_astype_float32_nil raw : ravel (astype_float32 raw) = [] <-> ravel raw = [].
Proof.
  unfold astype_float32. rewrite ravel_grid_map.
  destruct (ravel raw); cbn; split; congruence.
Qed.

(** X3 (lines 18 to 28): the computation raises, from [np.nanmin], exactly
    when the band has no cell at all; every band with at least one cell,
    whatever it holds, gives a result. *)
Theorem raises_exactly_on_zero_size raw nodata :
  (convert_raster raw nodata = Raised ValueError_zero_size <-> ravel raw = []) /\
  ((exists h, convert_raster raw nodata = Ok h) <-> ravel raw <> []).
Proof.
  unfold convert_raster. rewrite <- ravel_astype_float32_nil.
  destruct (convert_cases (astype_float32 raw) nodata) as [[E H]|[E [h H]]];
    rewrite H; repeat split; try congruence; eauto.
  intros [h0 H0]. discriminate.
Qed.

Lemma shape_is_preserved band nodata h :
  convert_tiff_to_heightmap band nodata = Ok h ->
  map (@List.length Z) (scaled h) = map (@List.length float32) band.
Proof.
  intros H. destruct (convert_Ok_inv _ _ _ H) as (st & _ & _ & _ & _ & Hs & _).
  rewrite Hs. destruct (isclose _ _); now rewrite grid_map_shape, apply_nodata_shape.
Qed.

Lemma valid_cells_iff nodata band x :
  In x (valid_cells nodata band) <->
  In x (ravel (apply_nodata nodata band)) /\ is_nan x = false.
Proof.
  rewrite <- filter_is_number_masked, filter_In. unfold is_number.
  now rewrite negb_true_iff.
Qed.

(** X4 (lines 28 and 29): when some cell is valid, the printed minimum
    and maximum are themselves valid cells of the band, and every valid
    cell lies between them. *)
Theorem extrema_bound_the_valid_cells raw nodata h x :
  convert_raster raw nodata = Ok h ->
  In x (valid_cells nodata (astype_float32 raw)) ->
  In (data_min (stats h)) (valid_cells nodata (astype_float32 raw)) /\
  In (data_max (stats h)) (valid_cells nodata (astype_float32 raw)) /\
  leb (data_min (stats h)) x = true /\
  leb x (data_max (stats h)) = true.
Proof.
  intros H Hx. destruct (convert_Ok_inv _ _ _ H) as (st & Hst & -> & _).
  pose proof (all_valid_apply_nodata nodata _ (astype_float32_valid raw)) as V.
  destruct (statistics_bounds _ _ V Hst) as (Vlo & Vhi & Ilo & Ihi & Hb).
  apply valid_cells_iff in Hx. destruct Hx as [Ix Nx].
  destruct (Hb x Ix Nx) as (Nlo & Nhi & Hle).
  pose proof (In_ravel_valid _ _ V Ix) as Vx.
  rewrite !valid_cells_iff, (leb_ord _ _ Vlo Vx Nlo Nx), (leb_ord _ _ Vx Vhi Nx Nhi).
  repeat split; try assumption; apply Z.leb_le; lia.
Qed.

Lemma extrema_bound_the_valid_cells_witness :
  exists h,
    convert_raster int_raster (Some nodata_9999) = Ok h /\
    In (data_min (stats h)) (valid_cells (Some nodata_9999) (astype_float32 int_raster)) /\
    In (data_max (stats h)) (valid_cells (Some nodata_9999) (astype_float32 int_raster)) /\
    leb (data_min (stats h)) (of_Z 175) = true /\
    leb (of_Z 175) (data_max (stats h)) = true.
Proof.
  eexists. split; [vm_compute; reflexivity|].
  apply (extrema_bound_the_valid_cells int_raster (Some nodata_9999)).
  - vm_compute. reflexivity.
  - vm_compute. auto.
Defined.

(** X5 (line 39): the printed elevation range is never below zero; with
    finite minimum and maximum it is a finite number or [+inf] (the
    subtraction can overflow), and it is zero exactly when the two are
    equal. *)
Theorem elevation_range_is_not_negative raw nodata h :
  convert_raster raw nodata = Ok h ->
  ltb (elevation_range h) zero = false /\
  (is_finite (data_min (stats h)) = true -> is_finite (data_max (stats h)) = true ->
   is_finite (elevation_range h) = true \/ elevation_range h = S754_infinity false) /\
  (is_finite (data_min (stats h)) = true -> is_finite (data_max (stats h)) = true ->
   eqb (elevation_range h) zero = eqb (data_max (stats h)) (data_min (stats h))).
Proof.
  intros H. destruct (convert_Ok_inv _ _ _ H) as (st & Hst & -> & -> & _).
  pose proof (all_valid_apply_nodata nodata _ (astype_float32_valid raw)) as V.
  destruct (statistics_bounds _ _ V Hst) as (Vlo & Vhi & Ilo & Ihi & Hb).
  pose proof (sub_valid _ _ Vhi Vlo) as Vr.
  assert (Hfin : is_finite (data_min st) = true -> is_finite (data_max st) = true ->
                 is_nan (sub (data_max st) (data_min st)) = false /\
                 ord (sub (data_max st) (data_min st)) =
                 round_int (ord (data_max st) - ord (data_min st)) /\
                 ord (data_min st) <= ord (data_max st)).
  { intros Flo Fhi.
    assert (Nlo : is_nan (data_min st) = false) by (now destruct (data_min st)).
    destruct (Hb _ Ilo Nlo) as (_ & _ & Hle).
    destruct (sub_ord _ _ Vhi Vlo Fhi Flo) as (_ & N & O).
    repeat split; try assumption; lia. }
  split; [|split].
  - destruct (is_nan (data_min st)) eqn:Nlo.
    { destruct (data_min st); try discriminate.
      now destruct (data_max st) as [s|s| |s m e]. }
    destruct (Hb _ Ilo Nlo) as (_ & Nhi & Hle).
    destruct (is_finite (data_min st)) eqn:Flo; [destruct (is_finite (data_max st)) eqn:Fhi|].
    + destruct (Hfin eq_refl eq_refl) as (N & O & _).
      rewrite (ltb_ord _ _ Vr valid_zero N eq_refl), O. change (ord zero) with 0.
      apply Z.ltb_ge, round_int_nonneg. lia.
    + destruct (data_max st) as [sh|sh| |sh mh eh]; try discriminate.
      destruct (data_min st) as [sl|sl| |sl ml el]; try discriminate;
        destruct sh; try reflexivity; exfalso; cbn [ord sgn] in Hle;
        try (pose proof (ord_finite_bounds _ _ _ Vlo)); unfold cap in *;
        try (destruct sl; cbn [sgn] in *); lia.
    + destruct (data_min st) as [sl|sl| |sl ml el]; try discriminate.
      destruct (data_max st) as [sh|sh| |sh mh eh]; try discriminate;
        destruct sl, sh; try reflexivity; exfalso; cbn [ord sgn] in Hle;
        try (pose proof (ord_finite_bounds _ _ _ Vhi)); unfold cap in *; lia.
  - intros Flo Fhi. destruct (Hfin Flo Fhi) as (N & O & Hle).
    destruct (Z_lt_le_dec (ord (sub (data_max st) (data_min st))) cap) as [Hlt|Hge].
    + left. apply ord_is_finite; [exact N|].
      pose proof (round_int_nonneg (ord (data_max st) - ord (data_min st)) ltac:(lia)).
      unfold cap in *. lia.
    + right. now apply ord_cap_infinity.
  - intros Flo Fhi. destruct (Hfin Flo Fhi) as (N & O & Hle).
    assert (Nlo : is_nan (data_min st) = false) by (now destruct (data_min st)).
    assert (Nhi : is_nan (data_max st) = false) by (now destruct (data_max st)).
    rewrite (eqb_ord _ _ Vr valid_zero N eq_refl), (eqb_ord _ _ Vhi Vlo Nhi Nlo), O.
    change (ord zero) with 0.
    destruct (Z.eqb_spec (ord (data_max st)) (ord (data_min st))) as [E|E].
    + rewrite E, Z.sub_diag, round_int_0. reflexivity.
    + apply Z.eqb_neq. intros E0. apply round_int_pos_iff in E0; lia.
Qed.

Lemma elevation_range_is_not_negative_witness :
  exists h,
    convert_raster int_raster (Some nodata_9999) = Ok h /\
    ltb (elevation_range h) zero = false /\
    (is_finite (data_min (stats h)) = true -> is_finite (data_max (stats h)) = true ->
     is_finite (elevation_range h) = true \/ elevation_range h = S754_infinity false) /\
    (is_finite (data_min (stats h)) = true -> is_finite (data_max (stats h)) = true ->
     eqb (elevation_range h) zero = eqb (data_max (stats h)) (data_min (stats h))).
Proof.
  eexists. split; [vm_compute; reflexivity|].
  apply (elevation_range_is_not_negative int_raster (Some nodata_9999)).
  vm_compute. reflexivity.
Defined.

Lemma eqb_trans_r a b c : eqb a c = true -> eqb b c = true -> eqb a b = true.
Proof.
  unfold eqb, SFeqb, SFcompare.
  destruct a as [sa|sa| |sa ma ea], b as [sb|sb| |sb mb eb], c as [sc|sc| |sc mc ec];
    try discriminate; try reflexivity;
    try (destruct sa, sb, sc; (discriminate || reflexivity)).
  destruct sa, sc; try discriminate; destruct sb; try discriminate;
    destruct (Z.compare_spec ea ec) as [E1|E1|E1]; try discriminate;
    destruct (Z.compare_spec eb ec) as [E2|E2|E2]; try discriminate;
    subst; rewrite Z.compare_refl;
    try rewrite !Pos.compare_cont_spec; cbn [Pos.switch_Eq CompOpp];
    destruct (Pos.compare_spec ma mc) as [E3|E3|E3]; try discriminate;
    destruct (Pos.compare_spec mb mc) as [E4|E4|E4]; try discriminate;
    subst; now rewrite Pos.compare_refl.
Qed.

Lemma fold_least_eqb c l : forall a,
  eqb a c = true -> Forall (fun x => eqb x c = true) l ->
  eqb (fold_left least l a) c = true.
Proof.
  induction l as [|b l IH]; intros a Ha Hl; [exact Ha|].
  inversion Hl; subst. cbn [fold_left]. apply IH; [|assumption].
  unfold least. now destruct (leb a b).
Qed.

Lemma fold_greatest_eqb c l : forall a,
  eqb a c = true -> Forall (fun x => eqb x c = true) l ->
  eqb (fold_left greatest l a) c = true.
Proof.
  induction l as [|b l IH]; intros a Ha Hl; [exact Ha|].
  inversion Hl; subst. cbn [fold_left]. apply IH; [|assumption].
  unfold greatest. now destruct (leb b a).
Qed.

Lemma valid_cells_ravel_nonempty nodata band :
  valid_cells nodata band <> [] -> ravel (apply_nodata nodata band) <> [].
Proof.
  intros H E. apply ravel_apply_nodata_eq_nil in E.
  unfold valid_cells in H. now rewrite E in H.
Qed.

Lemma statistics_extrema nodata band st :
  statistics (apply_nodata nodata band) = Ok st ->
  data_min st = spec_extremum least (valid_cells nodata band) /\
  data_max st = spec_extremum greatest (valid_cells nodata band).
Proof.
  unfold statistics, nanmin, nanmax, reduce. rewrite <- filter_is_number_masked.
  destruct (ravel (apply_nodata nodata band)) as [|x t]; [discriminate|].
  cbn [bind]. intros [= <-]. cbn [data_min data_max].
  now rewrite reduce_fmin_filter, reduce_fmax_filter.
Qed.

(** X7 (lines 24 to 46): when the band has a valid cell and all its valid
    cells compare equal (signed zeros included), minimum and maximum are
    that value, the warning is raised and every cell of the image, the
    invalid ones too, is 128. *)
Theorem constant_raster_is_flat_gray band nodata c l :
  valid_cells nodata band = c :: l ->
  Forall (fun x => eqb x c = true) l ->
  exists h,
    convert_tiff_to_heightmap band nodata = Ok h /\
    eqb (data_min (stats h)) c = true /\
    eqb (data_max (stats h)) c = true /\
    flat_warning h = true /\
    scaled h = grid_map (fun _ => 128) band.
Proof.
  intros Hv Hl.
  assert (Hne : ravel (apply_nodata nodata band) <> []).
  { apply valid_cells_ravel_nonempty. now rewrite Hv. }
  destruct (statistics_total _ Hne) as [st Hst].
  destruct (statistics_extrema _ _ _ Hst) as [Hlo Hhi].
  rewrite Hv in Hlo, Hhi. cbn [spec_extremum] in Hlo, Hhi.
  assert (Hc : eqb c c = true).
  { pose proof (valid_cells_numbers nodata band) as N. rewrite Hv in N.
    inversion N; subst. unfold eqb, SFeqb, SFcompare.
    destruct c as [s|s| |s m e]; try discriminate; try (now destruct s).
    destruct s; rewrite Z.compare_refl; try rewrite Pos.compare_cont_spec;
      now rewrite Pos.compare_refl. }
  pose proof (fold_least_eqb c l c Hc Hl) as Elo.
  pose proof (fold_greatest_eqb c l c Hc Hl) as Ehi.
  rewrite <- Hlo in Elo. rewrite <- Hhi in Ehi.
  assert (Hclose : isclose (data_min st) (data_max st) = true).
  { unfold isclose. rewrite (eqb_trans_r _ _ _ Elo Ehi). apply orb_true_r. }
  eexists. split; [apply (convert_unfold _ _ _ Hst)|]. cbn.
  rewrite Hclose. repeat split; try assumption.
  apply grid_map_const_apply_nodata.
Qed.

Lemma constant_raster_is_flat_gray_witness :
  exists h,
    convert_tiff_to_heightmap zeros_grid (Some nodata_9999) = Ok h /\
    eqb (data_min (stats h)) (S754_zero false) = true /\
    eqb (data_max (stats h)) (S754_zero false) = true /\
    flat_warning h = true /\
    scaled h = grid_map (fun _ => 128) zeros_grid.
Proof.
  apply (constant_raster_is_flat_gray zeros_grid (Some nodata_9999)
           (S754_zero false) [S754_zero true]).
  - vm_compute. reflexivity.
  - repeat constructor.
Defined.

Lemma scale_cell_nan lo hi : scale_cell lo hi nan = 0.
Proof.
  unfold scale_cell, clipped.
  assert (E : sub nan lo = nan) by (now destruct lo).
  rewrite E.
  assert (E' : div nan (sub hi lo) = nan) by (now destruct (sub hi lo)).
  rewrite E'. reflexivity.
Qed.

(** X8 (lines 25 and 50 to 59): in the scaling branch a cell that is NaN
    or equal to the no-data value becomes 0, whatever the range; the other
    cells are scaled from their own value. *)
Theorem invalid_cells_are_black band nodata h :
  convert_tiff_to_heightmap band nodata = Ok h ->
  flat_warning h = false ->
  scaled h =
  grid_map (fun x => if is_valid_cell nodata x
                     then scale_cell (data_min (stats h)) (data_max (stats h)) x
                     else 0) band.
Proof.
  intros H W. destruct (convert_Ok_inv _ _ _ H) as (st & _ & -> & _ & Hw & Hs & _).
  rewrite Hw in W. rewrite Hs, W, apply_nodata_cells, grid_map_grid_map.
  apply grid_map_ext_in. intros x _.
  destruct (is_valid_cell nodata x); [reflexivity | apply scale_cell_nan].
Qed.

Lemma invalid_cells_are_black_witness :
  exists h,
    convert_tiff_to_heightmap holed_grid (Some nodata_9999) = Ok h /\
    scaled h =
    grid_map (fun x => if is_valid_cell (Some nodata_9999) x
                       then scale_cell (data_min (stats h)) (data_max (stats h)) x
                       else 0) holed_grid.
Proof.
  eexists. split; [vm_compute; reflexivity|].
  apply (invalid_cells_are_black holed_grid (Some nodata_9999));
    vm_compute; reflexivity.
Defined.

Lemma scaling_reaches_black raw nodata h :
  convert_raster raw nodata = Ok h ->
  flat_warning h = false -> In 0 (ravel (scaled h)).
Proof.
  intros H.
  destruct (convert_Ok_inv _ _ _ H) as (st & Hst & _ & _ & Hw & Hs & Hne).
  intros W. rewrite Hw in W. rewrite Hs, W, ravel_grid_map.
  pose proof (all_valid_apply_nodata nodata _ (astype_float32_valid raw)) as V.
  destruct (statistics_bounds _ _ V Hst) as (Vlo & Vhi & Ilo & Ihi & Hb).
  destruct (is_nan (data_min st)) eqn:Nlo.
  - destruct (data_min st) eqn:E; try discriminate.
    change S754_nan with nan in Ilo.
    rewrite <- (scale_cell_nan nan (data_max st)). now apply in_map.
  - destruct (Hb _ Ilo Nlo) as (_ & Nhi & Hle).
    apply isclose_false_eqb in W. rewrite (eqb_ord _ _ Vlo Vhi Nlo Nhi) in W.
    apply Z.eqb_neq in W.
    assert (Hlt : ord (data_min st) < ord (data_max st)) by lia.
    apply in_map_iff. exists (data_min st). split; [|exact Ilo].
    destruct (range_cases _ _ Vlo Vhi Nlo Nhi Hlt) as [Hinf|(Flo & Fhi & Fr & Hr & Or)].
    + now apply scale_cell_infinite_range.
    + rewrite (scale_cell_between _ _ _ Vlo Vhi Vlo Nlo Flo Fhi Fr Hr Or) by lia.
      rewrite Z.sub_diag, round_int_0, range_level_0 by lia.
      apply level_byte_0.
Qed.

Lemma flat_image_all_128 band nodata h :
  convert_tiff_to_heightmap band nodata = Ok h ->
  flat_warning h = true -> Forall (Forall (fun c => c = 128)) (scaled h).
Proof.
  intros H W. destruct (convert_Ok_inv _ _ _ H) as (st & _ & _ & _ & Hw & Hs & _).
  rewrite Hw in W. rewrite Hs, W. now apply Forall_grid_map.
Qed.

Lemma black_cell_not_flat (img : grid Z) :
  In 0 (ravel img) -> ~ Forall (Forall (fun c => c = 128)) img.
Proof.
  intros Hb F. unfold ravel in Hb.
  apply in_concat in Hb. destruct Hb as (r & Hr & Hc).
  rewrite Forall_forall in F. specialize (F r Hr).
  rewrite Forall_forall in F. specialize (F 0 Hc). discriminate.
Qed.

(** X9 (lines 43 to 59): the two branches are told apart by the image.
    The flat branch is taken exactly when every cell is 128, the scaling
    branch exactly when some cell is 0 (the minimum, or an invalid cell,
    always maps there), so a scaled image is never uniformly gray. *)
Theorem scaled_image_has_a_black_cell raw nodata h :
  convert_raster raw nodata = Ok h ->
  (flat_warning h = false <-> In 0 (ravel (scaled h))) /\
  (flat_warning h = true <-> Forall (Forall (fun c => c = 128)) (scaled h)).
Proof.
  intros H. pose proof (scaling_reaches_black _ _ _ H) as Hb.
  pose proof (flat_image_all_128 _ _ _ H) as Hf.
  destruct (flat_warning h).
  - specialize (Hf eq_refl). repeat split; auto; try discriminate.
    intros B. now apply black_cell_not_flat in B.
  - specialize (Hb eq_refl). repeat split; auto; try discriminate.
    intros F. now apply black_cell_not_flat in Hb.
Qed.

Lemma scaled_image_has_a_black_cell_witness :
  exists h,
    convert_raster int_raster None = Ok h /\
    (flat_warning h = false <-> In 0 (ravel (scaled h))) /\
    (flat_warning h = true <-> Forall (Forall (fun c => c = 128)) (scaled h)).
Proof.
  eexists. split; [vm_compute; reflexivity|].
  apply (scaled_image_has_a_black_cell int_raster None). vm_compute. reflexivity.
Defined.

(** X10 (lines 24 to 59): the whole result, statistics, range, warning and
    image, depends on the invalid cells only through their positions:
    two bands with the same valid cells in the same places give the same
    result, however the holes are encoded (NaN, or any no-data value). *)
Theorem result_ignores_invalid_cells band band' nodata nodata' :
  Forall2 (Forall2 (same_valid_cell nodata nodata')) band band' ->
  convert_tiff_to_heightmap band nodata = convert_tiff_to_heightmap band' nodata'.
Proof.
  intros H. unfold convert_tiff_to_heightmap.
  now rewrite (apply_nodata_same_valid _ _ _ _ H).
Qed.

Lemma result_ignores_invalid_cells_witness :
  convert_tiff_to_heightmap holed_grid (Some nodata_9999) =
  convert_tiff_to_heightmap gappy_grid None.
Proof.
  apply (result_ignores_invalid_cells holed_grid gappy_grid (Some nodata_9999) None).
  repeat constructor; (right; repeat split; reflexivity) || (left; split; reflexivity).
Defined.

Lemma filter_nil_inv {A} (f : A -> bool) l :
  filter f l = [] -> Forall (fun x => f x = false) l.
Proof.
  induction l as [|a l IH]; cbn [filter]; intros H; [constructor|].
  destruct (f a) eqn:E; [discriminate|]. constructor; auto.
Qed.

(** X11 (lines 24 to 59): a non-empty band without any valid cell (NaN
    cells, no-data cells, or both) gives NaN for the four statistics and
    for the range, no warning, and an image that is 0 everywhere. *)
Theorem raster_without_valid_cell_is_black band nodata :
  ravel band <> [] ->
  valid_cells nodata band = [] ->
  convert_tiff_to_heightmap band nodata =
  Ok {| stats := nan_statistics; elevation_range := nan;
        flat_warning := false; scaled := grid_map (fun _ => 0) band |}.
Proof.
  intros Hne Hv. apply filter_nil_inv in Hv.
  assert (Hd : apply_nodata nodata band = grid_map (fun _ => nan) band).
  { rewrite apply_nodata_cells. apply grid_map_ext_in. intros x Hx.
    rewrite Forall_forall in Hv. now rewrite (Hv x Hx). }
  assert (Hne' : ravel (apply_nodata nodata band) <> []).
  { intros E. now apply ravel_apply_nodata_eq_nil in E. }
  assert (Hst : statistics (apply_nodata nodata band) = Ok nan_statistics).
  { apply statistics_all_nan; [exact Hne'|]. rewrite Hd, ravel_grid_map.
    apply Forall_map, Forall_forall. reflexivity. }
  rewrite (convert_scaling _ _ _ Hst) by reflexivity.
  cbn [nan_statistics data_min data_max]. rewrite Hd, grid_map_grid_map.
  reflexivity.
Qed.

Lemma raster_without_valid_cell_is_black_witness :
  convert_tiff_to_heightmap void_grid (Some nodata_9999) =
  Ok {| stats := nan_statistics; elevation_range := nan;
        flat_warning := false; scaled := grid_map (fun _ => 0) void_grid |}.
Proof.
  apply (raster_without_valid_cell_is_black void_grid (Some nodata_9999)).
  - discriminate.
  - vm_compute. reflexivity.
Defined.

(** X12 (lines 18 and 50 to 59): for integer samples the whole chain,
    cast then scaling, is monotone: in the scaling branch every cell of the
    image is the gray level of its masked cell, and of two valid samples
    the one that is not larger never gets the larger gray level. *)
Theorem integer_raster_is_monotone raw nodata h za zb :
  convert_raster raw nodata = Ok h ->
  flat_warning h = false ->
  In (cast_float32 (IntSample za)) (valid_cells nodata (astype_float32 raw)) ->
  In (cast_float32 (IntSample zb)) (valid_cells nodata (astype_float32 raw)) ->
  za <= zb ->
  scaled h = grid_map (scale_cell (data_min (stats h)) (data_max (stats h)))
                      (apply_nodata nodata (astype_float32 raw)) /\
  scale_cell (data_min (stats h)) (data_max (stats h)) (cast_float32 (IntSample za)) <=
  scale_cell (data_min (stats h)) (data_max (stats h)) (cast_float32 (IntSample zb)).
Proof.
  intros H W Ha Hb Hle.
  destruct (convert_Ok_inv _ _ _ H) as (st & Hst & <- & _ & Hw & Hs & _).
  rewrite Hw in W. rewrite W in Hs. split; [exact Hs|].
  pose proof (all_valid_apply_nodata nodata _ (astype_float32_valid raw)) as V.
  destruct (statistics_bounds _ _ V Hst) as (Vlo & Vhi & Ilo & Ihi & Hbd).
  apply valid_cells_iff in Ha, Hb. destruct Ha as [Ia Na], Hb as [Ib Nb].
  destruct (Hbd _ Ia Na) as (Nlo & Nhi & Hla). destruct (Hbd _ Ib Nb) as (_ & _ & Hlb).
  pose proof (of_Z_mono za zb Hle) as L. cbn [cast_float32] in *.
  pose proof (In_ravel_valid _ _ V Ia) as Va. pose proof (In_ravel_valid _ _ V Ib) as Vb.
  apply scale_cell_monotone; try assumption; lia.
Qed.

Lemma integer_raster_is_monotone_witness :
  exists h,
    convert_raster int_raster (Some nodata_9999) = Ok h /\
    scaled h = grid_map (scale_cell (data_min (stats h)) (data_max (stats h)))
                        (apply_nodata (Some nodata_9999) (astype_float32 int_raster)) /\
    scale_cell (data_min (stats h)) (data_max (stats h)) (cast_float32 (IntSample 100)) <=
    scale_cell (data_min (stats h)) (data_max (stats h)) (cast_float32 (IntSample 175)).
Proof.
  eexists. split; [vm_compute; reflexivity|].
  apply (integer_raster_is_monotone int_raster (Some nodata_9999) _ 100 175).
  - vm_compute. reflexivity.
  - vm_compute. reflexivity.
  - vm_compute. auto.
  - vm_compute. auto.
  - lia.
Defined.

Lemma binary_round_aux_sign s m e l :
  let r := binary_round_aux 24 128 s m e l in
  r = S754_nan \/ r = S754_zero s \/ r = S754_infinity s \/
  exists m' e', r = S754_finite s m' e'.
Proof.
  cbv zeta. unfold binary_round_aux.
  destruct (shr_fexp 24 128 m e l) as [mrs' e'].
  destruct (shr_fexp 24 128 _ e' loc_Exact) as [mrs'' e''].
  destruct (shr_m mrs'') as [|p|p]; auto.
  destruct (e'' <=? 128 - 24); [do 3 right; eauto | auto].
Qed.

Lemma sqrt_not_negative x :
  ltb (sqrt x) zero = false /\ sqrt x <> S754_infinity true.
Proof.
  unfold sqrt, SFsqrt.
  destruct x as [s|[|]| |[|] m e]; try (split; [reflexivity|discriminate]).
  destruct (SFsqrt_core_binary 24 128 (Z.pos m) e) as [[mz ez] lz].
  destruct (binary_round_aux_sign false mz ez lz) as [E|[E|[E|(m' & e' & E)]]];
    rewrite E; (split; [reflexivity|discriminate]).
Qed.

(** X6 (line 31): the printed standard deviation is never negative and
    never [-inf]: [np.nanstd] is the square root of the variance. *)
Theorem stddev_is_never_negative band nodata h :
  convert_tiff_to_heightmap band nodata = Ok h ->
  ltb (data_stddev (stats h)) zero = false /\
  data_stddev (stats h) <> S754_infinity true.
Proof.
  intros H. destruct (convert_Ok_inv _ _ _ H) as (st & Hst & -> & _).
  unfold statistics, nanmin, nanmax, reduce in Hst.
  destruct (ravel (apply_nodata nodata band)) as [|x t]; [discriminate|].
  cbn [bind] in Hst. injection Hst as <-. cbn [data_stddev].
  apply sqrt_not_negative.
Qed.

Lemma stddev_is_never_negative_witness :
  exists h,
    convert_tiff_to_heightmap mixed_grid None = Ok h /\
    ltb (data_stddev (stats h)) zero = false /\
    data_stddev (stats h) <> S754_infinity true.
Proof.
  eexists. split; [vm_compute; reflexivity|].
  apply (stddev_is_never_negative mixed_grid None). vm_compute. reflexivity.
Defined.

Ltac in_trace H :=
  unfold report in H;
  try match type of H with
      | context [flat_warning ?h] => destruct (flat_warning h) eqn:?
      end;
  try match type of H with
      | context [save_ok ?w ?p] => destruct (save_ok w p) eqn:?
      end;
  cbn [app In] in H;
  repeat (destruct H as [H|H]; try discriminate H);
  try contradiction.

Lemma scaled_bytes band nodata h :
  convert_tiff_to_heightmap band nodata = Ok h ->
  Forall (Forall (fun c => 0 <= c <= 255)) (scaled h).
Proof.
  intros H. destruct (convert_Ok_inv _ _ _ H) as (st & _ & _ & _ & _ & Hs & _).
  rewrite Hs. destruct (isclose _ _); apply Forall_grid_map.
  - intros _. lia.
  - intros x. unfold scale_cell, astype_uint8.
    match goal with |- 0 <= ?a mod 256 <= 255 =>
      pose proof (Z.mod_pos_bound a 256) end. lia.
Qed.

Lemma astype_float32_shape raw :
  map (@List.length float32) (astype_float32 raw) = map (@List.length sample) raw.
Proof. apply grid_map_shape. Qed.

(** The four ways a run can go. *)
Lemma main_cases w argv :
  let input_tiff := nth 1 argv EmptyString in
  let output_png := nth 2 argv EmptyString in
  (Z.of_nat (List.length argv) < 3 /\
   main w argv = ([Print usage_line], SystemExit 1)) \/
  (3 <= Z.of_nat (List.length argv) /\
   dataset w input_tiff = None /\
   main w argv = ([Open input_tiff], Uncaught OpenFailed)) \/
  (3 <= Z.of_nat (List.length argv) /\
   exists raw nodata,
     dataset w input_tiff = Some (raw, nodata) /\ ravel raw = [] /\
     main w argv = ([Open input_tiff], Uncaught (NumpyError ValueError_zero_size))) \/
  (3 <= Z.of_nat (List.length argv) /\
   exists raw nodata h,
     dataset w input_tiff = Some (raw, nodata) /\ ravel raw <> [] /\
     convert_raster raw nodata = Ok h /\
     main w argv =
     (if save_ok w output_png
      then ([Open input_tiff] ++ report w h ++
            [Save output_png (scaled h); Print (saved_line output_png)], Returned)
      else ([Open input_tiff] ++ report w h, Uncaught SaveFailed))).
Proof.
  cbv zeta. unfold main, convert_file.
  destruct (Z.ltb_spec (Z.of_nat (List.length argv)) 3) as [Hlt|Hge]; [now left|].
  right. destruct (dataset w (nth 1 argv EmptyString)) as [[raw nodata]|] eqn:Hds;
    [|now left].
  right. unfold convert_raster.
  destruct (convert_cases (astype_float32 raw) nodata) as [[E Hc]|[E [h Hc]]];
    rewrite Hc; rewrite ravel_astype_float32_nil in E.
  - left. split; [exact Hge|]. now exists raw, nodata.
  - right. split; [exact Hge|]. exists raw, nodata, h. repeat split; assumption.
Qed.

Ltac by_main_cases w argv :=
  cbv zeta;
  destruct (main_cases w argv)
    as [(Hlen & Hm)|[(Hlen & Hds & Hm)|[(Hlen & raw & nodata & Hds & Hnil & Hm)
       |(Hlen & raw & nodata & h & Hds & Hne & Hconv & Hm)]]];
  rewrite Hm; clear Hm;
  try match goal with
      | |- context [save_ok ?w ?p] => destruct (save_ok w p) eqn:Hsave
      end;
  cbn [fst snd exit_code].

(** X13 (lines 8 to 78): the exit status is 0 or 1, and it is 0 exactly
    when an image was saved, which is exactly when the last thing the run
    did was to print the [Saved heightmap to] line; nothing is ever saved
    anywhere but at the path of the second argument. *)
Theorem exit_code_tells_whether_saved w argv :
  let tr := fst (main w argv) in
  let st := snd (main w argv) in
  (exit_code st = 0 \/ exit_code st = 1) /\
  (exit_code st = 0 <-> exists img, In (Save (nth 2 argv EmptyString) img) tr) /\
  (exit_code st = 0 <->
   last tr (Open EmptyString) = Print (saved_line (nth 2 argv EmptyString))) /\
  (forall p img, In (Save p img) tr -> exit_code st = 0 /\ p = nth 2 argv EmptyString).
Proof.
  by_main_cases w argv; (split; [auto|split; [|split]]).
  all: try (intros p img H0; in_trace H0; injection H0; auto).
  all: try (split; [discriminate|]).
  all: try (intros [img H0]; in_trace H0).
  all: try discriminate.
  - split; [intros _|reflexivity]. exists (scaled h). unfold report.
    destruct (flat_warning h); cbn; tauto.
  - split; [intros _|reflexivity]. unfold report.
    destruct (flat_warning h); reflexivity.
  - unfold report. destruct (flat_warning h); cbn; discriminate.
Qed.

Lemma exit_code_tells_whether_saved_witness :
  let tr := fst (main sample_world sample_argv) in
  let st := snd (main sample_world sample_argv) in
  (exit_code st = 0 \/ exit_code st = 1) /\
  (exit_code st = 0 <-> exists img, In (Save (nth 2 sample_argv EmptyString) img) tr) /\
  (exit_code st = 0 <->
   last tr (Open EmptyString) = Print (saved_line (nth 2 sample_argv EmptyString))) /\
  (forall p img, In (Save p img) tr ->
     exit_code st = 0 /\ p = nth 2 sample_argv EmptyString).
Proof.
  exact (exit_code_tells_whether_saved sample_world sample_argv).
Defined.

(** X14 (lines 16 to 66, 76 to 78): an image that is saved is the scaled
    band of the raster at the path of the first argument: it has the shape
    of that raster and every cell of it is a byte. *)
Theorem saved_image_is_the_scaled_band w argv p img :
  In (Save p img) (fst (main w argv)) ->
  exists raw nodata h,
    dataset w (nth 1 argv EmptyString) = Some (raw, nodata) /\
    convert_raster raw nodata = Ok h /\
    img = scaled h /\
    map (@List.length Z) img = map (@List.length sample) raw /\
    Forall (Forall (fun c => 0 <= c <= 255)) img.
Proof.
  revert p img.
  by_main_cases w argv; intros p img H0; in_trace H0; injection H0 as _ <-;
    exists raw, nodata, h; repeat split; try assumption;
    try (now apply (scaled_bytes _ _ _ Hconv));
    now rewrite (shape_is_preserved _ _ _ Hconv), astype_float32_shape.
Qed.

Lemma saved_image_is_the_scaled_band_witness :
  exists raw nodata h,
    dataset sample_world (nth 1 sample_argv EmptyString) = Some (raw, nodata) /\
    convert_raster raw nodata = Ok h /\
    [[0; 0]; [255; 127]] = scaled h /\
    map (@List.length Z) [[0; 0]; [255; 127]] = map (@List.length sample) raw /\
    Forall (Forall (fun c => 0 <= c <= 255)) [[0; 0]; [255; 127]].
Proof.
  apply (saved_image_is_the_scaled_band sample_world sample_argv "out.png").
  vm_compute. tauto.
Defined.

(** X15 (lines 43 to 46, 66): in a run that saves an image, the warning
    line is printed exactly when the saved image is 128 everywhere; when
    it is not printed the saved image has a cell equal to 0. *)
Theorem warning_is_printed_iff_flat w argv p img :
  In (Save p img) (fst (main w argv)) ->
  (In (Print warning_line) (fst (main w argv)) <->
   Forall (Forall (fun c => c = 128)) img) /\
  (~ In (Print warning_line) (fst (main w argv)) -> In 0 (ravel img)).
Proof.
  revert p img.
  by_main_cases w argv; intros p img H0; in_trace H0; injection H0 as _ <-;
    pose proof (scaling_reaches_black _ _ _ Hconv) as Hb;
    pose proof (flat_image_all_128 _ _ _ Hconv) as Hf;
    unfold report;
    match goal with E : flat_warning _ = _ |- _ => rewrite E in * end;
    cbn [app In].
  - split; [split; [intros _; now apply Hf | intros _; tauto]|].
    intros N. exfalso. apply N. tauto.
  - specialize (Hb eq_refl). split; [split|].
    + intros H1. repeat (destruct H1 as [H1|H1]; try discriminate H1). contradiction.
    + intros F. now apply black_cell_not_flat in Hb.
    + intros _. exact Hb.
Qed.

Lemma warning_is_printed_iff_flat_witness :
  (In (Print warning_line) (fst (main flat_world sample_argv)) <->
   Forall (Forall (fun c => c = 128)) [[128; 128]; [128; 128]]) /\
  (~ In (Print warning_line) (fst (main flat_world sample_argv)) ->
   In 0 (ravel [[128; 128]; [128; 128]])).
Proof.
  apply (warning_is_printed_iff_flat flat_world sample_argv "out.png").
  vm_compute. tauto.
Defined.

(** X16 (lines 16 to 40, 72 to 74): the usage line is printed exactly when
    fewer than two arguments are given; the statistics block is printed
    exactly when the first argument names a raster that can be read and
    has at least one cell; and no file but that one is ever opened. *)
Theorem statistics_are_printed_iff_band_read w argv :
  let tr := fst (main w argv) in
  (In (Print usage_line) tr <-> Z.of_nat (List.length argv) < 3) /\
  (In (Print header_line) tr <->
   3 <= Z.of_nat (List.length argv) /\
   exists raw nodata,
     dataset w (nth 1 argv EmptyString) = Some (raw, nodata) /\ ravel raw <> []) /\
  (forall p, In (Open p) tr ->
     3 <= Z.of_nat (List.length argv) /\ p = nth 1 argv EmptyString).
Proof.
  by_main_cases w argv; (split; [|split]).
  all: try (intros p H0; in_trace H0; injection H0 as <-; now split).
  all: try (intros p H0; in_trace H0; fail).
  all: split; intros H0.
  all: try (in_trace H0; fail).
  all: try lia.
  all: try (cbn; tauto).
  all: try (destruct H0 as (_ & raw' & nodata' & D & N); congruence).
  all: try (split; [lia|eauto]).
  all: try (unfold report; cbn; tauto).
Qed.

Lemma statistics_are_printed_iff_band_read_witness :
  let tr := fst (main sample_world sample_argv) in
  (In (Print usage_line) tr <-> Z.of_nat (List.length sample_argv) < 3) /\
  (In (Print header_line) tr <->
   3 <= Z.of_nat (List.length sample_argv) /\
   exists raw nodata,
     dataset sample_world (nth 1 sample_argv EmptyString) = Some (raw, nodata) /\
     ravel raw <> []) /\
  (forall p, In (Open p) tr ->
     3 <= Z.of_nat (List.length sample_argv) /\ p = nth 1 sample_argv EmptyString).
Proof.
  exact (statistics_are_printed_iff_band_read sample_world sample_argv).
Defined.
